(** * pigallery2: the directory scanner of [DiskMangerWorker.ts]

    A shallow embedding of [src/backend/model/threading/DiskMangerWorker.ts]
    and of the parts of Node's [path] module (POSIX flavour) that it calls.

    JavaScript strings are modelled as [string] (character codes restricted
    to one byte); the routines of Node's [path] work on the list of
    characters, as [lib/path.js] does with [charCodeAt] and [slice]. *)

From Stdlib Require Import ZArith Ascii String List Bool Lia.
From stdpp Require Import gmap strings list.

Set Warnings "-register-all".

Local Open Scope string_scope.
Local Open Scope list_scope.
Local Open Scope nat_scope.

(** ** Node's [path] module, POSIX flavour *)

Module Path.

Abbreviation chars := (list ascii).

Local Abbreviation length := List.length.

Definition slash : ascii := "/"%char.
Definition dot : ascii := "."%char.

Definition isPathSeparator (c : ascii) : bool := Ascii.eqb c slash.

(** [res.lastIndexOf('/')], [None] standing for [-1]. *)
Fixpoint lastIndexOf_from (i : nat) (l : chars) (found : option nat) : option nat :=
  match l with
  | [] => found
  | c :: l' =>
      lastIndexOf_from (S i) l' (if isPathSeparator c then Some i else found)
  end.

Definition lastIndexOf (l : chars) : option nat := lastIndexOf_from 0 l None.

(** The loop state of [normalizeString]: the result built so far, the length
    of its last segment, the characters read since the last separator
    (the source keeps the index [lastSlash] and slices
    [path.slice(lastSlash + 1, i)]) and the dot counter. *)
Record nstate := NState {
  ns_res : chars;
  ns_lastSegmentLength : nat;
  ns_segment : chars;
  ns_dots : Z
}.

Definition ns_init : nstate := NState [] 0 [] 0.

Definition ends_with_dotdot (res : chars) : bool :=
  match rev res with
  | a :: b :: _ => Ascii.eqb a dot && Ascii.eqb b dot
  | _ => false
  end.

(** The branch of [normalizeString] taken on a separator. *)
Definition ns_separator (allowAboveRoot : bool) (st : nstate) : nstate :=
  let res := ns_res st in
  let above :=
    if allowAboveRoot
    then NState (match res with [] => [dot; dot] | _ => res ++ [slash; dot; dot] end)
                2 [] 0
    else NState res (ns_lastSegmentLength st) [] 0 in
  match ns_segment st with
  | [] => NState res (ns_lastSegmentLength st) [] 0
  | _ :: _ =>
    if (ns_dots st =? 1)%Z then NState res (ns_lastSegmentLength st) [] 0
    else if (ns_dots st =? 2)%Z then
      if (length res <? 2) || negb (ns_lastSegmentLength st =? 2)
         || negb (ends_with_dotdot res)
      then
        if 2 <? length res then
          match lastIndexOf res with
          | None => NState [] 0 [] 0
          | Some idx =>
              let res' := firstn idx res in
              NState res'
                (match lastIndexOf res' with
                 | None => length res'
                 | Some j => length res' - 1 - j
                 end) [] 0
          end
        else if negb (length res =? 0) then NState [] 0 [] 0
        else above
      else above
    else
      NState (match res with
              | [] => ns_segment st
              | _ => res ++ slash :: ns_segment st
              end)
             (length (ns_segment st)) [] 0
  end.

(** One iteration of the loop of [normalizeString] on a character of the
    path. *)
Definition ns_step (allowAboveRoot : bool) (st : nstate) (c : ascii) : nstate :=
  if isPathSeparator c then ns_separator allowAboveRoot st
  else if Ascii.eqb c dot && negb (ns_dots st =? -1)%Z then
    NState (ns_res st) (ns_lastSegmentLength st) (ns_segment st ++ [c])
           (ns_dots st + 1)
  else
    NState (ns_res st) (ns_lastSegmentLength st) (ns_segment st ++ [c]) (-1).

(** [normalizeString(path, allowAboveRoot, '/', isPosixPathSeparator)]: the
    last iteration ([i = path.length]) leaves the loop when the last
    character was a separator and otherwise acts as on a separator. *)
Definition normalizeString (path : chars) (allowAboveRoot : bool) : chars :=
  let st := fold_left (ns_step allowAboveRoot) path ns_init in
  match rev path with
  | c :: _ => if isPathSeparator c then ns_res st
              else ns_res (ns_separator allowAboveRoot st)
  | [] => ns_res (ns_separator allowAboveRoot st)
  end.

Definition starts_with_slash (p : chars) : bool :=
  match p with c :: _ => isPathSeparator c | [] => false end.

Definition ends_with_slash (p : chars) : bool :=
  match rev p with c :: _ => isPathSeparator c | [] => false end.

(** [path.posix.normalize] on characters. *)
Definition normalize_chars (p : chars) : chars :=
  match p with
  | [] => [dot]
  | _ :: _ =>
      let isAbsolute := starts_with_slash p in
      let trailingSeparator := ends_with_slash p in
      let r := normalizeString p (negb isAbsolute) in
      match r with
      | [] => if isAbsolute then [slash]
              else if trailingSeparator then [dot; slash] else [dot]
      | _ :: _ =>
          let r' := if trailingSeparator then r ++ [slash] else r in
          if isAbsolute then slash :: r' else r'
      end
  end.

(** The accumulation loop of [path.posix.join]: empty arguments are skipped,
    the others are glued with a separator. *)
Fixpoint join_args (joined : option chars) (args : list chars) : option chars :=
  match args with
  | [] => joined
  | arg :: rest =>
      match arg with
      | [] => join_args joined rest
      | _ :: _ =>
          join_args (Some (match joined with
                           | None => arg
                           | Some j => j ++ slash :: arg
                           end)) rest
      end
  end.

Definition join_chars (args : list chars) : chars :=
  match join_args None args with
  | None => [dot]
  | Some joined => normalize_chars joined
  end.

(** [path.posix.dirname]: the loop runs from the last index down to 1. *)
Fixpoint dirname_scan (r : chars) (i : nat) (matchedSlash : bool) : option nat :=
  match r with
  | [] => None
  | c :: r' =>
      if isPathSeparator c then
        if negb matchedSlash then Some i
        else dirname_scan r' (pred i) matchedSlash
      else dirname_scan r' (pred i) false
  end.

Definition dirname_chars (p : chars) : chars :=
  match p with
  | [] => [dot]
  | c0 :: tl =>
      let hasRoot := isPathSeparator c0 in
      match dirname_scan (rev tl) (length p - 1) true with
      | None => if hasRoot then [slash] else [dot]
      | Some e =>
          if hasRoot && (e =? 1) then [slash; slash] else firstn e p
      end
  end.

(** [path.posix.basename] without a suffix: the loop runs from the last
    index down to 0 and yields [start] and [end]. *)
Fixpoint basename_scan (r : chars) (i : nat) (matchedSlash : bool)
    (e : option nat) : nat * option nat :=
  match r with
  | [] => (0, e)
  | c :: r' =>
      if isPathSeparator c then
        if negb matchedSlash then (S i, e)
        else basename_scan r' (pred i) matchedSlash e
      else
        match e with
        | None => basename_scan r' (pred i) false (Some (S i))
        | Some _ => basename_scan r' (pred i) matchedSlash e
        end
  end.

Definition slice (p : chars) (s e : nat) : chars := firstn (e - s) (skipn s p).

Definition basename_chars (p : chars) : chars :=
  match basename_scan (rev p) (length p - 1) true None with
  | (_, None) => []
  | (s, Some e) => slice p s e
  end.

(** [path.posix.extname]. *)
Record estate := EState {
  es_startDot : option nat;
  es_startPart : nat;
  es_end : option nat;
  es_matchedSlash : bool;
  es_preDotState : Z
}.

Fixpoint extname_scan (r : chars) (i : nat) (st : estate) : estate :=
  match r with
  | [] => st
  | c :: r' =>
      if isPathSeparator c then
        if negb (es_matchedSlash st)
        then EState (es_startDot st) (S i) (es_end st) (es_matchedSlash st)
                    (es_preDotState st)
        else extname_scan r' (pred i) st
      else
        let st1 :=
          match es_end st with
          | None => EState (es_startDot st) (es_startPart st) (Some (S i)) false
                           (es_preDotState st)
          | Some _ => st
          end in
        let st2 :=
          if Ascii.eqb c dot then
            match es_startDot st1 with
            | None => EState (Some i) (es_startPart st1) (es_end st1)
                             (es_matchedSlash st1) (es_preDotState st1)
            | Some _ =>
                if negb (es_preDotState st1 =? 1)%Z
                then EState (es_startDot st1) (es_startPart st1) (es_end st1)
                            (es_matchedSlash st1) 1
                else st1
            end
          else
            match es_startDot st1 with
            | Some _ => EState (es_startDot st1) (es_startPart st1) (es_end st1)
                               (es_matchedSlash st1) (-1)
            | None => st1
            end in
        extname_scan r' (pred i) st2
  end.

Definition extname_chars (p : chars) : chars :=
  let st := extname_scan (rev p) (length p - 1) (EState None 0 None true 0) in
  match es_startDot st, es_end st with
  | Some sd, Some e =>
      if (es_preDotState st =? 0)%Z
         || ((es_preDotState st =? 1)%Z && (sd =? e - 1) && (sd =? es_startPart st + 1))
      then []
      else slice p sd e
  | _, _ => []
  end.

(** The string interface used by the scanner. *)
Definition sep : string := "/".

Definition normalize (p : string) : string :=
  string_of_list_ascii (normalize_chars (list_ascii_of_string p)).

Definition join (args : list string) : string :=
  string_of_list_ascii (join_chars (map list_ascii_of_string args)).

Definition dirname (p : string) : string :=
  string_of_list_ascii (dirname_chars (list_ascii_of_string p)).

Definition basename (p : string) : string :=
  string_of_list_ascii (basename_chars (list_ascii_of_string p)).

Definition extname (p : string) : string :=
  string_of_list_ascii (extname_chars (list_ascii_of_string p)).

End Path.

(** ** JavaScript string helpers *)

Definition startsWith (s p : string) : bool := String.prefix p s.

Definition includes (s sub : string) : bool :=
  match String.index 0 sub s with Some _ => true | None => false end.

(** [String.prototype.toLowerCase] on one-byte characters: the capitals
    [A]-[Z] and the capitals of Latin-1 ([U+00C0]-[U+00D6] and
    [U+00D8]-[U+00DE]) are lowered, the other codes are left alone. *)
Definition lower_ascii (c : ascii) : ascii :=
  let n := nat_of_ascii c in
  if ((65 <=? n) && (n <=? 90))
     || ((192 <=? n) && (n <=? 214))
     || ((216 <=? n) && (n <=? 222))
  then ascii_of_nat (n + 32) else c.

Definition toLowerCase (s : string) : string :=
  string_of_list_ascii (map lower_ascii (list_ascii_of_string s)).

(** White space removed by [String.prototype.trim], among one-byte codes. *)
Definition is_js_space (c : ascii) : bool :=
  let n := nat_of_ascii c in
  (n =? 9) || (n =? 10) || (n =? 11) || (n =? 12) || (n =? 13) || (n =? 32)
  || (n =? 160).

(** [s.trim().length === 0] *)
Definition trim_is_empty (s : string) : bool :=
  forallb is_js_space (list_ascii_of_string s).

(** ** Data model *)

(** A thrown JavaScript value, observed through [toString()]. *)
Record exn := JsError { exn_toString : string }.

(** The settlement of a promise returned by a collaborator. *)
Inductive settled (A : Type) :=
  | Resolved (a : A)
  | Rejected (e : exn).
Arguments Resolved {A} a.
Arguments Rejected {A} e.

(** [fs.Stats], as far as the scanner looks at it ([getTime()] of the two
    dates). *)
Record Stats := mkStats { isDirectory : bool; ctime : Z; mtime : Z }.

(** [DirectoryScanSettings]: optional booleans, [None] being [undefined]. *)
Record DirectoryScanSettings := mkSettings {
  coverOnly : option bool;
  noMetaFile : option bool;
  noVideo : option bool;
  noPhoto : option bool;
  noDirectory : option bool;
  noMetadata : option bool;
  noChildDirPhotos : option bool
}.

(** The object literal [{}]. *)
Definition emptySettings : DirectoryScanSettings :=
  mkSettings None None None None None None None.

(** The object literal [{coverOnly: true}]. *)
Definition coverOnlySettings : DirectoryScanSettings :=
  mkSettings (Some true) None None None None None None.

(** [x === true] *)
Definition is_strictly_true (x : option bool) : bool :=
  match x with Some true => true | _ => false end.

Definition set_noMetadata (v : option bool) (s : DirectoryScanSettings)
    : DirectoryScanSettings :=
  mkSettings (coverOnly s) (noMetaFile s) (noVideo s) (noPhoto s)
             (noDirectory s) v (noChildDirPhotos s).

(** [{path, name}], the back-reference of a media entry to its directory. *)
Record DirectoryPathDTO := mkDirectoryPath { dp_path : string; dp_name : string }.

(** [FileDTO]: a sidecar file. *)
Record FileDTO := mkFile { f_name : string; f_directory : option DirectoryPathDTO }.

(** I/O performed by the scanner, in program order. *)
Inductive event :=
  | EvStat (p : string)
  | EvReaddir (p : string)
  | EvAccess (p : string)
  | EvLoadPhotoMetadata (p : string)
  | EvLoadVideoMetadata (p : string)
  | EvWarn (msg : string).

(** The outcome of an [async] function of the scanner. [OutOfFuel] is the
    model's own: the recursion of [scanDirectory] is bounded by a counter. *)
Inductive outcome (A : Type) :=
  | Returned (a : A)
  | Thrown (e : exn)
  | OutOfFuel.
Arguments Returned {A} a.
Arguments Thrown {A} e.
Arguments OutOfFuel {A}.

(** A computation: the events it performed and its outcome. *)
Definition M (A : Type) : Type := list event * outcome A.

Definition ret {A} (a : A) : M A := ([], Returned a).

Definition bind {A B} (m : M A) (k : A -> M B) : M B :=
  match m with
  | (t, Returned a) => let (t', r) := k a in (t ++ t', r)
  | (t, Thrown e) => (t, Thrown e)
  | (t, OutOfFuel) => (t, OutOfFuel)
  end.

Definition tell (t : list event) : M unit := (t, Returned tt).

Definition throw {A} (e : exn) : M A := ([], Thrown e).

(** [try { m } catch (e) { h e }] *)
Definition try_catch {A} (m : M A) (h : exn -> M A) : M A :=
  match m with
  | (t, Thrown e) => let (t', r) := h e in (t ++ t', r)
  | _ => m
  end.

(** [await] of a collaborator's promise, recorded as an event. *)
Definition await {A} (ev : event) (p : settled A) : M A :=
  match p with
  | Resolved a => ([ev], Returned a)
  | Rejected e => ([ev], Thrown e)
  end.

Notation "'let*' x ':=' m 'in' k" := (bind m (fun x => k))
  (at level 10, x name, m at level 100, k at level 200).
Notation "m '>>' k" := (bind m (fun _ => k))
  (at level 100, k at level 200, right associativity).

Definition trace {A} (m : M A) : list event := fst m.
Definition result {A} (m : M A) : outcome A := snd m.

Definition map_outcome {A B} (f : A -> B) (o : outcome A) : outcome B :=
  match o with
  | Returned a => Returned (f a)
  | Thrown e => Thrown e
  | OutOfFuel => OutOfFuel
  end.

(** References to settings objects. *)
Abbreviation loc := positive.

Section Scanner.

(** What a metadata loader returns is opaque to the scanner. *)
Context {Metadata : Type}.

(** [PhotoDTO] and [VideoDTO]: a media entry. *)
Record MediaDTO := mkMedia {
  m_name : string;
  m_directory : option DirectoryPathDTO;
  m_metadata : option Metadata
}.

(** [ParentDirectoryDTO] / [SubDirectoryDTO]: a directory snapshot. The
    fields [id] and [parent] are [null] in every object the scanner builds. *)
Inductive DirectoryDTO := mkDirectory {
  id : option Z;
  parent : option DirectoryPathDTO;
  name : string;
  path : string;
  lastModified : Z;
  lastScanned : Z;
  directories : list DirectoryDTO;
  isPartial : bool;
  mediaCount : nat;
  videoCount : nat;
  directoryCount : nat;
  cover : option MediaDTO;
  validCover : bool;
  media : list MediaDTO;
  metaFile : list FileDTO
}.

(** The collaborators and the configuration the scanner reads: the file
    system (taken as static during one scan), the clock, the format
    registry, the metadata loaders and [Config]. *)
Record World := mkWorld {
  ImageFolder : string;
  excludeFolderList : list string;
  excludeFileList : list string;
  Video_enabled : bool;
  MetaFile_gpx : bool;
  MetaFile_markdown : bool;
  MetaFile_pg2conf : bool;
  fsp_stat : string -> settled Stats;
  fsp_readdir : string -> settled (list string);
  fsp_access : string -> settled unit;
  Date_now : Z;
  PhotoProcessing_isPhoto : string -> bool;
  VideoProcessing_isVideo : string -> bool;
  GPXProcessing_isMetaFile : string -> bool;
  loadPhotoMetadata : string -> settled Metadata;
  loadVideoMetadata : string -> settled Metadata;
  MediaDTOUtils_isVideo : MediaDTO -> bool
}.

(** Modelled from the spec: [Utils.clone] of [common/Utils] is not among the
    sources; the spec has the entry cloned as the cover, which on values is
    the same entry. *)
Definition Utils_clone (m : MediaDTO) : MediaDTO := m.

(** *** Field updates of the snapshot under construction *)

Definition incr_directoryCount (d : DirectoryDTO) : DirectoryDTO :=
  mkDirectory (id d) (parent d) (name d) (path d) (lastModified d)
    (lastScanned d) (directories d) (isPartial d) (mediaCount d) (videoCount d)
    (S (directoryCount d)) (cover d) (validCover d) (media d) (metaFile d).

Definition push_directory (d c : DirectoryDTO) : DirectoryDTO :=
  mkDirectory (id d) (parent d) (name d) (path d) (lastModified d)
    (lastScanned d) (directories d ++ [c]) (isPartial d) (mediaCount d)
    (videoCount d) (directoryCount d) (cover d) (validCover d) (media d)
    (metaFile d).

Definition set_cover (d : DirectoryDTO) (c : option MediaDTO) : DirectoryDTO :=
  mkDirectory (id d) (parent d) (name d) (path d) (lastModified d)
    (lastScanned d) (directories d) (isPartial d) (mediaCount d) (videoCount d)
    (directoryCount d) c (validCover d) (media d) (metaFile d).

Definition push_media (d : DirectoryDTO) (m : MediaDTO) : DirectoryDTO :=
  mkDirectory (id d) (parent d) (name d) (path d) (lastModified d)
    (lastScanned d) (directories d) (isPartial d) (mediaCount d) (videoCount d)
    (directoryCount d) (cover d) (validCover d) (media d ++ [m]) (metaFile d).

Definition push_metaFile (d : DirectoryDTO) (f : FileDTO) : DirectoryDTO :=
  mkDirectory (id d) (parent d) (name d) (path d) (lastModified d)
    (lastScanned d) (directories d) (isPartial d) (mediaCount d) (videoCount d)
    (directoryCount d) (cover d) (validCover d) (media d) (metaFile d ++ [f]).

(** [d.lastScanned = 0; d.isPartial = true;] *)
Definition mark_partial (d : DirectoryDTO) : DirectoryDTO :=
  mkDirectory (id d) (parent d) (name d) (path d) (lastModified d)
    0%Z (directories d) true (mediaCount d) (videoCount d)
    (directoryCount d) (cover d) (validCover d) (media d) (metaFile d).

Definition set_media_directory (m : MediaDTO) (r : option DirectoryPathDTO)
    : MediaDTO :=
  mkMedia (m_name m) r (m_metadata m).

Variable W : World.

(** ** [DiskMangerWorker] *)

Definition calcLastModified (stat : Stats) : Z := Z.max (ctime stat) (mtime stat).

Definition normalizeDirPath (dirPath : string) : string :=
  Path.normalize (Path.join [("." ++ Path.sep)%string; dirPath]).

Definition pathFromRelativeDirName (relativeDirectoryName : string) : string :=
  Path.join [Path.dirname (normalizeDirPath relativeDirectoryName); Path.sep].

Definition pathFromParent (parent : DirectoryPathDTO) : string :=
  Path.join [normalizeDirPath (Path.join [dp_path parent; dp_name parent]);
             Path.sep].

Definition dirName (dirPath : string) : string :=
  if trim_is_empty dirPath then "." else Path.basename dirPath.

(** The loop of [excludeDir] over [Config.Indexing.excludeFolderList]; [true]
    is the [return true] inside the loop. *)
Fixpoint excludeFolder_loop (name relativeName absoluteName : string)
    (rules : list string) : bool :=
  match rules with
  | [] => false
  | exclude :: rest =>
      if startsWith exclude "/" then
        if String.eqb exclude absoluteName then true
        else excludeFolder_loop name relativeName absoluteName rest
      else if includes exclude "/" then
        if String.eqb (Path.normalize exclude) relativeName then true
        else excludeFolder_loop name relativeName absoluteName rest
      else
        if String.eqb exclude name then true
        else excludeFolder_loop name relativeName absoluteName rest
  end.

(** The loop of [excludeDir] over [Config.Indexing.excludeFileList]: a
    rejected [fsp.access] is caught and ignored. *)
Fixpoint excludeFile_loop (absoluteName : string) (markers : list string)
    : M bool :=
  match markers with
  | [] => ret false
  | exclude :: rest =>
      let probe := Path.join [absoluteName; exclude] in
      let* found :=
        try_catch
          (let* _ := await (EvAccess probe) (fsp_access W probe) in ret true)
          (fun _ => ret false) in
      if found then ret true else excludeFile_loop absoluteName rest
  end.

Definition excludeDir (name relativeDirectoryName absoluteDirectoryName : string)
    : M bool :=
  if (List.length (excludeFolderList W) =? 0)
     && (List.length (excludeFileList W) =? 0)
  then ret false
  else
    let absoluteName := Path.normalize (Path.join [absoluteDirectoryName; name]) in
    let relativeName := Path.normalize (Path.join [relativeDirectoryName; name]) in
    if excludeFolder_loop name relativeName absoluteName (excludeFolderList W)
    then ret true
    else excludeFile_loop absoluteName (excludeFileList W).

Definition isEnabledMetaFile (fullPath : string) : bool :=
  let extension := toLowerCase (Path.extname fullPath) in
  if String.eqb extension ".gpx" then MetaFile_gpx W
  else if String.eqb extension ".md" then MetaFile_markdown W
  else if String.eqb extension ".pg2conf" then MetaFile_pg2conf W
  else false.

(** The metadata field of a new entry: [null] under [noMetadata], the
    loader's answer otherwise. *)
Definition metadata_of (settings : DirectoryScanSettings) (ev : event)
    (load : settled Metadata) : M (option Metadata) :=
  if is_strictly_true (noMetadata settings) then ret None
  else let* md := await ev load in ret (Some md).

(** How one iteration of the [for (const file of list)] loop ends: at its
    end or at a [continue] ([Continue]), or at the [break] ([Break]). *)
Inductive loop_exit := Continue | Break.

(** The body of the loop of [scanDirectory] for the entry [file]. [self] is
    the recursive call. *)
Definition scanEntry (self : string -> DirectoryScanSettings -> M DirectoryDTO)
    (settings : DirectoryScanSettings)
    (relativeDirectoryName absoluteDirectoryName : string)
    (file : string) (directory : DirectoryDTO) : M (loop_exit * DirectoryDTO) :=
  let fullFilePath :=
    Path.normalize (Path.join [absoluteDirectoryName; file]) in
  let* st := await (EvStat fullFilePath) (fsp_stat W fullFilePath) in
  if isDirectory st then
    let directory := incr_directoryCount directory in
    if is_strictly_true (noDirectory settings)
       || is_strictly_true (coverOnly settings)
    then ret (Continue, directory)
    else
      let* excluded :=
        excludeDir file relativeDirectoryName absoluteDirectoryName in
      if excluded then ret (Continue, directory)
      else
        let* d := self (Path.join [relativeDirectoryName; file])
                       coverOnlySettings in
        ret (Continue, push_directory directory (mark_partial d))
  else if PhotoProcessing_isPhoto W fullFilePath then
    if is_strictly_true (noPhoto settings) then ret (Continue, directory)
    else
      let* md := metadata_of settings (EvLoadPhotoMetadata fullFilePath)
                   (loadPhotoMetadata W fullFilePath) in
      let photo := mkMedia file None md in
      let directory :=
        match cover directory with
        | None =>
            set_cover directory
              (Some (set_media_directory (Utils_clone photo)
                       (Some (mkDirectoryPath (path directory)
                                              (name directory)))))
        | Some _ => directory
        end in
      let directory := push_media directory photo in
      if is_strictly_true (coverOnly settings) then ret (Break, directory)
      else ret (Continue, directory)
  else if VideoProcessing_isVideo W fullFilePath then
    if negb (Video_enabled W)
       || is_strictly_true (noVideo settings)
       || is_strictly_true (coverOnly settings)
    then ret (Continue, directory)
    else
      let* directory :=
        try_catch
          (let* md := metadata_of settings
                        (EvLoadVideoMetadata fullFilePath)
                        (loadVideoMetadata W fullFilePath) in
           ret (push_media directory (mkMedia file None md)))
          (fun e =>
             tell [EvWarn ("Media loading error, skipping: " ++ file
                           ++ ", reason: " ++ exn_toString e)%string]
             >> ret directory) in
      ret (Continue, directory)
  else if GPXProcessing_isMetaFile W fullFilePath then
    if negb (isEnabledMetaFile fullFilePath)
       || is_strictly_true (noMetaFile settings)
       || is_strictly_true (coverOnly settings)
    then ret (Continue, directory)
    else ret (Continue, push_metaFile directory (mkFile file None))
  else ret (Continue, directory).

(** The loop itself, over the listing. *)
Fixpoint scanEntries (self : string -> DirectoryScanSettings -> M DirectoryDTO)
    (settings : DirectoryScanSettings)
    (relativeDirectoryName absoluteDirectoryName : string)
    (list : list string) (directory : DirectoryDTO) : M DirectoryDTO :=
  match list with
  | [] => ret directory
  | file :: rest =>
      let* r := scanEntry self settings relativeDirectoryName
                  absoluteDirectoryName file directory in
      match r with
      | (Continue, directory) =>
          scanEntries self settings relativeDirectoryName
            absoluteDirectoryName rest directory
      | (Break, directory) => ret directory
      end
  end.

(** The two assignments after the loop. *)
Definition set_counts (d : DirectoryDTO) : DirectoryDTO :=
  mkDirectory (id d) (parent d) (name d) (path d) (lastModified d)
    (lastScanned d) (directories d) (isPartial d)
    (List.length (media d))
    (List.length (List.filter (MediaDTOUtils_isVideo W) (media d)))
    (directoryCount d) (cover d) (validCover d) (media d) (metaFile d).

(** [scanDirectory]. The recursion of the source is bounded here by [fuel];
    [scanDirectory_total] shows that two units always suffice. *)
Fixpoint scanDirectory (fuel : nat) (relativeDirectoryName : string)
    (settings : DirectoryScanSettings) : M DirectoryDTO :=
  match fuel with
  | O => ([], OutOfFuel)
  | S fuel' =>
      let relativeDirectoryName := normalizeDirPath relativeDirectoryName in
      let directoryName := dirName relativeDirectoryName in
      let directoryParent := pathFromRelativeDirName relativeDirectoryName in
      let absoluteDirectoryName :=
        Path.join [ImageFolder W; relativeDirectoryName] in
      let statPath := Path.join [ImageFolder W; relativeDirectoryName] in
      let* stat := await (EvStat statPath) (fsp_stat W statPath) in
      let directory :=
        mkDirectory None None directoryName directoryParent
          (calcLastModified stat) (Date_now W) [] false 0 0 0 None false [] [] in
      if is_strictly_true (noPhoto settings)
         && is_strictly_true (noMetaFile settings)
         && is_strictly_true (noVideo settings)
      then ret directory
      else
        let* list := await (EvReaddir absoluteDirectoryName)
                       (fsp_readdir W absoluteDirectoryName) in
        let* directory :=
          scanEntries (scanDirectory fuel') settings relativeDirectoryName
            absoluteDirectoryName list directory in
        ret (set_counts directory)
  end.

(** *** Settings objects passed by reference

    [scanDirectoryNoMetadata] assigns to a field of the settings object it
    is given, so the caller's objects live in a store. [scanDirectory] only
    reads its settings and takes the object's value. *)

(** A call [scanDirectory(relativeDirectoryName, settings)] with a settings
    object of the store. A reference to no object behaves as [null]: the
    function runs up to the first access to a property of [settings], the
    test [settings.noPhoto === true] behind the [stat] of the directory,
    which throws. *)
Definition scanDirectory_ref (fuel : nat) (heap : gmap loc DirectoryScanSettings)
    (relativeDirectoryName : string) (settings : loc) : M DirectoryDTO :=
  match heap !! settings with
  | Some s => scanDirectory fuel relativeDirectoryName s
  | None =>
      let statPath :=
        Path.join [ImageFolder W; normalizeDirPath relativeDirectoryName] in
      let* _ := await (EvStat statPath) (fsp_stat W statPath) in
      throw (JsError "TypeError: Cannot read properties of null")
  end.

(** [scanDirectoryNoMetadata(relativeDirectoryName, settings = {})]: the
    argument is a reference, or [None] when the caller passes nothing and the
    default [{}] is allocated. The assignment [settings.noMetadata = true]
    comes first: on a reference to no object it throws before anything else
    is done. The result is the store after the call and the computation. *)
Definition scanDirectoryNoMetadata (fuel : nat) (heap : gmap loc DirectoryScanSettings)
    (relativeDirectoryName : string) (settings : option loc)
    : gmap loc DirectoryScanSettings * M DirectoryDTO :=
  let '(heap, settings) :=
    match settings with
    | Some l => (heap, l)
    | None => let l := fresh (dom heap) in (<[l := emptySettings]> heap, l)
    end in
  match heap !! settings with
  | Some _ =>
      let heap := alter (set_noMetadata (Some true)) settings heap in
      (heap, scanDirectory_ref fuel heap relativeDirectoryName settings)
  | None =>
      (heap, throw (JsError "TypeError: Cannot set properties of null"))
  end.

End Scanner.

Arguments MediaDTO : clear implicits.
Arguments DirectoryDTO : clear implicits.
Arguments World : clear implicits.

(** ** Test doubles: a file system given by a table, a format registry by
    extension and loaders that fail on listed files *)

Module Fixture.

Inductive node :=
  | FileNode
  | DirNode (entries : list string).

(** Paths are resolved up to normalization and a trailing separator. *)
Definition same_file (p q : string) : bool :=
  String.eqb (Path.normalize (p ++ "/")%string) (Path.normalize (q ++ "/")%string).

Fixpoint resolve (table : list (string * node)) (p : string) : option node :=
  match table with
  | [] => None
  | (q, n) :: rest => if same_file p q then Some n else resolve rest p
  end.

Definition ENOENT (p : string) : exn :=
  JsError ("Error: ENOENT: no such file or directory, " ++ p)%string.

Definition stat_of (table : list (string * node)) (p : string) : settled Stats :=
  match resolve table p with
  | Some FileNode => Resolved (mkStats false 10 20)
  | Some (DirNode _) => Resolved (mkStats true 30 25)
  | None => Rejected (ENOENT p)
  end.

Definition readdir_of (table : list (string * node)) (p : string)
    : settled (list string) :=
  match resolve table p with
  | Some (DirNode l) => Resolved l
  | Some FileNode => Rejected (JsError ("Error: ENOTDIR: not a directory, " ++ p)%string)
  | None => Rejected (ENOENT p)
  end.

Definition access_of (table : list (string * node)) (p : string) : settled unit :=
  match resolve table p with
  | Some _ => Resolved tt
  | None => Rejected (ENOENT p)
  end.

Definition has_extension (exts : list string) (p : string) : bool :=
  existsb (String.eqb (toLowerCase (Path.extname p))) exts.

Definition photo_exts : list string := [".jpg"; ".jpeg"; ".png"; ".gif"].
Definition video_exts : list string := [".mp4"; ".webm"; ".ogv"].
Definition meta_exts : list string := [".gpx"; ".md"; ".pg2conf"].

(** Metadata is the path it was read from; files in [broken] make the
    loader throw. *)
Definition load_of (broken : list string) (p : string) : settled string :=
  if existsb (String.eqb p) broken
  then Rejected (JsError ("Error: cannot read metadata of " ++ p)%string)
  else Resolved p.

Definition world (table : list (string * node)) (folders markers broken : list string)
    : World string :=
  {| ImageFolder := "/lib";
     excludeFolderList := folders;
     excludeFileList := markers;
     Video_enabled := true;
     MetaFile_gpx := true;
     MetaFile_markdown := true;
     MetaFile_pg2conf := true;
     fsp_stat := stat_of table;
     fsp_readdir := readdir_of table;
     fsp_access := access_of table;
     Date_now := 1700000000000;
     PhotoProcessing_isPhoto := has_extension photo_exts;
     VideoProcessing_isVideo := has_extension video_exts;
     GPXProcessing_isMetaFile := has_extension meta_exts;
     loadPhotoMetadata := load_of broken;
     loadVideoMetadata := load_of broken;
     MediaDTOUtils_isVideo := fun m => has_extension video_exts (m_name m) |}.

(** [/lib/a/b/p.jpg]: one photo, two levels below the root. *)
Definition deep_table : list (string * node) :=
  [("/lib", DirNode ["a"]);
   ("/lib/a", DirNode ["b"]);
   ("/lib/a/b", DirNode ["p.jpg"]);
   ("/lib/a/b/p.jpg", FileNode)].

(** [/lib/a/p.jpg]: one photo, one level below the root. *)
Definition shallow_table : list (string * node) :=
  [("/lib", DirNode ["a"]);
   ("/lib/a", DirNode ["p.jpg"]);
   ("/lib/a/p.jpg", FileNode)].

(** A directory with a video in front of a photo. *)
Definition mixed_table : list (string * node) :=
  [("/lib", DirNode ["v.mp4"; "p.jpg"]);
   ("/lib/v.mp4", FileNode);
   ("/lib/p.jpg", FileNode)].

(** Three loadable videos and one whose metadata cannot be read. *)
Definition videos_table : list (string * node) :=
  [("/lib", DirNode ["a.mp4"; "bad.mp4"; "b.mp4"; "c.mp4"]);
   ("/lib/a.mp4", FileNode);
   ("/lib/bad.mp4", FileNode);
   ("/lib/b.mp4", FileNode);
   ("/lib/c.mp4", FileNode)].

(** A skipped subdirectory [bare] holding a photo, next to a photo. *)
Definition excluded_table : list (string * node) :=
  [("/lib", DirNode ["bare"; "p.jpg"]);
   ("/lib/bare", DirNode ["q.jpg"]);
   ("/lib/bare/q.jpg", FileNode);
   ("/lib/p.jpg", FileNode)].

(** What a computation returned, [dflt] when it did not return. *)
Definition returned {A : Type} (dflt : A) (m : M A) : A :=
  match result m with
  | Returned a => a
  | _ => dflt
  end.

Definition no_snapshot : DirectoryDTO string :=
  mkDirectory None None "" "" 0 0 [] false 0 0 0 None false [] [].

(** Settings that leave nothing to scan. *)
Definition nothing_settings : DirectoryScanSettings :=
  mkSettings None (Some true) (Some true) (Some true) None None None.

(** The scan of the library root of [shallow_table]. *)
Definition shallow_scan : M (DirectoryDTO string) :=
  Eval vm_compute in
    scanDirectory (world shallow_table [] [] []) 2 "" emptySettings.

Definition shallow_snapshot : DirectoryDTO string :=
  Eval vm_compute in returned no_snapshot shallow_scan.

(** The scan of the library root of [deep_table]. *)
Definition deep_scan : M (DirectoryDTO string) :=
  Eval vm_compute in
    scanDirectory (world deep_table [] [] []) 3 "" emptySettings.

Definition deep_snapshot : DirectoryDTO string :=
  Eval vm_compute in returned no_snapshot deep_scan.

(** The metadata-free scan of the library root of [shallow_table], with a
    settings object of the caller. *)
Definition shallow_bare_scan : M (DirectoryDTO string) :=
  Eval vm_compute in
    snd (scanDirectoryNoMetadata (world shallow_table [] [] []) 2
           {[ 1%positive := emptySettings ]} "" (Some 1%positive)).

Definition shallow_bare_snapshot : DirectoryDTO string :=
  Eval vm_compute in returned no_snapshot shallow_bare_scan.



(** The scan of the library root of [excluded_table] under the rule
    [bare]. *)
Definition excluded_scan : M (DirectoryDTO string) :=
  Eval vm_compute in
    scanDirectory (world excluded_table ["bare"] [] []) 2 "" emptySettings.

Definition excluded_snapshot : DirectoryDTO string :=
  Eval vm_compute in returned no_snapshot excluded_scan.

(** Two videos around a photo whose metadata cannot be read. *)
Definition broken_photo_table : list (string * node) :=
  [("/lib", DirNode ["a.mp4"; "bad.jpg"; "b.mp4"]);
   ("/lib/a.mp4", FileNode);
   ("/lib/bad.jpg", FileNode);
   ("/lib/b.mp4", FileNode)].

(** An album: a subdirectory, a photo, a video, a track and a file of no
    known format. *)
Definition album_table : list (string * node) :=
  [("/lib", DirNode ["sub"; "p.jpg"; "v.mp4"; "track.gpx"; "notes.txt"]);
   ("/lib/sub", DirNode ["q.jpg"; "r.jpg"]);
   ("/lib/sub/q.jpg", FileNode);
   ("/lib/sub/r.jpg", FileNode);
   ("/lib/p.jpg", FileNode);
   ("/lib/v.mp4", FileNode);
   ("/lib/track.gpx", FileNode);
   ("/lib/notes.txt", FileNode)].

(** The scan of the library root of [album_table]. *)
Definition album_scan : M (DirectoryDTO string) :=
  Eval vm_compute in
    scanDirectory (world album_table [] [] []) 2 "" emptySettings.

Definition album_snapshot : DirectoryDTO string :=
  Eval vm_compute in returned no_snapshot album_scan.

(** The cover probe of the subdirectory of [album_table]. *)
Definition probe_scan : M (DirectoryDTO string) :=
  Eval vm_compute in
    scanDirectory (world album_table [] [] []) 1 "sub" coverOnlySettings.

Definition probe_snapshot : DirectoryDTO string :=
  Eval vm_compute in returned no_snapshot probe_scan.

(** Settings with [noVideo] as their only switch. *)
Definition noVideo_settings : DirectoryScanSettings :=
  mkSettings None None (Some true) None None None None.

(** A photo in front of a photo whose metadata cannot be read. *)
Definition second_photo_table : list (string * node) :=
  [("/lib", DirNode ["p.jpg"; "bad.jpg"]);
   ("/lib/p.jpg", FileNode);
   ("/lib/bad.jpg", FileNode)].

End Fixture.

(** ** The segment view of a path, used to reason about [Path.normalize] *)

Module Segments.
Import Path.

Definition noslash (s : chars) : Prop :=
  forallb (fun c => negb (isPathSeparator c)) s = true.

(** The segments between separators, empty ones included. *)
Fixpoint split (l : chars) : list chars :=
  match l with
  | [] => [[]]
  | c :: l' =>
      if isPathSeparator c then [] :: split l'
      else match split l' with
           | s :: ss => (c :: s) :: ss
           | [] => [[c]]
           end
  end.

(** [cur] glued in front of the first segment. *)
Definition prepend (cur : chars) (ss : list chars) : list chars :=
  match ss with
  | s :: ss' => (cur ++ s) :: ss'
  | [] => [cur]
  end.

(** Segments glued with separators. *)
Fixpoint intercalate (stk : list chars) : chars :=
  match stk with
  | [] => []
  | s :: rest =>
      match rest with
      | [] => s
      | _ :: _ => s ++ slash :: intercalate rest
      end
  end.

Definition is_dot_seg (s : chars) : bool :=
  match s with [c] => Ascii.eqb c dot | _ => false end.

Definition is_dotdot_seg (s : chars) : bool :=
  match s with [c; d] => Ascii.eqb c dot && Ascii.eqb d dot | _ => false end.

(** The effect of one segment on the stack of kept segments (top first). *)
Definition push (allowAboveRoot : bool) (rstk : list chars) (seg : chars)
    : list chars :=
  match seg with
  | [] => rstk
  | _ :: _ =>
      if is_dot_seg seg then rstk
      else if is_dotdot_seg seg then
        match rstk with
        | t :: below =>
            if is_dotdot_seg t
            then (if allowAboveRoot then seg :: rstk else rstk)
            else below
        | [] => if allowAboveRoot then [seg] else []
        end
      else seg :: rstk
  end.

Definition norm_stack (allowAboveRoot : bool) (p : chars) : list chars :=
  fold_left (push allowAboveRoot) (split p) [].

(** The dot counter of [normalizeString] after reading a segment. *)
Definition dots_step (d : Z) (c : ascii) : Z :=
  if Ascii.eqb c dot && negb (d =? -1)%Z then (d + 1)%Z else (-1)%Z.

Definition dots_of (seg : chars) : Z := fold_left dots_step seg 0%Z.

Definition ordinary (s : chars) : Prop :=
  s <> [] /\ noslash s /\ is_dot_seg s = false /\ is_dotdot_seg s = false.

(** Stacks (top first) that normalization produces: ordinary segments above
    a run of [..], the run only when climbing above the root is allowed. *)
Inductive normal (allowAboveRoot : bool) : list chars -> Prop :=
  | normal_nil : normal allowAboveRoot []
  | normal_ord s r :
      ordinary s -> normal allowAboveRoot r -> normal allowAboveRoot (s :: r)
  | normal_up r :
      allowAboveRoot = true -> Forall (eq [dot; dot]) r ->
      normal allowAboveRoot ([dot; dot] :: r).

(** What [normalize] returns for the flags and the stack of a path. *)
Definition render (isAbsolute trailingSeparator : bool) (rstk : list chars)
    : chars :=
  match rstk with
  | [] => if isAbsolute then [slash]
          else if trailingSeparator then [dot; slash] else [dot]
  | _ :: _ =>
      (if isAbsolute then [slash] else [])
      ++ intercalate (rev rstk)
      ++ (if trailingSeparator then [slash] else [])
  end.

(** The link between the loop state of [normalizeString] and the stack. *)
Definition represents (st : nstate) (rstk : list chars) : Prop :=
  ns_res st = intercalate (rev rstk)
  /\ ns_lastSegmentLength st = List.length (hd [] rstk)
  /\ ns_dots st = dots_of (ns_segment st)
  /\ noslash (ns_segment st)
  /\ Forall (fun s => s <> [] /\ noslash s) rstk.

End Segments.

(** ** Vocabulary of the statements about the scanner *)

Section Vocabulary.

Context {Metadata : Type} (W : World Metadata).

(** The absolute name of the directory a scan is asked for. *)
Definition absolute_of (relativeDirectoryName : string) : string :=
  Path.join [ImageFolder W; normalizeDirPath relativeDirectoryName].

(** [fullFilePath] of an entry. *)
Definition full_path (absoluteDirectoryName file : string) : string :=
  Path.normalize (Path.join [absoluteDirectoryName; file]).

(** The snapshot [scanDirectory] starts from. *)
Definition initial_snapshot (relativeDirectoryName : string) (stat : Stats)
    : DirectoryDTO Metadata :=
  mkDirectory None None
    (dirName (normalizeDirPath relativeDirectoryName))
    (pathFromRelativeDirName (normalizeDirPath relativeDirectoryName))
    (calcLastModified stat) (Date_now W) [] false 0 0 0 None false [] [].

(** The test in front of the listing: nothing to scan. *)
Definition nothing_to_scan (settings : DirectoryScanSettings) : bool :=
  is_strictly_true (noPhoto settings)
  && is_strictly_true (noMetaFile settings)
  && is_strictly_true (noVideo settings).

(** The snapshot after [if (!directory.cover) { ... }] for [photo]. *)
Definition with_cover (d : DirectoryDTO Metadata) (photo : MediaDTO Metadata)
    : DirectoryDTO Metadata :=
  match cover d with
  | None =>
      set_cover d
        (Some (set_media_directory (Utils_clone photo)
                 (Some (mkDirectoryPath (path d) (name d)))))
  | Some _ => d
  end.

(** The metadata field an entry gets when its loader settles as [load]. *)
Definition loaded_metadata (settings : DirectoryScanSettings)
    (load : settled Metadata) (md : option Metadata) : Prop :=
  if is_strictly_true (noMetadata settings) then md = None
  else exists x, load = Resolved x /\ md = Some x.

(** The ways one iteration of the loop can end normally: how it leaves the
    loop and the snapshot it leaves. *)
Inductive entry_effect
    (self : string -> DirectoryScanSettings -> M (DirectoryDTO Metadata))
    (settings : DirectoryScanSettings) (rel abs file : string)
    (d : DirectoryDTO Metadata) : loop_exit -> DirectoryDTO Metadata -> Prop :=
  | effect_none :
      entry_effect self settings rel abs file d Continue d
  | effect_directory_skipped :
      entry_effect self settings rel abs file d Continue (incr_directoryCount d)
  | effect_directory_probed t c :
      is_strictly_true (coverOnly settings) = false ->
      self (Path.join [rel; file]) coverOnlySettings = (t, Returned c) ->
      entry_effect self settings rel abs file d Continue
        (push_directory (incr_directoryCount d) (mark_partial c))
  | effect_photo md :
      PhotoProcessing_isPhoto W (full_path abs file) = true ->
      loaded_metadata settings (loadPhotoMetadata W (full_path abs file)) md ->
      entry_effect self settings rel abs file d
        (if is_strictly_true (coverOnly settings) then Break else Continue)
        (push_media (with_cover d (mkMedia file None md)) (mkMedia file None md))
  | effect_video md :
      PhotoProcessing_isPhoto W (full_path abs file) = false ->
      is_strictly_true (coverOnly settings) = false ->
      loaded_metadata settings (loadVideoMetadata W (full_path abs file)) md ->
      entry_effect self settings rel abs file d Continue
        (push_media d (mkMedia file None md))
  | effect_metaFile :
      is_strictly_true (coverOnly settings) = false ->
      entry_effect self settings rel abs file d Continue
        (push_metaFile d (mkFile file None)).

(** A child snapshot that was not fully scanned. *)
Definition partial_snapshot (c : DirectoryDTO Metadata) : Prop :=
  isPartial c = true /\ lastScanned c = 0%Z.

(** The cover of a snapshot, when there is one, is an entry of its own media
    list, with the back-reference to the snapshot. *)
Definition own_cover (d : DirectoryDTO Metadata) : Prop :=
  match cover d with
  | None => True
  | Some c =>
      exists m, In m (media d)
                /\ c = set_media_directory (Utils_clone m)
                         (Some (mkDirectoryPath (path d) (name d)))
  end.

(** An entry of a media list that the format registry takes for a photo. *)
Definition is_photo_entry (abs : string) (m : MediaDTO Metadata) : bool :=
  PhotoProcessing_isPhoto W (full_path abs (m_name m)).

(** The cover of a snapshot of the directory [abs], when there is one, is a
    photo of its own media list, with the back-reference to the snapshot. *)
Definition photo_cover (abs : string) (d : DirectoryDTO Metadata) : Prop :=
  match cover d with
  | None => True
  | Some c =>
      exists m, In m (media d)
                /\ is_photo_entry abs m = true
                /\ c = set_media_directory (Utils_clone m)
                         (Some (mkDirectoryPath (path d) (name d)))
  end.

(** A name rule of [excludeFolderList] matches a directory: an absolute
    rule is compared with the absolute name, a rule with a separator
    inside is normalized and compared with the name relative to the
    library root, a bare rule is compared with the leaf name. *)
Definition rule_matches (name relativeName absoluteName rule : string) : Prop :=
  if startsWith rule "/" then rule = absoluteName
  else if includes rule "/" then Path.normalize rule = relativeName
  else rule = name.

(** A marker file of [excludeFileList] is found in the directory. *)
Definition marker_found (absoluteName marker : string) : Prop :=
  exists u, fsp_access W (Path.join [absoluteName; marker]) = Resolved u.

(** An entry of a listing that is a file the registry takes for a video. *)
Definition video_file (abs file : string) : Prop :=
  (exists st, fsp_stat W (full_path abs file) = Resolved st
              /\ isDirectory st = false)
  /\ PhotoProcessing_isPhoto W (full_path abs file) = false
  /\ VideoProcessing_isVideo W (full_path abs file) = true.

(** An entry of a listing that is a file the registry takes for a photo. *)
Definition photo_file (abs file : string) : Prop :=
  (exists st, fsp_stat W (full_path abs file) = Resolved st
              /\ isDirectory st = false)
  /\ PhotoProcessing_isPhoto W (full_path abs file) = true.

(** An entry of a listing that is a directory. *)
Definition directory_entry (abs file : string) : Prop :=
  exists st, fsp_stat W (full_path abs file) = Resolved st
             /\ isDirectory st = true.

(** The videos of a listing whose metadata loads, as media entries, in
    listing order. *)
Fixpoint loaded_videos (abs : string) (files : list string)
    : list (MediaDTO Metadata) :=
  match files with
  | [] => []
  | file :: rest =>
      match loadVideoMetadata W (full_path abs file) with
      | Resolved md => mkMedia file None (Some md) :: loaded_videos abs rest
      | Rejected _ => loaded_videos abs rest
      end
  end.

(** The warning logged for a video that is skipped. *)
Definition skip_warning (file : string) (e : exn) : event :=
  EvWarn ("Media loading error, skipping: " ++ file ++ ", reason: "
          ++ exn_toString e)%string.

End Vocabulary.

(** ** Vocabulary of the further statements about the scanner *)

Section Listing.

Context {Metadata : Type} (W : World Metadata).

(** The entry of a listing is a directory, as its [stat] tells. *)
Definition is_directory_entry (abs file : string) : bool :=
  match fsp_stat W (full_path abs file) with
  | Resolved st => isDirectory st
  | Rejected _ => false
  end.

(** The exclusion filter rejects the entry of a listing. *)
Definition is_excluded (rel abs file : string) : bool :=
  match result (excludeDir W file rel abs) with
  | Returned b => b
  | _ => false
  end.

(** The header of a snapshot: the fields that the loop of [scanDirectory]
    never assigns. *)
Definition same_header (d d' : DirectoryDTO Metadata) : Prop :=
  id d' = id d /\ parent d' = parent d /\ name d' = name d /\ path d' = path d
  /\ lastModified d' = lastModified d /\ lastScanned d' = lastScanned d
  /\ isPartial d' = isPartial d /\ validCover d' = validCover d.

(** The counts of a snapshot agree with its media list. *)
Definition counts_agree (d : DirectoryDTO Metadata) : Prop :=
  mediaCount d = List.length (media d)
  /\ videoCount d
     = List.length (List.filter (MediaDTOUtils_isVideo W) (media d))
  /\ videoCount d <= mediaCount d.

(** An entry of a media list that the format registry takes for a video and
    not for a photo. *)
Definition is_video_entry (abs : string) (m : MediaDTO Metadata) : bool :=
  negb (PhotoProcessing_isPhoto W (full_path abs (m_name m)))
  && VideoProcessing_isVideo W (full_path abs (m_name m)).

(** A sidecar of a snapshot that the scanner was entitled to list. *)
Definition is_enabled_sidecar (abs : string) (f : FileDTO) : bool :=
  negb (PhotoProcessing_isPhoto W (full_path abs (f_name f)))
  && negb (VideoProcessing_isVideo W (full_path abs (f_name f)))
  && GPXProcessing_isMetaFile W (full_path abs (f_name f))
  && isEnabledMetaFile W (full_path abs (f_name f)).

(** An event that calls a metadata loader. *)
Definition is_load_event (ev : event) : bool :=
  match ev with
  | EvLoadPhotoMetadata _ | EvLoadVideoMetadata _ => true
  | _ => false
  end.

(** An event a cover probe may perform: a [stat], a listing or the load of a
    photo's metadata. *)
Definition is_probe_event (ev : event) : bool :=
  match ev with
  | EvStat _ | EvReaddir _ | EvLoadPhotoMetadata _ => true
  | _ => false
  end.

(** An event that asks for a marker file ([fsp.access]). *)
Definition is_access_event (ev : event) : bool :=
  match ev with
  | EvAccess _ => true
  | _ => false
  end.

(** An event of the video branch: the load of a video's metadata or the
    warning about a video that is skipped. *)
Definition is_video_event (ev : event) : bool :=
  match ev with
  | EvLoadVideoMetadata _ | EvWarn _ => true
  | _ => false
  end.

(** The entry of a listing makes the scan of its directory fail: its [stat]
    is rejected, it is a photo whose metadata is asked for and cannot be
    loaded, or it is a subdirectory whose cover probe throws. *)
Definition entry_fails (s : DirectoryScanSettings) (rel abs file : string)
    : Prop :=
  (exists e, fsp_stat W (full_path abs file) = Rejected e)
  \/ (is_directory_entry abs file = false
      /\ PhotoProcessing_isPhoto W (full_path abs file) = true
      /\ is_strictly_true (noPhoto s) = false
      /\ is_strictly_true (noMetadata s) = false
      /\ exists e, loadPhotoMetadata W (full_path abs file) = Rejected e)
  \/ (is_directory_entry abs file = true
      /\ is_strictly_true (noDirectory s) = false
      /\ is_excluded rel abs file = false
      /\ exists t e,
           scanDirectory W 1 (Path.join [rel; file]) coverOnlySettings
           = (t, Thrown e)).

(** An entry of the listing of the directory [abs]. *)
Definition listed (abs file : string) : Prop :=
  exists files, fsp_readdir W abs = Resolved files /\ In file files.

(** A call that stays in the directory [rel]: the [stat] or the listing of
    the directory itself, the [stat] of an entry of its listing, or the
    load of the metadata of a photo among its entries. *)
Definition own_call (rel : string) (ev : event) : Prop :=
  let abs := absolute_of W rel in
  match ev with
  | EvStat p =>
      p = abs \/ exists file, listed abs file /\ p = full_path abs file
  | EvReaddir p => p = abs
  | EvLoadPhotoMetadata p =>
      exists file, listed abs file /\ p = full_path abs file
                   /\ PhotoProcessing_isPhoto W p = true
  | _ => False
  end.

End Listing.

(** What [normalizeDirPath] hands to the outer [path.normalize] for the
    characters of its argument: [path.join] of [./] and the argument. *)
Definition behind_dot (cp : Path.chars) : Path.chars :=
  match cp with
  | [] => [Path.dot; Path.slash]
  | _ :: _ => Path.dot :: Path.slash :: Path.slash :: cp
  end.

(** The characters in front of the last segment of a rendered stack. *)
Definition seg_prefix (below : list Path.chars) : Path.chars :=
  match below with
  | [] => []
  | _ :: _ => Segments.intercalate (rev below) ++ [Path.slash]
  end.

(** The separator that a rendered path ends with, if it does. *)
Definition trailing (trail : bool) : Path.chars :=
  if trail then [Path.slash] else [].

(** The name of an entry of a listing, as [readdir] gives them: one
    segment, neither [.] nor [..], and not blank. *)
Definition is_entry_name (file : string) : bool :=
  let cs := list_ascii_of_string file in
  negb (trim_is_empty file)
  && forallb (fun c => negb (Path.isPathSeparator c)) cs
  && negb (Segments.is_dot_seg cs)
  && negb (Segments.is_dotdot_seg cs).

(** ** Loops of the scanner on the test doubles *)

Module FixtureLoops.

(** The loop of the scan of the library root of [Fixture.album_table] over its
    listing without the video, when the metadata of the video cannot be
    read. *)
Definition album_without_video : DirectoryDTO string :=
  Eval vm_compute in
    let W := Fixture.world Fixture.album_table [] [] ["/lib/v.mp4"] in
    Fixture.returned Fixture.no_snapshot
      (scanEntries W (scanDirectory W 1) emptySettings (normalizeDirPath "")
         (absolute_of W "") ["sub"; "p.jpg"; "track.gpx"; "notes.txt"]
         (initial_snapshot W "" (mkStats true 30 25))).

(** The loop of the scan of the library root of [Fixture.second_photo_table] over
    the entry in front of the unreadable photo. *)
Definition first_photo_scanned : DirectoryDTO string :=
  Eval vm_compute in
    let W := Fixture.world Fixture.second_photo_table [] [] ["/lib/bad.jpg"] in
    Fixture.returned Fixture.no_snapshot
      (scanEntries W (scanDirectory W 1) emptySettings (normalizeDirPath "")
         (absolute_of W "") ["p.jpg"]
         (initial_snapshot W "" (mkStats true 30 25))).

End FixtureLoops.

(** * Facts about the path routines *)

Module PathFacts.
Import Path Segments.

Lemma isPathSeparator_true (c : ascii) : isPathSeparator c = true <-> c = slash.
Proof. unfold isPathSeparator. apply Ascii.eqb_eq. Qed.

Lemma noslash_nil : noslash [].
Proof. reflexivity. Qed.

Lemma noslash_cons (c : ascii) (s : chars) :
  noslash (c :: s) <-> isPathSeparator c = false /\ noslash s.
Proof.
  unfold noslash. simpl. rewrite andb_true_iff, negb_true_iff. tauto.
Qed.

Lemma noslash_app (a b : chars) : noslash (a ++ b) <-> noslash a /\ noslash b.
Proof.
  unfold noslash. rewrite forallb_app, andb_true_iff. tauto.
Qed.

Lemma split_nonempty (l : chars) : split l <> [].
Proof.
  destruct l as [|c l]; simpl; [discriminate|].
  destruct (isPathSeparator c); [discriminate|].
  destruct (split l); discriminate.
Qed.

Lemma split_noslash (s : chars) : noslash s -> split s = [s].
Proof.
  induction s as [|c s IH]; intros H; [reflexivity|].
  apply noslash_cons in H as [Hc Hs]. simpl. rewrite Hc, (IH Hs). reflexivity.
Qed.

Lemma split_app_slash (a b : chars) :
  split (a ++ slash :: b) = split a ++ split b.
Proof.
  induction a as [|c a IH]; simpl; [reflexivity|].
  destruct (isPathSeparator c); rewrite IH; [reflexivity|].
  pose proof (split_nonempty a) as Hne.
  destruct (split a); [congruence|reflexivity].
Qed.

Lemma split_snoc_slash (a : chars) : split (a ++ [slash]) = split a ++ [[]].
Proof. apply split_app_slash. Qed.

Lemma prepend_nil (ss : list chars) : ss <> [] -> prepend [] ss = ss.
Proof. destruct ss; [congruence|reflexivity]. Qed.

Lemma intercalate_snoc (stk : list chars) (s : chars) :
  stk <> [] -> intercalate (stk ++ [s]) = intercalate stk ++ slash :: s.
Proof.
  induction stk as [|t stk IH]; intros Hne; [congruence|].
  destruct stk as [|u stk]; [reflexivity|].
  change (intercalate ((t :: u :: stk) ++ [s]))
    with (t ++ slash :: intercalate ((u :: stk) ++ [s])).
  rewrite IH by discriminate.
  change (intercalate (t :: u :: stk)) with (t ++ slash :: intercalate (u :: stk)).
  rewrite <- app_assoc. reflexivity.
Qed.

Lemma intercalate_nonempty (stk : list chars) :
  stk <> [] -> Forall (fun s => s <> [] /\ noslash s) stk ->
  intercalate stk <> [].
Proof.
  destruct stk as [|t stk]; intros Hne HF; [congruence|].
  inversion HF as [|? ? [Ht _] _]; subst.
  destruct stk; simpl; [assumption|].
  destruct t; [congruence|discriminate].
Qed.

Lemma split_intercalate (stk : list chars) :
  stk <> [] -> Forall (fun s => s <> [] /\ noslash s) stk ->
  split (intercalate stk) = stk.
Proof.
  induction stk as [|t stk IH]; intros Hne HF; [congruence|].
  inversion HF as [|? ? [_ Ht] HF']; subst.
  destruct stk as [|u stk]; [apply split_noslash, Ht|].
  change (intercalate (t :: u :: stk)) with (t ++ slash :: intercalate (u :: stk)).
  rewrite split_app_slash, (split_noslash t Ht), IH by (assumption || discriminate).
  reflexivity.
Qed.

Lemma lastIndexOf_from_app (i : nat) (a b : chars) (f : option nat) :
  lastIndexOf_from i (a ++ b) f
  = lastIndexOf_from (i + List.length a) b (lastIndexOf_from i a f).
Proof.
  revert i f. induction a as [|c a IH]; intros i f; simpl.
  - rewrite Nat.add_0_r. reflexivity.
  - rewrite IH. f_equal. lia.
Qed.

Lemma lastIndexOf_from_noslash (i : nat) (s : chars) (f : option nat) :
  noslash s -> lastIndexOf_from i s f = f.
Proof.
  revert i f. induction s as [|c s IH]; intros i f H; [reflexivity|].
  apply noslash_cons in H as [Hc Hs]. simpl. rewrite Hc. apply IH, Hs.
Qed.

Lemma lastIndexOf_noslash (s : chars) : noslash s -> lastIndexOf s = None.
Proof. apply lastIndexOf_from_noslash. Qed.

Lemma lastIndexOf_app_slash (a s : chars) :
  noslash s -> lastIndexOf (a ++ slash :: s) = Some (List.length a).
Proof.
  intros Hs. unfold lastIndexOf. rewrite lastIndexOf_from_app. simpl.
  rewrite lastIndexOf_from_noslash by assumption. reflexivity.
Qed.

Lemma dots_of_snoc (seg : chars) (c : ascii) :
  dots_of (seg ++ [c]) = dots_step (dots_of seg) c.
Proof. unfold dots_of. rewrite fold_left_app. reflexivity. Qed.

Lemma dots_of_spec (seg : chars) :
  dots_of seg
  = if forallb (fun c => Ascii.eqb c dot) seg
    then Z.of_nat (List.length seg) else (-1)%Z.
Proof.
  induction seg as [|c seg IH] using rev_ind; [reflexivity|].
  rewrite dots_of_snoc, IH, forallb_app, length_app. simpl.
  unfold dots_step.
  destruct (forallb _ seg); simpl.
  - destruct (Ascii.eqb c dot); simpl; [|reflexivity].
    destruct (Z.eqb_spec (Z.of_nat (List.length seg)) (-1)); simpl; lia.
  - rewrite andb_false_r. reflexivity.
Qed.

Lemma dots_of_one (seg : chars) : (dots_of seg =? 1)%Z = is_dot_seg seg.
Proof.
  rewrite dots_of_spec.
  destruct seg as [|a [|b seg]]; simpl; [reflexivity| |].
  - destruct (Ascii.eqb a dot); reflexivity.
  - destruct (_ && _); [|reflexivity].
    apply Z.eqb_neq. lia.
Qed.

Lemma dots_of_two (seg : chars) : (dots_of seg =? 2)%Z = is_dotdot_seg seg.
Proof.
  rewrite dots_of_spec.
  destruct seg as [|a [|b [|c seg]]]; simpl; [reflexivity| | |].
  - destruct (Ascii.eqb a dot); reflexivity.
  - destruct (Ascii.eqb a dot), (Ascii.eqb b dot); reflexivity.
  - destruct (_ && _); [|reflexivity].
    apply Z.eqb_neq. lia.
Qed.

Lemma is_dotdot_seg_eq (s : chars) : is_dotdot_seg s = true <-> s = [dot; dot].
Proof.
  destruct s as [|a [|b [|c s]]]; simpl; try (split; [discriminate|congruence]).
  rewrite andb_true_iff, !Ascii.eqb_eq.
  split; [intros [-> ->]; reflexivity|intros H; injection H; auto].
Qed.

Lemma is_dot_seg_eq (s : chars) : is_dot_seg s = true <-> s = [dot].
Proof.
  destruct s as [|a [|b s]]; simpl; try (split; [discriminate|congruence]).
  rewrite Ascii.eqb_eq. split; congruence.
Qed.

Lemma intercalate_rev_cons (t : chars) (below : list chars) :
  intercalate (rev (t :: below))
  = match below with
    | [] => t
    | _ :: _ => intercalate (rev below) ++ slash :: t
    end.
Proof.
  destruct below as [|u below]; [reflexivity|].
  change (rev (t :: u :: below)) with (rev (u :: below) ++ [t]).
  apply intercalate_snoc. simpl. destruct (rev below); discriminate.
Qed.

Lemma good_rev (rstk : list chars) :
  Forall (fun s => s <> [] /\ noslash s) rstk ->
  Forall (fun s => s <> [] /\ noslash s) (rev rstk).
Proof. intros H. apply Forall_rev; assumption. Qed.

Lemma intercalate_rev_nil (rstk : list chars) :
  Forall (fun s => s <> [] /\ noslash s) rstk ->
  intercalate (rev rstk) = [] -> rstk = [].
Proof.
  intros HF H. destruct rstk as [|t below]; [reflexivity|].
  exfalso. revert H. apply intercalate_nonempty.
  - simpl. destruct (rev below); discriminate.
  - apply good_rev, HF.
Qed.

Lemma ends_with_dotdot_app (pre t : chars) :
  List.length t = 2 -> ends_with_dotdot (pre ++ t) = is_dotdot_seg t.
Proof.
  destruct t as [|a [|b [|c t]]]; try discriminate. intros _.
  unfold ends_with_dotdot. rewrite rev_app_distr. simpl. apply andb_comm.
Qed.

Lemma represents_intro (res : chars) (lsl : nat) (rstk : list chars) :
  res = intercalate (rev rstk) ->
  lsl = List.length (hd [] rstk) ->
  Forall (fun s => s <> [] /\ noslash s) rstk ->
  represents (NState res lsl [] 0) rstk.
Proof. intros H1 H2 H3. repeat split; assumption. Qed.

Lemma length_intercalate_two (t u : chars) (below : list chars) :
  Forall (fun s => s <> [] /\ noslash s) (t :: u :: below) ->
  2 < List.length (intercalate (rev (t :: u :: below))).
Proof.
  intros HF. rewrite intercalate_rev_cons, length_app.
  inversion HF as [|? ? [Ht _] HF']; subst.
  assert (intercalate (rev (u :: below)) <> []) as Hne.
  { apply intercalate_nonempty; [|apply good_rev, HF'].
    simpl. destruct (rev below); discriminate. }
  destruct (intercalate (rev (u :: below))); [congruence|].
  destruct t; [congruence|]. cbn [List.length]. lia.
Qed.

Lemma ns_separator_represents (allow : bool) (st : nstate) (rstk : list chars) :
  represents st rstk ->
  represents (ns_separator allow st) (push allow rstk (ns_segment st)).
Proof.
  intros (Hres & Hlsl & Hdots & Hns & HF).
  destruct st as [res lsl seg dots]; simpl in *. subst res lsl dots.
  unfold ns_separator, push;
    cbn [ns_res ns_lastSegmentLength ns_segment ns_dots].
  destruct seg as [|c seg'];
    [cbv beta zeta iota; apply represents_intro; auto|].
  cbv beta zeta iota.
  rewrite dots_of_one, dots_of_two.
  remember (c :: seg') as seg eqn:Eseg in *.
  assert (seg <> []) as Hsegne by (rewrite Eseg; discriminate).
  assert (forall l, Forall (fun s => s <> [] /\ noslash s) l ->
                    Forall (fun s => s <> [] /\ noslash s) (seg :: l)) as Hgood
    by (intros l Hl; constructor; [split|]; assumption).
  clear Eseg c seg'.
  destruct (is_dot_seg seg) eqn:Hd1; [apply represents_intro; auto|].
  destruct (is_dotdot_seg seg) eqn:Hd2.
  - apply is_dotdot_seg_eq in Hd2 as Hseg.
    destruct rstk as [|t below].
    + subst seg. simpl. destruct allow; apply represents_intro; simpl; auto.
    + subst seg. inversion HF as [|? ? [Htne Htns] HF']; subst.
      cbn [hd].
      destruct (is_dotdot_seg t) eqn:Ht.
      * (* the top is [..]: climb further or stay *)
        apply is_dotdot_seg_eq in Ht as Hteq. subst t.
        assert (exists pre, intercalate (rev ([dot; dot] :: below))
                            = pre ++ [dot; dot]) as [pre Hpre].
        { rewrite intercalate_rev_cons. destruct below.
          - exists []. reflexivity.
          - eexists (_ ++ [slash]). rewrite <- app_assoc. reflexivity. }
        rewrite Hpre, ends_with_dotdot_app by reflexivity.
        rewrite length_app.
        replace (List.length pre + List.length [dot; dot] <? 2) with false
          by (symmetry; apply Nat.ltb_ge; simpl; lia).
        cbn [List.length Nat.eqb negb orb is_dotdot_seg Ascii.eqb dot
             Bool.eqb andb].
        rewrite <- Hpre.
        destruct allow; apply represents_intro; auto.
        assert (intercalate (rev ([dot; dot] :: below)) <> []) as Hne.
        { rewrite Hpre. destruct pre; discriminate. }
        destruct (intercalate (rev ([dot; dot] :: below))) eqn:E; [congruence|].
        rewrite <- E.
        change (rev ([dot; dot] :: [dot; dot] :: below))
          with (rev ([dot; dot] :: below) ++ [[dot; dot]]).
        rewrite intercalate_snoc; [reflexivity|].
        simpl. destruct (rev below); discriminate.
      * (* the top is an ordinary segment: drop it *)
        assert ((List.length (intercalate (rev (t :: below))) <? 2)
                || negb (List.length t =? 2)
                || negb (ends_with_dotdot (intercalate (rev (t :: below))))
                = true) as ->.
        { destruct (Nat.eqb_spec (List.length t) 2) as [Hl|Hl];
            [|rewrite orb_true_r; reflexivity].
          rewrite !orb_true_iff. right.
          assert (exists pre, intercalate (rev (t :: below)) = pre ++ t)
            as [pre ->].
          { rewrite intercalate_rev_cons. destruct below.
            - exists []. reflexivity.
            - eexists (_ ++ [slash]). rewrite <- app_assoc. reflexivity. }
          rewrite ends_with_dotdot_app, Ht by assumption. reflexivity. }
        destruct below as [|u below'].
        -- (* a single segment: the result becomes empty *)
           simpl intercalate.
           rewrite (lastIndexOf_noslash t Htns).
           destruct (2 <? List.length t); [apply represents_intro; auto|].
           destruct t; [congruence|]. simpl.
           apply represents_intro; auto.
        -- pose proof (length_intercalate_two t u below' HF) as Hlen.
           apply Nat.ltb_lt in Hlen. rewrite Hlen.
           rewrite intercalate_rev_cons.
           rewrite lastIndexOf_app_slash by assumption.
           rewrite firstn_app, Nat.sub_diag, firstn_all. simpl firstn.
           rewrite app_nil_r.
           apply represents_intro; auto.
           inversion HF' as [|? ? [Hune Huns] HF'']; subst.
           rewrite intercalate_rev_cons. simpl hd.
           destruct below' as [|v below''].
           ++ rewrite (lastIndexOf_noslash u Huns). reflexivity.
           ++ rewrite lastIndexOf_app_slash by assumption.
              rewrite length_app. simpl. lia.
  - (* an ordinary segment is appended *)
    apply represents_intro.
    + change (rev (seg :: rstk)) with (rev rstk ++ [seg]).
      destruct rstk as [|t below]; [reflexivity|].
      assert (intercalate (rev (t :: below)) <> []) as Hne.
      { apply intercalate_nonempty; [|apply good_rev, HF].
        simpl. destruct (rev below); discriminate. }
      destruct (intercalate (rev (t :: below))) eqn:E; [congruence|].
      rewrite <- E. symmetry. apply intercalate_snoc.
      simpl. destruct (rev below); discriminate.
    + reflexivity.
    + auto.
Qed.

Lemma ns_separator_segment (allow : bool) (st : nstate) :
  ns_segment (ns_separator allow st) = [].
Proof.
  unfold ns_separator.
  repeat match goal with
         | |- context [match ?x with _ => _ end] => destruct x
         end; reflexivity.
Qed.

Lemma ns_separator_idle (allow : bool) (st : nstate) :
  ns_segment st = [] -> ns_res (ns_separator allow st) = ns_res st.
Proof. intros H. unfold ns_separator. rewrite H. reflexivity. Qed.

Lemma ns_step_represents (allow : bool) (st : nstate) (rstk : list chars)
    (c : ascii) :
  represents st rstk -> isPathSeparator c = false ->
  represents (ns_step allow st c) rstk
  /\ ns_segment (ns_step allow st c) = ns_segment st ++ [c].
Proof.
  intros (Hres & Hlsl & Hdots & Hns & HF) Hc.
  unfold ns_step. rewrite Hc.
  assert (noslash (ns_segment st ++ [c])) as Hns'.
  { apply noslash_app. split; [assumption|].
    apply noslash_cons. split; [assumption|apply noslash_nil]. }
  destruct (Ascii.eqb c dot && negb (ns_dots st =? -1)%Z) eqn:E;
    (split; [|reflexivity]); repeat split; simpl; try assumption;
    rewrite dots_of_snoc, <- Hdots; unfold dots_step; rewrite E; reflexivity.
Qed.

(** The loop of [normalizeString], read on segments. *)
Lemma ns_run_represents (allow : bool) (l : chars) :
  forall (st : nstate) (rstk : list chars),
    represents st rstk ->
    represents (ns_separator allow (fold_left (ns_step allow) l st))
      (fold_left (push allow) (prepend (ns_segment st) (split l)) rstk).
Proof.
  induction l as [|c l IH]; intros st rstk Hrep.
  - simpl. rewrite app_nil_r. apply ns_separator_represents, Hrep.
  - cbn [fold_left split].
    destruct (isPathSeparator c) eqn:Hc.
    + assert (ns_step allow st c = ns_separator allow st) as ->
        by (unfold ns_step; rewrite Hc; reflexivity).
      cbn [prepend fold_left]. rewrite app_nil_r.
      pose proof (ns_separator_represents allow st rstk Hrep) as Hrep'.
      specialize (IH _ _ Hrep').
      rewrite ns_separator_segment, prepend_nil in IH by apply split_nonempty.
      exact IH.
    + destruct (ns_step_represents allow st rstk c Hrep Hc) as [Hrep' Hseg].
      specialize (IH _ _ Hrep'). rewrite Hseg in IH.
      pose proof (split_nonempty l) as Hne.
      destruct (split l) as [|s ss]; [congruence|].
      cbn [prepend] in *. rewrite <- app_assoc in IH. exact IH.
Qed.

Lemma represents_init : represents ns_init [].
Proof. repeat split; constructor. Qed.

Lemma fold_ns_step_snoc_slash (allow : bool) (l : chars) (st : nstate) :
  ns_segment (fold_left (ns_step allow) (l ++ [slash]) st) = [].
Proof.
  rewrite fold_left_app. simpl. unfold ns_step. simpl.
  apply ns_separator_segment.
Qed.

(** [normalizeString] returns the kept segments, glued. *)
Lemma normalizeString_spec (p : chars) (allow : bool) :
  normalizeString p allow = intercalate (rev (norm_stack allow p))
  /\ Forall (fun s => s <> [] /\ noslash s) (norm_stack allow p).
Proof.
  pose proof (ns_run_represents allow p ns_init [] represents_init) as Hrep.
  cbn [ns_init ns_segment] in Hrep.
  rewrite prepend_nil in Hrep by apply split_nonempty.
  destruct Hrep as (Hres & _ & _ & _ & HF).
  split; [|exact HF].
  unfold normalizeString, norm_stack. rewrite <- Hres.
  destruct (rev p) as [|c r] eqn:Erev; [reflexivity|].
  destruct (isPathSeparator c) eqn:Hc; [|reflexivity].
  symmetry. apply ns_separator_idle.
  apply isPathSeparator_true in Hc. subst c.
  assert (p = rev r ++ [slash]) as ->
    by (rewrite <- (rev_involutive p), Erev; reflexivity).
  apply fold_ns_step_snoc_slash.
Qed.

Lemma normalize_chars_spec (p : chars) :
  p <> [] ->
  normalize_chars p
  = render (starts_with_slash p) (ends_with_slash p)
      (norm_stack (negb (starts_with_slash p)) p).
Proof.
  intros Hne. destruct p as [|c p]; [congruence|].
  unfold normalize_chars.
  destruct (normalizeString_spec (c :: p) (negb (starts_with_slash (c :: p))))
    as [-> HF].
  set (stk := norm_stack _ _) in *.
  unfold render.
  destruct stk as [|t below] eqn:Estk; [reflexivity|].
  assert (intercalate (rev (t :: below)) <> []) as Hr.
  { intros H. apply intercalate_rev_nil in H; [discriminate|assumption]. }
  destruct (intercalate (rev (t :: below))) as [|a r]; [congruence|].
  destruct (starts_with_slash (c :: p)), (ends_with_slash (c :: p));
    simpl; rewrite ?app_nil_r; reflexivity.
Qed.

Lemma split_segments_noslash (l : chars) : Forall noslash (split l).
Proof.
  induction l as [|c l IH]; simpl.
  - constructor; [apply noslash_nil|constructor].
  - destruct (isPathSeparator c) eqn:Hc.
    + constructor; [apply noslash_nil|assumption].
    + destruct (split l) as [|s ss]; inversion IH; subst;
        constructor; try assumption; try constructor;
        apply noslash_cons; split; assumption || apply noslash_nil.
Qed.

Lemma normal_dotdots (allow : bool) (r : list chars) :
  allow = true -> Forall (eq [dot; dot]) r -> normal allow r.
Proof.
  intros Ha H. destruct H as [|x r Hx Hr]; [constructor|].
  subst x. apply normal_up; assumption.
Qed.

Lemma normal_tail (allow : bool) (s : chars) (r : list chars) :
  normal allow (s :: r) -> normal allow r.
Proof.
  intros H. inversion H; subst; [assumption|].
  apply normal_dotdots; [reflexivity|assumption].
Qed.

Lemma push_normal (allow : bool) (rstk : list chars) (seg : chars) :
  normal allow rstk -> noslash seg -> normal allow (push allow rstk seg).
Proof.
  intros Hn Hs. unfold push.
  destruct seg as [|c seg']; [assumption|].
  remember (c :: seg') as seg eqn:Eseg.
  assert (seg <> []) as Hne by (rewrite Eseg; discriminate). clear Eseg.
  destruct (is_dot_seg seg) eqn:Hd1; [assumption|].
  destruct (is_dotdot_seg seg) eqn:Hd2.
  - apply is_dotdot_seg_eq in Hd2. subst seg.
    destruct rstk as [|t below].
    + destruct allow eqn:Ea; [|constructor].
      apply normal_up; [reflexivity|constructor].
    + destruct (is_dotdot_seg t) eqn:Ht.
      * destruct allow eqn:Ea; [|assumption].
        apply is_dotdot_seg_eq in Ht. subst t.
        apply normal_up; [reflexivity|].
        constructor; [reflexivity|].
        inversion Hn as [|? ? Hord _|? _ HF]; subst; [|assumption].
        destruct Hord as (_ & _ & _ & Hord). discriminate.
      * apply normal_tail in Hn. assumption.
  - apply normal_ord; [|assumption]. repeat split; assumption.
Qed.

Lemma fold_push_normal (allow : bool) (ss : list chars) :
  forall rstk, Forall noslash ss -> normal allow rstk ->
               normal allow (fold_left (push allow) ss rstk).
Proof.
  induction ss as [|s ss IH]; intros rstk HF Hn; [assumption|].
  inversion HF; subst. simpl. apply IH; [assumption|].
  apply push_normal; assumption.
Qed.

Lemma norm_stack_normal (allow : bool) (p : chars) :
  normal allow (norm_stack allow p).
Proof.
  apply fold_push_normal; [apply split_segments_noslash|constructor].
Qed.

Lemma normal_good (allow : bool) (r : list chars) :
  normal allow r -> Forall (fun s => s <> [] /\ noslash s) r.
Proof.
  induction 1 as [|s r (Hne & Hns & _) _ IH|r _ HF].
  - constructor.
  - constructor; [split|]; assumption.
  - constructor; [split; [discriminate|reflexivity]|].
    induction HF as [|x r <- _ IH]; constructor;
      [split; [discriminate|reflexivity]|assumption].
Qed.

(** Feeding a normal stack back, bottom first, rebuilds it. *)
Lemma refold_normal (allow : bool) (r : list chars) :
  normal allow r -> fold_left (push allow) (rev r) [] = r.
Proof.
  induction r as [|s r IH]; intros Hn; [reflexivity|].
  simpl. rewrite fold_left_app. simpl.
  rewrite IH by (eapply normal_tail; eassumption).
  inversion Hn as [|? ? (Hne & Hns & Hd1 & Hd2) _|? Ha HF]; subst.
  - unfold push. destruct s; [congruence|]. rewrite Hd1, Hd2. reflexivity.
  - unfold push. simpl.
    destruct HF as [|x r <- _]; [reflexivity|]. reflexivity.
Qed.

Lemma fold_push_skipped (allow : bool) (sk : list chars) (acc : list chars) :
  Forall (fun s => s = [] \/ s = [dot]) sk ->
  fold_left (push allow) sk acc = acc.
Proof.
  induction 1 as [|s sk [-> | ->] _ IH]; simpl; auto.
Qed.

Lemma intercalate_rev_last (t : chars) (below : list chars) :
  exists pre, intercalate (rev (t :: below)) = pre ++ t.
Proof.
  rewrite intercalate_rev_cons. destruct below.
  - exists []. reflexivity.
  - eexists (_ ++ [slash]). rewrite <- app_assoc. reflexivity.
Qed.

Lemma intercalate_head (stk : list chars) :
  stk <> [] -> Forall (fun s => s <> [] /\ noslash s) stk ->
  exists c rest, intercalate stk = c :: rest /\ isPathSeparator c = false.
Proof.
  intros Hne HF. destruct stk as [|t stk]; [congruence|].
  inversion HF as [|? ? [Ht Hns] _]; subst.
  destruct t as [|c t]; [congruence|].
  apply noslash_cons in Hns as [Hc _].
  destruct stk; simpl; eauto.
Qed.

Lemma ends_with_slash_snoc (l : chars) (c : ascii) :
  ends_with_slash (l ++ [c]) = isPathSeparator c.
Proof. unfold ends_with_slash. rewrite rev_app_distr. reflexivity. Qed.

(** Normalizing a path written from a normal stack, behind a prefix that
    only holds skipped segments, gives the rendering of that stack. *)
Lemma normalize_built (pre : chars) (abs trail : bool) (sk stk : list chars) :
  stk <> [] -> normal (negb abs) stk ->
  (forall y, split (pre ++ y) = sk ++ split y) ->
  Forall (fun s => s = [] \/ s = [dot]) sk ->
  (forall c y, isPathSeparator c = false ->
               starts_with_slash (pre ++ c :: y) = abs) ->
  normalize_chars
    (pre ++ intercalate (rev stk) ++ (if trail then [slash] else []))
  = render abs trail stk.
Proof.
  intros Hne Hn Hsplit Hsk Hstart.
  pose proof (normal_good _ _ Hn) as HF.
  assert (rev stk <> []) as Hrne.
  { intros H. apply Hne. rewrite <- (rev_involutive stk), H. reflexivity. }
  destruct (intercalate_head (rev stk) Hrne (good_rev _ HF))
    as (c & rest & Hr & Hc).
  set (q := pre ++ intercalate (rev stk) ++ (if trail then [slash] else [])).
  assert (q <> []) as Hq.
  { unfold q. rewrite Hr. destruct pre; discriminate. }
  assert (starts_with_slash q = abs) as Hs.
  { unfold q. rewrite Hr. apply Hstart, Hc. }
  assert (ends_with_slash q = trail) as He.
  { unfold q. destruct trail.
    - rewrite !app_assoc. apply ends_with_slash_snoc.
    - rewrite app_nil_r. destruct stk as [|t below]; [congruence|].
      destruct (intercalate_rev_last t below) as [x ->].
      inversion HF as [|? ? [Ht Hns] _]; subst.
      destruct (exists_last Ht) as (t' & a & ->).
      rewrite !app_assoc, ends_with_slash_snoc.
      apply noslash_app in Hns as [_ Hns].
      apply noslash_cons in Hns as [Ha _]. exact Ha. }
  assert (norm_stack (negb abs) q = stk) as Hstk.
  { unfold norm_stack, q. rewrite Hsplit, fold_left_app.
    rewrite (fold_push_skipped _ sk) by assumption.
    destruct trail.
    - rewrite split_snoc_slash, fold_left_app.
      rewrite split_intercalate by (assumption || apply good_rev, HF).
      rewrite refold_normal by assumption. reflexivity.
    - rewrite app_nil_r.
      rewrite split_intercalate by (assumption || apply good_rev, HF).
      apply refold_normal, Hn. }
  rewrite normalize_chars_spec by assumption.
  rewrite Hs, He, Hstk. reflexivity.
Qed.

Lemma normalize_render (abs trail : bool) (stk : list chars) :
  normal (negb abs) stk ->
  normalize_chars (render abs trail stk) = render abs trail stk.
Proof.
  intros Hn. destruct stk as [|t below] eqn:E.
  - destruct abs, trail; reflexivity.
  - rewrite <- E in *. assert (stk <> []) as Hne by (rewrite E; discriminate).
    replace (render abs trail stk)
      with ((if abs then [slash] else [])
            ++ intercalate (rev stk) ++ (if trail then [slash] else []))
      by (rewrite E; reflexivity).
    rewrite (normalize_built _ abs trail (if abs then [[]] else []) stk);
      try assumption.
    + rewrite E. reflexivity.
    + intros y. destruct abs; reflexivity.
    + destruct abs; repeat constructor.
    + intros c y Hc. destruct abs; [reflexivity|]. simpl. exact Hc.
Qed.

(** [path.normalize] is idempotent. *)
Lemma normalize_chars_idempotent (p : chars) :
  normalize_chars (normalize_chars p) = normalize_chars p.
Proof.
  destruct p as [|c p]; [reflexivity|].
  rewrite (normalize_chars_spec (c :: p)) by discriminate.
  apply normalize_render, norm_stack_normal.
Qed.

Lemma normalize_idempotent (p : string) :
  Path.normalize (Path.normalize p) = Path.normalize p.
Proof.
  unfold Path.normalize.
  rewrite list_ascii_of_string_of_list_ascii, normalize_chars_idempotent.
  reflexivity.
Qed.

Lemma normalize_chars_nonempty (p : chars) : normalize_chars p <> [].
Proof.
  destruct p as [|c p]; [discriminate|].
  unfold normalize_chars.
  destruct (normalizeString (c :: p) _) as [|a r];
    destruct (starts_with_slash (c :: p)), (ends_with_slash (c :: p));
    discriminate.
Qed.

(** What [normalizeDirPath] hands to the outer [path.normalize]: the
    argument behind [./], glued by [path.join]. *)
Lemma join_dot_chars (cp : chars) :
  join_chars [[dot; slash]; cp]
  = normalize_chars (match cp with
                     | [] => [dot; slash]
                     | _ :: _ => dot :: slash :: slash :: cp
                     end).
Proof. destruct cp; reflexivity. Qed.

Lemma normalizeDirPath_chars (p : string) :
  normalizeDirPath p
  = string_of_list_ascii
      (normalize_chars (match list_ascii_of_string p with
                        | [] => [dot; slash]
                        | _ :: _ => dot :: slash :: slash :: list_ascii_of_string p
                        end)).
Proof.
  unfold normalizeDirPath, Path.normalize, Path.join.
  rewrite list_ascii_of_string_of_list_ascii.
  change (map list_ascii_of_string [("." ++ Path.sep)%string; p])
    with [[dot; slash]; list_ascii_of_string p].
  rewrite join_dot_chars, normalize_chars_idempotent. reflexivity.
Qed.

Lemma normalize_behind_dot (trail : bool) (stk : list chars) :
  normal true stk ->
  normalize_chars (dot :: slash :: slash :: render false trail stk)
  = render false trail stk.
Proof.
  intros Hn. destruct stk as [|t below] eqn:E.
  - destruct trail; reflexivity.
  - rewrite <- E in *. assert (stk <> []) as Hne by (rewrite E; discriminate).
    assert (normalize_chars
              ([dot; slash; slash] ++ intercalate (rev stk)
               ++ (if trail then [slash] else []))
            = render false trail stk) as H.
    { apply (normalize_built _ false trail [[dot]; []] stk); try assumption.
      - intros y. reflexivity.
      - constructor; [right; reflexivity|].
        constructor; [left; reflexivity|constructor].
      - reflexivity. }
    rewrite E in H |- *. exact H.
Qed.

Lemma normalizeDirPath_chars_fixed (s : chars) :
  starts_with_slash s = false -> s <> [] ->
  normalize_chars (dot :: slash :: slash :: normalize_chars s) = normalize_chars s.
Proof.
  intros Hrel Hne. rewrite (normalize_chars_spec s Hne), Hrel.
  apply normalize_behind_dot, (norm_stack_normal true).
Qed.

End PathFacts.

(** * The claims about the scanner *)

(** C9. Path normalization is idempotent: for every input string [p],
    [normalizeDirPath (normalizeDirPath p) = normalizeDirPath p]; a path that
    is already canonical comes back unchanged. *)
Theorem normalizeDirPath_idempotent (p : string) :
  normalizeDirPath (normalizeDirPath p) = normalizeDirPath p.
Proof.
  rewrite (PathFacts.normalizeDirPath_chars (normalizeDirPath p)).
  rewrite (PathFacts.normalizeDirPath_chars p).
  rewrite list_ascii_of_string_of_list_ascii.
  f_equal.
  set (s := match list_ascii_of_string p with
            | [] => [Path.dot; Path.slash]
            | _ :: _ => Path.dot :: Path.slash :: Path.slash :: list_ascii_of_string p
            end).
  assert (Path.starts_with_slash s = false /\ s <> []) as [Hrel Hne]
    by (unfold s; destruct (list_ascii_of_string p); split; (reflexivity || discriminate)).
  pose proof (PathFacts.normalize_chars_nonempty s) as Hq.
  destruct (Path.normalize_chars s) as [|c q] eqn:E; [congruence|].
  rewrite <- E. apply PathFacts.normalizeDirPath_chars_fixed; assumption.
Qed.

(** * Facts about the scanner *)

Section ScannerFacts.

Context {Metadata : Type} (W : World Metadata).

Implicit Types (self : string -> DirectoryScanSettings -> M (DirectoryDTO Metadata)).
Implicit Types (d c : DirectoryDTO Metadata) (s : DirectoryScanSettings).

(** Case analysis along the control flow of a computation in a hypothesis;
    the cover of the snapshot is left alone. *)
Ltac run_cases H :=
  repeat (cbv beta iota zeta in H; cbn [orb andb negb app] in H;
          match type of H with
          | context [match ?x with _ => _ end] =>
              lazymatch x with
              | cover _ => fail
              | context [match _ with _ => _ end] => fail
              | _ => destruct x eqn:?
              end
          end);
  cbv beta iota zeta in H; cbn [orb andb negb app] in H;
  repeat match goal with
         | E : _ || _ = false |- _ => apply orb_false_elim in E as [? ?]
         end.

Ltac unfold_io H :=
  unfold metadata_of, await, try_catch, tell, throw, bind, ret in H.

Ltac solve_loaded :=
  unfold loaded_metadata;
  repeat match goal with
         | E : is_strictly_true (noMetadata _) = _ |- _ => rewrite E
         end;
  eauto.

Lemma excludeFile_loop_returns (absoluteName : string) (markers : list string) :
  exists t b, excludeFile_loop W absoluteName markers = (t, Returned b).
Proof.
  induction markers as [|m markers (t & b & IH)]; simpl; [eexists _, _; reflexivity|].
  unfold bind, try_catch, await, ret.
  destruct (fsp_access W _); simpl; [eexists _, _; reflexivity|].
  rewrite IH. eexists _, _; reflexivity.
Qed.

Lemma excludeDir_returns (name rel abs : string) :
  exists t b, excludeDir W name rel abs = (t, Returned b).
Proof.
  unfold excludeDir.
  destruct (_ && _); [eexists _, _; reflexivity|].
  destruct (excludeFolder_loop _ _ _ _); [eexists _, _; reflexivity|].
  apply excludeFile_loop_returns.
Qed.

(** Every normal end of an iteration is one of the effects. *)
Lemma scanEntry_effect self s (rel abs file : string) d t e d' :
  scanEntry W self s rel abs file d = (t, Returned (e, d')) ->
  entry_effect W self s rel abs file d e d'.
Proof.
  unfold scanEntry. fold (full_path abs file).
  intros H. unfold_io H.
  run_cases H; try discriminate; inversion H; subst; clear H;
    try solve [constructor; solve [assumption | solve_loaded]];
    try solve [econstructor; eassumption].
  all: match goal with
       | Hc : is_strictly_true (coverOnly ?s) = _
         |- entry_effect _ ?self _ ?rel ?abs ?file ?d _
              (push_media _ (mkMedia _ _ ?md)) =>
           let E := fresh in
           assert (E : entry_effect W self s rel abs file d
                         (if is_strictly_true (coverOnly s)
                          then Break else Continue)
                         (push_media (with_cover d (mkMedia file None md))
                                     (mkMedia file None md)))
             by (apply effect_photo; [assumption | solve_loaded]);
           rewrite Hc in E; exact E
       end.
Qed.

(** An invariant of the iterations is an invariant of the loop. *)
Lemma scanEntries_invariant (I : DirectoryDTO Metadata -> Prop) self s
    (rel abs : string) (files : list string) :
  (forall file d t e d',
     In file files -> I d ->
     scanEntry W self s rel abs file d = (t, Returned (e, d')) -> I d') ->
  forall d t d',
    I d -> scanEntries W self s rel abs files d = (t, Returned d') -> I d'.
Proof.
  induction files as [|file rest IH]; intros Hstep d t d' Hd H.
  - inversion H; subst. assumption.
  - cbn [scanEntries] in H. unfold bind in H.
    destruct (scanEntry W self s rel abs file d) as [t1 [[e d1]| |]] eqn:E;
      try discriminate.
    pose proof (Hstep _ _ _ _ _ (or_introl eq_refl) Hd E) as Hd1.
    destruct e.
    + destruct (scanEntries W self s rel abs rest d1) as [t2 r] eqn:E2.
      inversion H; subst. eapply IH; [|eassumption..].
      intros f x tx ex x' Hin. apply Hstep. right. exact Hin.
    + inversion H; subst. assumption.
Qed.

(** The recursive call is only made with [{coverOnly: true}]. *)
Lemma scanEntry_ext self self' s (rel abs file : string) d :
  (forall r, self r coverOnlySettings = self' r coverOnlySettings) ->
  scanEntry W self s rel abs file d = scanEntry W self' s rel abs file d.
Proof.
  intros Hext. unfold scanEntry, bind.
  destruct (await _ _) as [t [st| |]]; try reflexivity.
  destruct (isDirectory st); [|reflexivity].
  destruct (_ || _); [reflexivity|].
  destruct (excludeDir W file rel abs) as [t1 [[]| |]]; try reflexivity.
  rewrite Hext. reflexivity.
Qed.

Lemma scanEntries_ext self self' s (rel abs : string) (list : list string) :
  (forall r, self r coverOnlySettings = self' r coverOnlySettings) ->
  forall d, scanEntries W self s rel abs list d
            = scanEntries W self' s rel abs list d.
Proof.
  intros Hext. induction list as [|file rest IH]; intros d; [reflexivity|].
  cbn [scanEntries]. rewrite (scanEntry_ext self self') by assumption.
  unfold bind. destruct (scanEntry W self' s rel abs file d) as [t [[[] d1]| |]];
    try reflexivity.
  rewrite IH. reflexivity.
Qed.

(** Under [coverOnly] the recursive call is not made at all. *)
Lemma scanEntry_coverOnly self self' s (rel abs file : string) d :
  is_strictly_true (coverOnly s) = true ->
  scanEntry W self s rel abs file d = scanEntry W self' s rel abs file d.
Proof.
  intros Hc. unfold scanEntry, bind.
  destruct (await _ _) as [t [st| |]]; try reflexivity.
  destruct (isDirectory st); [|reflexivity].
  rewrite Hc, orb_true_r. reflexivity.
Qed.

Lemma scanEntries_coverOnly self self' s (rel abs : string)
    (list : list string) :
  is_strictly_true (coverOnly s) = true ->
  forall d, scanEntries W self s rel abs list d
            = scanEntries W self' s rel abs list d.
Proof.
  intros Hc. induction list as [|file rest IH]; intros d; [reflexivity|].
  cbn [scanEntries]. rewrite (scanEntry_coverOnly self self') by assumption.
  unfold bind. destruct (scanEntry W self' s rel abs file d) as [t [[[] d1]| |]];
    try reflexivity.
  rewrite IH. reflexivity.
Qed.

(** The structure of [scanDirectory] around its loop. *)
Lemma scanDirectory_unfold (fuel : nat) (rel : string) s :
  scanDirectory W (S fuel) rel s
  = (let* stat := await (EvStat (absolute_of W rel))
                    (fsp_stat W (absolute_of W rel)) in
     if nothing_to_scan s then ret (initial_snapshot W rel stat)
     else
       let* list := await (EvReaddir (absolute_of W rel))
                      (fsp_readdir W (absolute_of W rel)) in
       let* directory :=
         scanEntries W (scanDirectory W fuel) s (normalizeDirPath rel)
           (absolute_of W rel) list (initial_snapshot W rel stat) in
       ret (set_counts W directory)).
Proof. reflexivity. Qed.

(** A cover probe does not depend on the depth left: it never recurses. *)
Lemma scanDirectory_coverOnly_fuel (fuel : nat) (rel : string) s :
  is_strictly_true (coverOnly s) = true ->
  scanDirectory W (S fuel) rel s = scanDirectory W 1 rel s.
Proof.
  intros Hc. rewrite !scanDirectory_unfold. unfold bind.
  destruct (await (EvStat _) _) as [t [st| |]]; try reflexivity.
  destruct (nothing_to_scan s); [reflexivity|].
  destruct (await (EvReaddir _) _) as [t1 [files| |]]; try reflexivity.
  rewrite (scanEntries_coverOnly (scanDirectory W fuel) (scanDirectory W 0))
    by assumption.
  reflexivity.
Qed.

(** Two levels of recursion are all a scan ever uses. *)
Lemma scanDirectory_fuel (fuel : nat) (rel : string) s :
  scanDirectory W (S (S fuel)) rel s = scanDirectory W 2 rel s.
Proof.
  rewrite !scanDirectory_unfold. unfold bind.
  destruct (await (EvStat _) _) as [t [st| |]]; try reflexivity.
  destruct (nothing_to_scan s); [reflexivity|].
  destruct (await (EvReaddir _) _) as [t1 [files| |]]; try reflexivity.
  rewrite (scanEntries_ext (scanDirectory W (S fuel)) (scanDirectory W 1));
    [reflexivity|].
  intros r. apply scanDirectory_coverOnly_fuel. reflexivity.
Qed.

Lemma scanEntry_no_OutOfFuel self s (rel abs file : string) d :
  (forall r, result (self r coverOnlySettings) <> OutOfFuel) ->
  result (scanEntry W self s rel abs file d) <> OutOfFuel.
Proof.
  intros Hself H.
  destruct (scanEntry W self s rel abs file d) as [t o] eqn:E.
  cbn [result snd] in H. subst o.
  unfold scanEntry in E. unfold_io E.
  destruct (excludeDir_returns file rel abs) as (tx & bx & Hx).
  rewrite Hx in E.
  run_cases E; try discriminate.
  all: match goal with
       | Hs : ?f ?r coverOnlySettings = (_, _) |- _ =>
           apply (Hself r); rewrite Hs; cbn [result snd]; congruence
       end.
Qed.

Lemma scanEntries_no_OutOfFuel self s (rel abs : string) (list : list string) :
  (forall r, result (self r coverOnlySettings) <> OutOfFuel) ->
  forall d, result (scanEntries W self s rel abs list d) <> OutOfFuel.
Proof.
  intros Hself. induction list as [|file rest IH]; intros d; [discriminate|].
  cbn [scanEntries]. unfold bind, ret.
  pose proof (scanEntry_no_OutOfFuel self s rel abs file d Hself) as Hstep.
  destruct (scanEntry W self s rel abs file d) as [t [[[] d1]| |]];
    cbn [result snd] in *; try congruence.
  specialize (IH d1).
  destruct (scanEntries W self s rel abs rest d1) as [t2 r]. exact IH.
Qed.

Lemma scanDirectory_step_no_OutOfFuel (fuel : nat) (rel : string) s :
  (forall r, result (scanDirectory W fuel r coverOnlySettings) <> OutOfFuel) ->
  result (scanDirectory W (S fuel) rel s) <> OutOfFuel.
Proof.
  intros Hself. rewrite scanDirectory_unfold. unfold bind.
  destruct (await (EvStat _) _) as [t [st| |]] eqn:Est; cbn [result snd].
  - destruct (nothing_to_scan s); [discriminate|].
    destruct (await (EvReaddir _) _) as [t1 [files| |]] eqn:Erd; cbn [result snd].
    + pose proof (scanEntries_no_OutOfFuel (scanDirectory W fuel) s
                    (normalizeDirPath rel) (absolute_of W rel) files Hself
                    (initial_snapshot W rel st)) as Hloop.
      destruct (scanEntries _ _ _ _ _ _ _) as [t2 [d2| |]];
        unfold ret; cbv beta iota zeta; cbn [result snd] in *; congruence.
    + discriminate.
    + unfold await in Erd. destruct (fsp_readdir _ _); discriminate.
  - discriminate.
  - unfold await in Est. destruct (fsp_stat _ _); discriminate.
Qed.

(** [scanDirectory] is total: with two levels of recursion it returns or
    throws. *)
Lemma scanDirectory_total (fuel : nat) (rel : string) s :
  result (scanDirectory W (S (S fuel)) rel s) <> OutOfFuel.
Proof.
  rewrite scanDirectory_fuel.
  apply scanDirectory_step_no_OutOfFuel. intros r.
  rewrite (scanDirectory_unfold 0). unfold bind.
  destruct (await (EvStat _) _) as [t [st| |]] eqn:Est; cbn [result snd].
  - destruct (nothing_to_scan _); [discriminate|].
    destruct (await (EvReaddir _) _) as [t1 [files| |]] eqn:Erd; cbn [result snd].
    + rewrite (scanEntries_coverOnly (scanDirectory W 0)
                 (fun _ _ => throw (JsError "never called"))) by reflexivity.
      pose proof (scanEntries_no_OutOfFuel (fun _ _ => throw (JsError "never called"))
                    coverOnlySettings (normalizeDirPath r) (absolute_of W r)
                    files (fun _ => ltac:(discriminate))
                    (initial_snapshot W r st)) as Hloop.
      destruct (scanEntries _ _ _ _ _ _ _) as [t2 [d2| |]];
        unfold ret; cbv beta iota zeta; cbn [result snd] in *; congruence.
    + discriminate.
    + unfold await in Erd. destruct (fsp_readdir _ _); discriminate.
  - discriminate.
  - unfold await in Est. destruct (fsp_stat _ _); discriminate.
Qed.

(** What a scan that returns went through. *)
Lemma scanDirectory_returned (fuel : nat) (rel : string) s
    (t : list event) d :
  scanDirectory W (S fuel) rel s = (t, Returned d) ->
  exists st,
    fsp_stat W (absolute_of W rel) = Resolved st
    /\ ((nothing_to_scan s = true
         /\ d = initial_snapshot W rel st
         /\ t = [EvStat (absolute_of W rel)])
        \/ (nothing_to_scan s = false
            /\ exists files t' d',
                 fsp_readdir W (absolute_of W rel) = Resolved files
                 /\ scanEntries W (scanDirectory W fuel) s (normalizeDirPath rel)
                      (absolute_of W rel) files (initial_snapshot W rel st)
                    = (t', Returned d')
                 /\ d = set_counts W d'
                 /\ t = EvStat (absolute_of W rel)
                        :: EvReaddir (absolute_of W rel) :: t')).
Proof.
  rewrite scanDirectory_unfold. unfold bind, await, ret. intros H.
  destruct (fsp_stat W (absolute_of W rel)) as [st|]; [|discriminate].
  exists st. split; [reflexivity|].
  destruct (nothing_to_scan s).
  - left. inversion H; subst. auto.
  - right. split; [reflexivity|].
    destruct (fsp_readdir W (absolute_of W rel)) as [files|]; [|discriminate].
    destruct (scanEntries _ _ _ _ _ _ _) as [t' [d'| |]] eqn:E;
      try discriminate.
    inversion H; subst. exists files, t', d'.
    rewrite app_nil_r. repeat split; reflexivity || assumption.
Qed.

(** The cover of a snapshot stays one of its own media entries. *)
Lemma entry_effect_own_cover self s (rel abs file : string) d e d' :
  entry_effect W self s rel abs file d e d' -> own_cover d -> own_cover d'.
Proof.
  unfold own_cover.
  intros Heff Hd. destruct Heff; cbn [cover media path name incr_directoryCount
    push_directory push_media push_metaFile]; try assumption.
  - unfold with_cover. destruct (cover d) as [c0|] eqn:Ec.
    + rewrite Ec. destruct Hd as (m & Hin & ->).
      exists m. split; [apply in_or_app; left; assumption|reflexivity].
    + cbn [cover set_cover media path name].
      eexists. split; [apply in_or_app; right; left; reflexivity|reflexivity].
  - destruct (cover d) as [c0|]; [|exact I].
    destruct Hd as (m & Hin & ->).
    exists m. split; [apply in_or_app; left; assumption|reflexivity].
Qed.

(** A cover probe returns a snapshot without children: it does not
    recurse. *)
Lemma probe_snapshot (fuel : nat) (rel : string) s (t : list event) c :
  is_strictly_true (coverOnly s) = true ->
  scanDirectory W fuel rel s = (t, Returned c) ->
  directories c = [] /\ own_cover c.
Proof.
  intros Hc H. destruct fuel as [|fuel]; [discriminate|].
  apply scanDirectory_returned in H
    as (st & _ & [(_ & -> & _)|(_ & files & t' & d' & _ & Hloop & -> & _)]).
  - split; [reflexivity|exact I].
  - refine (scanEntries_invariant
              (fun x => directories (set_counts W x) = []
                        /\ own_cover (set_counts W x))
              _ _ _ _ _ _ _ _ _ _ Hloop); [|split; [reflexivity|exact I]].
    intros file d0 t0 e d1 _ [Hd0 Ho] Hstep.
    apply scanEntry_effect in Hstep.
    split.
    + destruct Hstep; cbn [set_counts directories push_directory
        incr_directoryCount push_media push_metaFile] in *;
        try assumption; try congruence.
      unfold with_cover. destruct (cover d0); assumption.
    + apply (entry_effect_own_cover _ _ _ _ _ _ _ _ Hstep). exact Ho.
Qed.

(** Entries that are directories leave the cover and the media alone. *)
Lemma scanEntry_directory_entry self s (rel abs file : string) d
    (t : list event) e d' :
  directory_entry W abs file ->
  scanEntry W self s rel abs file d = (t, Returned (e, d')) ->
  cover d' = cover d /\ media d' = media d.
Proof.
  intros (st & Hst & Hdir) H.
  unfold scanEntry in H. fold (full_path abs file) in H.
  unfold_io H. rewrite Hst in H. cbv beta iota zeta in H. rewrite Hdir in H.
  run_cases H; try discriminate; inversion H; subst; split; reflexivity.
Qed.
(** The metadata of the media and of the cover of a snapshot obey whatever
    the settings of its scan make of loaded metadata. *)
Lemma scan_metadata (P : option Metadata -> Prop) (fuel : nat) (rel : string)
    s (t : list event) d :
  (forall load md, loaded_metadata s load md -> P md) ->
  scanDirectory W fuel rel s = (t, Returned d) ->
  Forall (fun m => P (m_metadata m)) (media d)
  /\ forall m, cover d = Some m -> P (m_metadata m).
Proof.
  intros HP H. destruct fuel as [|fuel]; [discriminate|].
  apply scanDirectory_returned in H
    as (st & _ & [(_ & -> & _)|(_ & files & t' & d' & _ & Hloop & -> & _)]).
  - split; [constructor|discriminate].
  - cbn [set_counts media cover].
    refine (scanEntries_invariant
              (fun x => Forall (fun m => P (m_metadata m)) (media x)
                        /\ forall m, cover x = Some m -> P (m_metadata m))
              _ _ _ _ _ _ _ _ _ _ Hloop); [|split; [constructor|discriminate]].
    intros file d0 t0 e d1 _ [Hm Hc] Hstep.
    apply scanEntry_effect in Hstep.
    destruct Hstep; cbn [media cover push_directory incr_directoryCount
                         push_media push_metaFile]; try (split; assumption).
    + match goal with Hl : loaded_metadata _ _ _ |- _ => apply HP in Hl end.
      unfold with_cover. destruct (cover d0) as [c0|] eqn:Ec.
      * rewrite Ec. split; [|assumption].
        apply Forall_app. split; [assumption|]. constructor; [assumption|constructor].
      * cbn [media cover set_cover]. split.
        -- apply Forall_app. split; [assumption|].
           constructor; [assumption|constructor].
        -- intros m Heq. inversion Heq; subst. assumption.
    + match goal with Hl : loaded_metadata _ _ _ |- _ => apply HP in Hl end.
      split; [|assumption].
      apply Forall_app. split; [assumption|]. constructor; [assumption|constructor].
Qed.

(** The children of a snapshot are probes made with [{coverOnly: true}]
    alone: their entries carry the metadata the loader returned. *)
Lemma children_metadata (fuel : nat) (rel : string) s (t : list event) d :
  scanDirectory W fuel rel s = (t, Returned d) ->
  Forall (fun child =>
            Forall (fun m => m_metadata m <> None) (media child)
            /\ forall m, cover child = Some m -> m_metadata m <> None)
    (directories d).
Proof.
  intros H. destruct fuel as [|fuel]; [discriminate|].
  apply scanDirectory_returned in H
    as (st & _ & [(_ & -> & _)|(_ & files & t' & d' & _ & Hloop & -> & _)]).
  - constructor.
  - cbn [set_counts directories].
    refine (scanEntries_invariant
              (fun x => Forall (fun child =>
                                  Forall (fun m => m_metadata m <> None)
                                    (media child)
                                  /\ forall m, cover child = Some m ->
                                               m_metadata m <> None)
                          (directories x))
              _ _ _ _ _ _ _ _ _ _ Hloop); [|constructor].
    intros file d0 t0 e d1 _ Hd0 Hstep.
    apply scanEntry_effect in Hstep.
    destruct Hstep; cbn [directories push_directory incr_directoryCount
                         push_media push_metaFile]; try assumption.
    + apply Forall_app. split; [assumption|].
      constructor; [|constructor].
      match goal with
      | Hp : scanDirectory W _ _ _ = _ |- _ =>
          apply (scan_metadata (fun md => md <> None)) in Hp; [exact Hp|]
      end.
      intros load md (x & _ & ->). discriminate.
    + unfold with_cover. destruct (cover d0); assumption.
Qed.

(** [scanDirectoryNoMetadata] scans with [noMetadata] set, unless it was
    handed a reference to no object. *)
Lemma scanDirectoryNoMetadata_runs (fuel : nat)
    (heap : gmap loc DirectoryScanSettings) (rel : string) (ref : option loc)
    (t : list event) d :
  snd (scanDirectoryNoMetadata W fuel heap rel ref) = (t, Returned d) ->
  exists s', noMetadata s' = Some true
             /\ scanDirectory W fuel rel s' = (t, Returned d).
Proof.
  unfold scanDirectoryNoMetadata, scanDirectory_ref.
  destruct ref as [l|].
  - destruct (heap !! l) as [s0|] eqn:Hl; cbn [snd]; [|discriminate].
    rewrite lookup_alter_eq, Hl. cbn [fmap option_fmap option_map].
    intros H. exists (set_noMetadata (Some true) s0). split; [reflexivity|exact H].
  - rewrite lookup_insert_eq. cbn [snd].
    rewrite lookup_alter_eq, lookup_insert_eq. cbn [fmap option_fmap option_map].
    intros H. exists (set_noMetadata (Some true) emptySettings).
    split; [reflexivity|exact H].
Qed.

Lemma find_snoc {A : Type} (f : A -> bool) (l : list A) (x : A) :
  List.find f (l ++ [x])
  = match List.find f l with
    | Some y => Some y
    | None => if f x then Some x else None
    end.
Proof.
  induction l as [|a l IH]; simpl; [reflexivity|].
  destruct (f a); [reflexivity|exact IH].
Qed.

(** The cover is the first photo of the media list, with the back-reference
    to the snapshot; [validCover] is never set. *)
Lemma scan_cover_first_photo (fuel : nat) (rel : string) s (t : list event) d :
  scanDirectory W fuel rel s = (t, Returned d) ->
  validCover d = false
  /\ cover d
     = option_map
         (fun m => set_media_directory (Utils_clone m)
                     (Some (mkDirectoryPath (path d) (name d))))
         (List.find (is_photo_entry W (absolute_of W rel)) (media d)).
Proof.
  intros H. destruct fuel as [|fuel]; [discriminate|].
  apply scanDirectory_returned in H
    as (st & _ & [(_ & -> & _)|(_ & files & t' & d' & _ & Hloop & -> & _)]).
  - split; reflexivity.
  - cbn [set_counts validCover cover path name media].
    set (p0 := path (initial_snapshot W rel st)).
    set (n0 := name (initial_snapshot W rel st)).
    assert (validCover d' = false /\ path d' = p0 /\ name d' = n0
            /\ cover d'
               = option_map
                   (fun m => set_media_directory (Utils_clone m)
                               (Some (mkDirectoryPath p0 n0)))
                   (List.find (is_photo_entry W (absolute_of W rel)) (media d')))
      as (Hv & Hp & Hn & Hc).
    { refine (scanEntries_invariant
                (fun x => validCover x = false /\ path x = p0 /\ name x = n0
                          /\ cover x
                             = option_map
                                 (fun m => set_media_directory (Utils_clone m)
                                             (Some (mkDirectoryPath p0 n0)))
                                 (List.find
                                    (is_photo_entry W (absolute_of W rel))
                                    (media x)))
                _ _ _ _ _ _ _ _ _ _ Hloop); [|repeat split; reflexivity].
      intros file d0 t0 e d1 _ (Hv & Hp & Hn & Hc) Hstep.
      apply scanEntry_effect in Hstep.
      destruct Hstep; cbn [validCover path name cover media push_directory
                           incr_directoryCount push_media push_metaFile];
        try (repeat split; assumption).
      - (* a photo *)
        unfold with_cover. rewrite find_snoc.
        unfold is_photo_entry at 2. cbn [m_name].
        match goal with Hphoto : PhotoProcessing_isPhoto _ _ = true |- _ =>
          rewrite Hphoto end.
        destruct (cover d0) as [c0|] eqn:Ec.
        + rewrite Ec. repeat split; try assumption.
          destruct (List.find _ (media d0)); [assumption|discriminate].
        + cbn [validCover path name cover media set_cover].
          repeat split; try assumption.
          destruct (List.find _ (media d0)); [discriminate|].
          cbn [option_map]. rewrite Hp, Hn. reflexivity.
      - (* a video *)
        rewrite find_snoc. unfold is_photo_entry at 2. cbn [m_name].
        match goal with Hvideo : PhotoProcessing_isPhoto _ _ = false |- _ =>
          rewrite Hvideo end.
        repeat split; try assumption.
        destruct (List.find _ (media d0)); assumption. }
    split; [assumption|]. rewrite Hp, Hn. exact Hc.
Qed.

(** Case analysis along the control flow of the computations in the goal. *)
Ltac run_cases_goal :=
  repeat (cbv beta iota zeta; cbn [orb andb negb app];
          match goal with
          | |- context [match ?x with _ => _ end] =>
              lazymatch x with
              | context [match _ with _ => _ end] => fail
              | _ => destruct x eqn:?
              end
          end);
  cbv beta iota zeta; cbn [orb andb negb app].

(** The count of directories does not steer an iteration. *)
Lemma scanEntry_bump self s (rel abs file : string) d :
  scanEntry W self s rel abs file (incr_directoryCount d)
  = (trace (scanEntry W self s rel abs file d),
     map_outcome (fun r => (fst r, incr_directoryCount (snd r)))
       (result (scanEntry W self s rel abs file d))).
Proof.
  unfold scanEntry, metadata_of, await, try_catch, tell, bind, ret, trace,
    result.
  cbn [cover path name incr_directoryCount].
  run_cases_goal; reflexivity.
Qed.

Lemma scanEntries_bump self s (rel abs : string) (files : list string) :
  forall d,
    scanEntries W self s rel abs files (incr_directoryCount d)
    = (trace (scanEntries W self s rel abs files d),
       map_outcome incr_directoryCount
         (result (scanEntries W self s rel abs files d))).
Proof.
  induction files as [|file rest IH]; intros d; [reflexivity|].
  cbn [scanEntries]. rewrite scanEntry_bump. unfold bind, trace, result.
  destruct (scanEntry W self s rel abs file d) as [t1 [[[] d1]| |]];
    cbn [fst snd map_outcome]; try reflexivity.
  rewrite IH. unfold trace, result.
  destruct (scanEntries W self s rel abs rest d1) as [t2 o2]. reflexivity.
Qed.

(** Without [coverOnly] no iteration leaves the loop. *)
Lemma scanEntry_continue self s (rel abs file : string) d (t : list event)
    e d' :
  is_strictly_true (coverOnly s) = false ->
  scanEntry W self s rel abs file d = (t, Returned (e, d')) ->
  e = Continue.
Proof.
  intros Hc H. apply scanEntry_effect in H.
  destruct H; try reflexivity. rewrite Hc. reflexivity.
Qed.

(** The iteration on a subdirectory that the exclusion filter rejects. *)
Lemma scanEntry_excluded self s (rel abs file : string) d (st : Stats)
    (tx : list event) :
  fsp_stat W (full_path abs file) = Resolved st -> isDirectory st = true ->
  is_strictly_true (noDirectory s) = false ->
  is_strictly_true (coverOnly s) = false ->
  excludeDir W file rel abs = (tx, Returned true) ->
  scanEntry W self s rel abs file d
  = (EvStat (full_path abs file) :: tx,
     Returned (Continue, incr_directoryCount d)).
Proof.
  intros Hst Hdir Hnd Hc Hex.
  unfold scanEntry. fold (full_path abs file).
  unfold bind, await, ret. rewrite Hst. cbv beta iota zeta.
  rewrite Hdir, Hnd, Hc, Hex. cbn [orb app]. rewrite app_nil_r. reflexivity.
Qed.

(** A listing with an excluded subdirectory, against the same listing
    without it. *)
Lemma scanEntries_excluded self s (rel abs file : string) (st : Stats)
    (tx : list event) (post : list string) :
  fsp_stat W (full_path abs file) = Resolved st -> isDirectory st = true ->
  is_strictly_true (noDirectory s) = false ->
  is_strictly_true (coverOnly s) = false ->
  excludeDir W file rel abs = (tx, Returned true) ->
  forall (pre : list string) d,
    result (scanEntries W self s rel abs (pre ++ file :: post) d)
    = map_outcome incr_directoryCount
        (result (scanEntries W self s rel abs (pre ++ post) d)).
Proof.
  intros Hst Hdir Hnd Hc Hex pre.
  induction pre as [|f pre IH]; intros d.
  - cbn [app scanEntries].
    rewrite (scanEntry_excluded self s rel abs file d st tx) by assumption.
    unfold bind. rewrite scanEntries_bump. unfold trace, result.
    destruct (scanEntries W self s rel abs post d) as [t o]. reflexivity.
  - cbn [app scanEntries]. unfold bind, result.
    destruct (scanEntry W self s rel abs f d) as [t1 [[e d1]| |]] eqn:E;
      try reflexivity.
    rewrite (scanEntry_continue _ _ _ _ _ _ _ _ _ Hc E).
    specialize (IH d1). unfold result in IH.
    destruct (scanEntries W self s rel abs (pre ++ file :: post) d1) as [t2 o2].
    destruct (scanEntries W self s rel abs (pre ++ post) d1) as [t3 o3].
    cbn [snd] in *. exact IH.
Qed.

(** The exclusion filter only probes marker files. *)
Lemma excludeFile_loop_trace (absoluteName : string) (markers : list string) :
  Forall (fun ev => exists marker,
            In marker markers
            /\ ev = EvAccess (Path.join [absoluteName; marker]))
    (trace (excludeFile_loop W absoluteName markers)).
Proof.
  induction markers as [|m markers IH]; [constructor|].
  cbn [excludeFile_loop]. unfold bind, try_catch, await, ret, trace.
  destruct (fsp_access W _); cbn [fst app].
  - constructor; [|constructor]. exists m. split; [left; reflexivity|reflexivity].
  - unfold trace in IH.
    destruct (excludeFile_loop W absoluteName markers) as [t o].
    cbn [fst app] in *.
    constructor.
    + exists m. split; [left; reflexivity|reflexivity].
    + eapply Forall_impl; [exact IH|].
      intros ev (marker & Hin & ->). exists marker. split; [right; exact Hin|reflexivity].
Qed.

Lemma excludeDir_trace (name rel abs : string) :
  Forall (fun ev => exists marker,
            In marker (excludeFileList W)
            /\ ev = EvAccess (Path.join [full_path abs name; marker]))
    (trace (excludeDir W name rel abs)).
Proof.
  unfold excludeDir.
  destruct (_ && _); [constructor|].
  destruct (excludeFolder_loop _ _ _ _); [constructor|].
  apply excludeFile_loop_trace.
Qed.

Lemma media_fold_push (l : list (MediaDTO Metadata)) :
  forall d, media (fold_left push_media l d) = media d ++ l.
Proof.
  induction l as [|m l IH]; intros d; simpl; [rewrite app_nil_r; reflexivity|].
  rewrite IH. cbn [media push_media]. rewrite <- app_assoc. reflexivity.
Qed.

(** The iteration on a video whose metadata loads. *)
Lemma scanEntry_video_loaded self s (rel abs file : string) d (md : Metadata) :
  video_file W abs file -> Video_enabled W = true ->
  is_strictly_true (noVideo s) = false ->
  is_strictly_true (coverOnly s) = false ->
  is_strictly_true (noMetadata s) = false ->
  loadVideoMetadata W (full_path abs file) = Resolved md ->
  scanEntry W self s rel abs file d
  = ([EvStat (full_path abs file); EvLoadVideoMetadata (full_path abs file)],
     Returned (Continue, push_media d (mkMedia file None (Some md)))).
Proof.
  intros ((st & Hst & Hdir) & Hp & Hv) Hen Hnv Hc Hm Hl.
  unfold scanEntry. fold (full_path abs file).
  unfold metadata_of, try_catch, bind, await, ret. rewrite Hst.
  cbv beta iota zeta.
  rewrite Hdir, Hp, Hv, Hen, Hnv, Hc, Hm, Hl. reflexivity.
Qed.

(** The iteration on a video whose metadata extraction throws: the video is
    skipped with a warning and the loop goes on. *)
Lemma scanEntry_video_failed self s (rel abs file : string) d (e : exn) :
  video_file W abs file -> Video_enabled W = true ->
  is_strictly_true (noVideo s) = false ->
  is_strictly_true (coverOnly s) = false ->
  is_strictly_true (noMetadata s) = false ->
  loadVideoMetadata W (full_path abs file) = Rejected e ->
  scanEntry W self s rel abs file d
  = ([EvStat (full_path abs file); EvLoadVideoMetadata (full_path abs file);
      skip_warning file e],
     Returned (Continue, d)).
Proof.
  intros ((st & Hst & Hdir) & Hp & Hv) Hen Hnv Hc Hm Hl.
  unfold scanEntry. fold (full_path abs file).
  unfold metadata_of, try_catch, tell, bind, await, ret. rewrite Hst.
  cbv beta iota zeta.
  rewrite Hdir, Hp, Hv, Hen, Hnv, Hc, Hm, Hl. reflexivity.
Qed.

(** The iteration on a photo whose metadata extraction throws: the
    exception leaves the loop. *)
Lemma scanEntry_photo_failed self s (rel abs file : string) d (e : exn) :
  photo_file W abs file ->
  is_strictly_true (noPhoto s) = false ->
  is_strictly_true (noMetadata s) = false ->
  loadPhotoMetadata W (full_path abs file) = Rejected e ->
  scanEntry W self s rel abs file d
  = ([EvStat (full_path abs file); EvLoadPhotoMetadata (full_path abs file)],
     Thrown e).
Proof.
  intros ((st & Hst & Hdir) & Hp) Hnp Hm Hl.
  unfold scanEntry. fold (full_path abs file).
  unfold metadata_of, bind, await, ret. rewrite Hst.
  cbv beta iota zeta.
  rewrite Hdir, Hp, Hnp, Hm, Hl. reflexivity.
Qed.

(** The loop over a run of videos, followed by anything. *)
Lemma scanEntries_videos self s (rel abs : string) (files rest : list string) :
  Video_enabled W = true ->
  is_strictly_true (noVideo s) = false ->
  is_strictly_true (coverOnly s) = false ->
  is_strictly_true (noMetadata s) = false ->
  (forall f, In f files -> video_file W abs f) ->
  forall d,
    exists t,
      scanEntries W self s rel abs (files ++ rest) d
      = (t ++ trace (scanEntries W self s rel abs rest
                       (fold_left push_media (loaded_videos W abs files) d)),
         result (scanEntries W self s rel abs rest
                   (fold_left push_media (loaded_videos W abs files) d)))
      /\ forall f e,
           In f files ->
           loadVideoMetadata W (full_path abs f) = Rejected e ->
           In (skip_warning f e) t.
Proof.
  intros Hen Hnv Hc Hm. induction files as [|f files IH]; intros Hvid d.
  - exists []. split; [|intros f e []].
    cbn [app loaded_videos fold_left]. unfold trace, result.
    destruct (scanEntries W self s rel abs rest d). reflexivity.
  - assert (forall f', In f' files -> video_file W abs f') as Hvid'
      by (intros f' Hin; apply Hvid; right; exact Hin).
    pose proof (Hvid f (or_introl eq_refl)) as Hf.
    cbn [app scanEntries loaded_videos].
    destruct (loadVideoMetadata W (full_path abs f)) as [md|e0] eqn:Hl.
    + rewrite (scanEntry_video_loaded self s rel abs f d md) by assumption.
      destruct (IH Hvid' (push_media d (mkMedia f None (Some md))))
        as (t & Heq & Hwarn).
      eexists (_ ++ t). split.
      * unfold bind. rewrite Heq. cbn [fold_left]. rewrite <- app_assoc.
        reflexivity.
      * intros f' e [<-|Hin] Hrej; [congruence|].
        apply in_or_app. right. eapply Hwarn; eassumption.
    + rewrite (scanEntry_video_failed self s rel abs f d e0) by assumption.
      destruct (IH Hvid' d) as (t & Heq & Hwarn).
      eexists (_ ++ t). split.
      * unfold bind. rewrite Heq. rewrite <- app_assoc. reflexivity.
      * intros f' e [<-|Hin] Hrej.
        -- rewrite Hl in Hrej. inversion Hrej; subst.
           apply in_or_app. left. right. right. left. reflexivity.
        -- apply in_or_app. right. eapply Hwarn; eassumption.
Qed.

(** The loop over the name rules finds a rule that matches. *)
Lemma excludeFolder_loop_spec (name relativeName absoluteName : string)
    (rules : list string) :
  excludeFolder_loop name relativeName absoluteName rules = true
  <-> exists rule, In rule rules
                   /\ rule_matches name relativeName absoluteName rule.
Proof.
  induction rules as [|rule rules IH]; cbn [excludeFolder_loop].
  - split; [discriminate|intros (r & [] & _)].
  - assert (forall (a b : string) (rest : bool),
              (if String.eqb a b then true else rest) = true
              <-> a = b \/ rest = true) as Hif.
    { intros a b rest. destruct (String.eqb_spec a b); split; auto.
      intros [Heq|Hr]; [contradiction|exact Hr]. }
    assert ((rule_matches name relativeName absoluteName rule
             \/ excludeFolder_loop name relativeName absoluteName rules = true)
            <-> exists r, In r (rule :: rules)
                          /\ rule_matches name relativeName absoluteName r)
      as Hex.
    { rewrite IH. split.
      - intros [Hm|(r & Hin & Hm)]; [exists rule|exists r]; split;
          (left; reflexivity) || (right; assumption) || assumption.
      - intros (r & [<-|Hin] & Hm); [left; assumption|right; eauto]. }
    rewrite <- Hex. unfold rule_matches.
    destruct (startsWith rule "/"); [apply Hif|].
    destruct (includes rule "/"); apply Hif.
Qed.

(** The loop over the marker files finds a marker that is there. *)
Lemma excludeFile_loop_spec (absoluteName : string) (markers : list string) :
  exists t b,
    excludeFile_loop W absoluteName markers = (t, Returned b)
    /\ (b = true <-> exists marker, In marker markers
                                    /\ marker_found W absoluteName marker).
Proof.
  induction markers as [|m markers (t & b & Heq & Hb)].
  - exists [], false. split; [reflexivity|].
    split; [discriminate|intros (r & [] & _)].
  - cbn [excludeFile_loop]. unfold bind, try_catch, await, ret.
    destruct (fsp_access W (Path.join [absoluteName; m])) as [u|e] eqn:Ha.
    + eexists _, true. split; [reflexivity|].
      split; [|reflexivity]. intros _. exists m.
      split; [left; reflexivity|]. exists u. exact Ha.
    + rewrite Heq. eexists _, b. split; [reflexivity|].
      rewrite Hb. split.
      * intros (r & Hin & Hf). exists r. split; [right; exact Hin|exact Hf].
      * intros (r & [<-|Hin] & Hf); [|eauto].
        destruct Hf as (u & Hu). congruence.
Qed.

(** The loop over a listing in two parts, when no cover probe can leave it
    early: the second part goes on from the snapshot of the first. *)
Lemma scanEntries_app self s (rel abs : string) (pre rest : list string) :
  is_strictly_true (coverOnly s) = false ->
  forall d,
    scanEntries W self s rel abs (pre ++ rest) d
    = (let* d1 := scanEntries W self s rel abs pre d in
       scanEntries W self s rel abs rest d1).
Proof.
  intros Hc. induction pre as [|f pre IH]; intros d.
  - cbn [app scanEntries]. unfold bind, ret.
    destruct (scanEntries W self s rel abs rest d). reflexivity.
  - cbn [app scanEntries]. unfold bind.
    destruct (scanEntry W self s rel abs f d) as [t1 [[e d1]| |]] eqn:E;
      try reflexivity.
    rewrite (scanEntry_continue _ _ _ _ _ _ _ _ _ Hc E).
    rewrite IH. unfold bind.
    destruct (scanEntries W self s rel abs pre d1) as [t2 [d2| |]];
      try reflexivity.
    destruct (scanEntries W self s rel abs rest d2) as [t3 r3].
    rewrite app_assoc. reflexivity.
Qed.

(** An entry whose iteration leaves the snapshot as it was: the loop ends
    as on the listing without it, and the events of the iteration are
    among those of the loop. *)
Lemma scanEntries_skipped self s (rel abs file : string) (tf : list event) :
  is_strictly_true (coverOnly s) = false ->
  (forall d, scanEntry W self s rel abs file d = (tf, Returned (Continue, d))) ->
  forall (pre post : list string) d (t : list event) d1,
    scanEntries W self s rel abs (pre ++ post) d = (t, Returned d1) ->
    exists t',
      scanEntries W self s rel abs (pre ++ file :: post) d = (t', Returned d1)
      /\ forall ev, In ev tf -> In ev t'.
Proof.
  intros Hc Hskip pre post d t d1 H.
  rewrite scanEntries_app in H |- * by assumption.
  unfold bind in H |- *.
  destruct (scanEntries W self s rel abs pre d) as [t1 [d2| |]];
    try discriminate.
  cbn [scanEntries]. rewrite Hskip. unfold bind.
  destruct (scanEntries W self s rel abs post d2) as [t2 r2].
  inversion H; subst. eexists. split; [reflexivity|].
  intros ev Hev. apply in_or_app. right. apply in_or_app. left. exact Hev.
Qed.

(** An entry whose iteration throws: the loop does not return, and it
    throws that exception when the entries before it are processed. *)
Lemma scanEntries_thrown self s (rel abs file : string) (tf : list event)
    (e : exn) :
  is_strictly_true (coverOnly s) = false ->
  (forall d, scanEntry W self s rel abs file d = (tf, Thrown e)) ->
  forall (pre post : list string) d,
    (forall d1, result (scanEntries W self s rel abs (pre ++ file :: post) d)
                <> Returned d1)
    /\ (forall d1,
          result (scanEntries W self s rel abs pre d) = Returned d1 ->
          result (scanEntries W self s rel abs (pre ++ file :: post) d)
          = Thrown e).
Proof.
  intros Hc Hthrow pre post d.
  rewrite scanEntries_app by assumption. unfold bind, result.
  destruct (scanEntries W self s rel abs pre d) as [t1 [d2| |]]; cbn [snd].
  - cbn [scanEntries]. rewrite Hthrow. unfold bind. cbn [snd].
    split; [discriminate|reflexivity].
  - split; discriminate.
  - split; discriminate.
Qed.

(** [scanDirectory] on a directory that it can list: the loop decides. *)
Lemma scanDirectory_listing (fuel : nat) (rel : string) s (st : Stats)
    (files : list string) :
  fsp_stat W (absolute_of W rel) = Resolved st ->
  nothing_to_scan s = false ->
  fsp_readdir W (absolute_of W rel) = Resolved files ->
  scanDirectory W (S fuel) rel s
  = (EvStat (absolute_of W rel) :: EvReaddir (absolute_of W rel)
       :: trace (scanEntries W (scanDirectory W fuel) s (normalizeDirPath rel)
                   (absolute_of W rel) files (initial_snapshot W rel st)),
     map_outcome (set_counts W)
       (result (scanEntries W (scanDirectory W fuel) s (normalizeDirPath rel)
                  (absolute_of W rel) files (initial_snapshot W rel st)))).
Proof.
  intros Hst Hn Hrd. rewrite scanDirectory_unfold.
  unfold bind, await, ret. rewrite Hst, Hn, Hrd.
  destruct (scanEntries _ _ _ _ _ _ _) as [t' [d'| |]];
    cbn [trace result fst snd map_outcome app]; rewrite ?app_nil_r;
    reflexivity.
Qed.

End ScannerFacts.

Section Claims.

Context {Metadata : Type} (W : World Metadata).

(** C6. With [noPhoto], [noMetaFile] and [noVideo] all set, [scanDirectory]
    performs no I/O besides the [stat] of the directory itself (in
    particular no [readdir] and nothing per entry), and for every directory
    whose [stat] succeeds it returns an empty but valid snapshot: empty
    media, sidecar and children lists, no cover and all counts zero. *)
Theorem scanDirectory_nothing_to_scan (fuel : nat) (rel : string)
    (s : DirectoryScanSettings) :
  noPhoto s = Some true -> noMetaFile s = Some true -> noVideo s = Some true ->
  trace (scanDirectory W (S fuel) rel s) = [EvStat (absolute_of W rel)]
  /\ (forall p, ~ In (EvReaddir p) (trace (scanDirectory W (S fuel) rel s)))
  /\ forall st,
       fsp_stat W (absolute_of W rel) = Resolved st ->
       exists d,
         result (scanDirectory W (S fuel) rel s) = Returned d
         /\ media d = [] /\ metaFile d = [] /\ directories d = []
         /\ mediaCount d = 0 /\ videoCount d = 0 /\ directoryCount d = 0
         /\ cover d = None /\ isPartial d = false.
Proof.
  intros Hp Hm Hv.
  assert (nothing_to_scan s = true) as Hn
    by (unfold nothing_to_scan; rewrite Hp, Hm, Hv; reflexivity).
  rewrite scanDirectory_unfold, Hn. unfold bind, await, ret.
  destruct (fsp_stat W (absolute_of W rel)) as [st|e]; cbn [trace result fst snd].
  - repeat split.
    + intros p [H|[]]. discriminate.
    + intros st' Hst. inversion Hst; subst.
      eexists. repeat split; reflexivity.
  - repeat split.
    + intros p [H|[]]. discriminate.
    + intros st' Hst. discriminate.
Qed.

(** C8. [scanDirectory] returns or throws (two levels of recursion are all
    it uses), and every child snapshot in the [directories] list of a
    snapshot that it returns is partial: [isPartial = true] and
    [lastScanned = 0]. *)
Theorem scanDirectory_children_partial (fuel : nat) (rel : string)
    (s : DirectoryScanSettings) :
  result (scanDirectory W (S (S fuel)) rel s) <> OutOfFuel
  /\ forall (n : nat) (t : list event) (d : DirectoryDTO Metadata),
       scanDirectory W n rel s = (t, Returned d) ->
       Forall (fun c => isPartial c = true /\ lastScanned c = 0%Z)
         (directories d).
Proof.
  split; [apply scanDirectory_total|].
  intros n t d H. destruct n as [|n]; [discriminate|].
  apply scanDirectory_returned in H
    as (st & _ & [(_ & -> & _)|(_ & files & t' & d' & _ & Hloop & -> & _)]).
  - constructor.
  - cbn [set_counts directories].
    refine (scanEntries_invariant W
              (fun x => Forall (fun c => isPartial c = true /\ lastScanned c = 0%Z)
                          (directories x))
              _ _ _ _ _ _ _ _ _ _ Hloop); [|constructor].
    intros file d0 t0 e d1 _ Hd0 Hstep.
    apply scanEntry_effect in Hstep.
    destruct Hstep; cbn [directories push_directory incr_directoryCount
                         push_media push_metaFile]; try assumption.
    + apply Forall_app. split; [assumption|].
      constructor; [split; reflexivity|constructor].
    + unfold with_cover. destruct (cover d0); assumption.
Qed.

(** C10. [scanDirectoryNoMetadata] assigns [noMetadata = true] to the very
    settings object it is given: after the call the caller's object has the
    field set (the other fields and the other objects are untouched), the
    scan ran with it, and a later call of [scanDirectory] with the same
    object scans without metadata too. *)
Theorem scanDirectoryNoMetadata_mutates_settings (fuel : nat)
    (heap : gmap loc DirectoryScanSettings) (rel : string) (l : loc)
    (s0 : DirectoryScanSettings) :
  heap !! l = Some s0 ->
  let heap' := fst (scanDirectoryNoMetadata W fuel heap rel (Some l)) in
  heap' !! l = Some (set_noMetadata (Some true) s0)
  /\ (forall l', l' <> l -> heap' !! l' = heap !! l')
  /\ snd (scanDirectoryNoMetadata W fuel heap rel (Some l))
     = scanDirectory W fuel rel (set_noMetadata (Some true) s0)
  /\ forall fuel' rel',
       scanDirectory_ref W fuel' heap' rel' l
       = scanDirectory W fuel' rel' (set_noMetadata (Some true) s0).
Proof.
  intros Hl. unfold scanDirectoryNoMetadata. rewrite Hl. cbn [fst snd].
  assert (alter (set_noMetadata (Some true)) l heap !! l
          = Some (set_noMetadata (Some true) s0)) as Hl'
    by (rewrite lookup_alter_eq, Hl; reflexivity).
  repeat split.
  - exact Hl'.
  - intros l' Hne. apply lookup_alter_ne. congruence.
  - unfold scanDirectory_ref. rewrite Hl'. reflexivity.
  - intros fuel' rel'. unfold scanDirectory_ref. rewrite Hl'. reflexivity.
Qed.

(** C1 (amended). For every scan of a directory that contains only
    subdirectories, [scanDirectory] returns or throws, and the snapshot it
    returns has no cover and no media of its own, whatever its descendants
    hold, and its children are one level of cover probes: each child
    snapshot has [isPartial = true] and [lastScanned = 0], has no children
    of its own (the probe, [scanDirectory] with [coverOnly = true], skips
    subdirectories instead of recursing into them), and its cover, when it
    has one, is a photo of its own media list (an entry that the photo
    registry accepts in the child's directory, one of the subdirectories
    of the listing) with the back-reference to the child itself. *)
Theorem scanDirectory_cover_probe_one_level (fuel : nat) (rel : string)
    (s : DirectoryScanSettings) (files : list string) :
  fsp_readdir W (absolute_of W rel) = Resolved files ->
  (forall file, In file files -> directory_entry W (absolute_of W rel) file) ->
  result (scanDirectory W (S (S fuel)) rel s) <> OutOfFuel
  /\ forall (n : nat) (t : list event) (d : DirectoryDTO Metadata),
       scanDirectory W n rel s = (t, Returned d) ->
       cover d = None
       /\ media d = []
       /\ Forall (fun c => isPartial c = true /\ lastScanned c = 0%Z
                           /\ directories c = [] /\ own_cover c
                           /\ exists file,
                                In file files
                                /\ photo_cover W
                                     (absolute_of W
                                        (Path.join [normalizeDirPath rel; file]))
                                     c)
            (directories d).
Proof.
  intros Hrd Hdirs. split; [apply scanDirectory_total|].
  intros n t d H. destruct n as [|n]; [discriminate|].
  apply scanDirectory_returned in H
    as (st & _ & [(_ & -> & _)|(_ & files' & t' & d' & Hrd' & Hloop & -> & _)]).
  - repeat split; constructor.
  - rewrite Hrd in Hrd'. inversion Hrd'; subst files'. clear Hrd'.
    cbn [set_counts cover media directories].
    refine (scanEntries_invariant W
              (fun x => cover x = None /\ media x = []
                        /\ Forall
                             (fun c =>
                                isPartial c = true
                                /\ lastScanned c = 0%Z
                                /\ directories c = []
                                /\ own_cover c
                                /\ exists file,
                                     In file files
                                     /\ photo_cover W
                                          (absolute_of W
                                             (Path.join
                                                [normalizeDirPath rel; file]))
                                          c)
                             (directories x))
              _ _ _ _ _ _ _ _ _ _ Hloop);
      [|repeat split; constructor].
    intros file d0 t0 e d1 Hin (Hc & Hm & Hch) Hstep.
    destruct (scanEntry_directory_entry W _ _ _ _ _ _ _ _ _ (Hdirs _ Hin) Hstep)
      as [Hc1 Hm1].
    split; [congruence|]. split; [congruence|].
    apply scanEntry_effect in Hstep.
    destruct Hstep as [| |tp c Hco Hp| | |];
      cbn [directories push_directory incr_directoryCount
           push_media push_metaFile]; try assumption.
    + apply Forall_app. split; [assumption|].
      constructor; [|constructor].
      destruct (probe_snapshot W _ _ coverOnlySettings _ _ eq_refl Hp)
        as [Hp1 Hp2].
      destruct (scan_cover_first_photo W _ _ _ _ _ Hp) as [_ Hfirst].
      split; [reflexivity|]. split; [reflexivity|].
      split; [exact Hp1|]. split; [exact Hp2|].
      exists file. split; [exact Hin|].
      unfold photo_cover. cbn [mark_partial cover media path name].
      rewrite Hfirst.
      destruct (List.find _ (media c)) as [m|] eqn:Ef; [|exact I].
      apply find_some in Ef as [Hmin Hphoto].
      exists m. repeat split; assumption.
    + unfold with_cover. destruct (cover d0); assumption.
Qed.

(** C2 (amended). [scanDirectoryNoMetadata] returns or throws, and in the
    snapshot that it returns every entry of the snapshot's own media list
    and its cover have [metadata = null]; the partial child snapshots are
    produced by probes that are given [{coverOnly: true}] only, so every
    media entry and every cover inside them carries the metadata the loader
    returned ([metadata] is not [null]). *)
Theorem scanDirectoryNoMetadata_metadata (fuel : nat)
    (heap : gmap loc DirectoryScanSettings) (rel : string) (ref : option loc) :
  result (snd (scanDirectoryNoMetadata W (S (S fuel)) heap rel ref)) <> OutOfFuel
  /\ forall (n : nat) (t : list event) (d : DirectoryDTO Metadata),
       snd (scanDirectoryNoMetadata W n heap rel ref) = (t, Returned d) ->
       Forall (fun m => m_metadata m = None) (media d)
       /\ (forall c, cover d = Some c -> m_metadata c = None)
       /\ Forall (fun child =>
                    Forall (fun m => m_metadata m <> None) (media child)
                    /\ forall c, cover child = Some c -> m_metadata c <> None)
            (directories d).
Proof.
  split.
  - unfold scanDirectoryNoMetadata, scanDirectory_ref.
    destruct ref as [l|].
    + destruct (heap !! l) as [s0|] eqn:Hl; cbn [snd]; [|discriminate].
      rewrite lookup_alter_eq, Hl. apply scanDirectory_total.
    + rewrite lookup_insert_eq. cbn [snd].
      rewrite lookup_alter_eq, lookup_insert_eq. apply scanDirectory_total.
  - intros n t d H. apply scanDirectoryNoMetadata_runs in H as (s' & Hs' & H).
    pose proof (scan_metadata W (fun md => md = None) _ _ _ _ _
                  ltac:(intros load md Hl; unfold loaded_metadata in Hl;
                        rewrite Hs' in Hl; exact Hl) H) as [Hm Hc].
    repeat split; try assumption.
    eapply children_metadata. eassumption.
Qed.


(** C3 (amended). For every scan, a subdirectory that the Exclusion Filter
    rejects is not visited: its iteration performs the [stat] of the entry
    and the filter's marker-file probes and nothing else (no recursive scan,
    no listing), and it leaves the snapshot as it was but for
    [directoryCount], which it increments. Against the same listing without
    that subdirectory, the media and children lists and the counts
    [mediaCount] and [videoCount] are the same and [directoryCount] is one
    more: the excluded subdirectory contributes zero to the media counts
    and one to the count of directories. *)
Theorem excluded_directory_contribution
    (self : string -> DirectoryScanSettings -> M (DirectoryDTO Metadata))
    (s : DirectoryScanSettings) (rel abs file : string) (st : Stats)
    (tx : list event) :
  fsp_stat W (full_path abs file) = Resolved st -> isDirectory st = true ->
  is_strictly_true (noDirectory s) = false ->
  is_strictly_true (coverOnly s) = false ->
  excludeDir W file rel abs = (tx, Returned true) ->
  (forall d,
     scanEntry W self s rel abs file d
     = (EvStat (full_path abs file) :: tx,
        Returned (Continue, incr_directoryCount d)))
  /\ Forall (fun ev => exists marker,
               In marker (excludeFileList W)
               /\ ev = EvAccess (Path.join [full_path abs file; marker])) tx
  /\ forall pre post d d1,
       result (scanEntries W self s rel abs (pre ++ post) d) = Returned d1 ->
       exists d2,
         result (scanEntries W self s rel abs (pre ++ file :: post) d)
         = Returned d2
         /\ media d2 = media d1
         /\ directories d2 = directories d1
         /\ mediaCount (set_counts W d2) = mediaCount (set_counts W d1)
         /\ videoCount (set_counts W d2) = videoCount (set_counts W d1)
         /\ directoryCount (set_counts W d2)
            = S (directoryCount (set_counts W d1)).
Proof.
  intros Hst Hdir Hnd Hc Hex. split; [|split].
  - intros d. eapply scanEntry_excluded; eassumption.
  - pose proof (excludeDir_trace W file rel abs) as Ht.
    rewrite Hex in Ht. exact Ht.
  - intros pre post d d1 H.
    rewrite (scanEntries_excluded W self s rel abs file st tx post
               Hst Hdir Hnd Hc Hex pre d), H.
    exists (incr_directoryCount d1). repeat split.
Qed.

(** C5. [scanDirectory] recovers a video metadata-extraction failure
    locally and lets a photo's propagate, in any directory. When a scan
    that loads videos (videos enabled, no [noVideo], [noMetadata] or
    [coverOnly]) meets a video whose extraction throws, among entries of any
    kind, it skips it: whenever the listing without that video scans to a
    snapshot, the listing with it scans to the same snapshot, and the
    warning is in the log. In a directory that lists videos only, the scan
    returns, the media list holds the videos whose metadata loads, in
    listing order, [videoCount] counts them and each failing one is logged
    (3 loadable videos and 1 failing one give [videoCount = 3]). When a
    scan that loads photos meets a photo whose extraction throws, among
    entries of any kind, it never returns a snapshot: it throws, and it
    throws that exception when the entries in front of the photo are
    processed. *)
Theorem video_failure_skipped_photo_failure_thrown (fuel : nat) (rel : string)
    (s : DirectoryScanSettings) (st : Stats) :
  fsp_stat W (absolute_of W rel) = Resolved st ->
  is_strictly_true (coverOnly s) = false ->
  is_strictly_true (noMetadata s) = false ->
  (Video_enabled W = true ->
   is_strictly_true (noVideo s) = false ->
   (forall pre file post e d1,
      fsp_readdir W (absolute_of W rel) = Resolved (pre ++ file :: post) ->
      video_file W (absolute_of W rel) file ->
      loadVideoMetadata W (full_path (absolute_of W rel) file) = Rejected e ->
      result (scanEntries W (scanDirectory W fuel) s (normalizeDirPath rel)
                (absolute_of W rel) (pre ++ post) (initial_snapshot W rel st))
      = Returned d1 ->
      exists t,
        scanDirectory W (S fuel) rel s = (t, Returned (set_counts W d1))
        /\ In (skip_warning file e) t)
   /\ (forall files,
         fsp_readdir W (absolute_of W rel) = Resolved files ->
         (forall f, In f files -> video_file W (absolute_of W rel) f) ->
         (forall m, In m (loaded_videos W (absolute_of W rel) files) ->
                    MediaDTOUtils_isVideo W m = true) ->
         exists t d,
           scanDirectory W (S fuel) rel s = (t, Returned d)
           /\ media d = loaded_videos W (absolute_of W rel) files
           /\ mediaCount d
              = List.length (loaded_videos W (absolute_of W rel) files)
           /\ videoCount d
              = List.length (loaded_videos W (absolute_of W rel) files)
           /\ forall f e,
                In f files ->
                loadVideoMetadata W (full_path (absolute_of W rel) f)
                = Rejected e ->
                In (skip_warning f e) t))
  /\ (is_strictly_true (noPhoto s) = false ->
      forall pre photo post e,
        fsp_readdir W (absolute_of W rel) = Resolved (pre ++ photo :: post) ->
        photo_file W (absolute_of W rel) photo ->
        loadPhotoMetadata W (full_path (absolute_of W rel) photo) = Rejected e ->
        (forall n t d, scanDirectory W n rel s <> (t, Returned d))
        /\ (exists e', result (scanDirectory W (S (S fuel)) rel s) = Thrown e')
        /\ (forall d1,
              result (scanEntries W (scanDirectory W fuel) s
                        (normalizeDirPath rel) (absolute_of W rel) pre
                        (initial_snapshot W rel st))
              = Returned d1 ->
              result (scanDirectory W (S fuel) rel s) = Thrown e)).
Proof.
  intros Hst Hc Hm. split.
  - intros Hen Hnv.
    assert (nothing_to_scan s = false) as Hn
      by (unfold nothing_to_scan; rewrite Hnv; apply andb_false_r).
    split.
    + intros pre file post e d1 Hrd Hvid Hrej Hloop.
      destruct (scanEntries W (scanDirectory W fuel) s (normalizeDirPath rel)
                  (absolute_of W rel) (pre ++ post) (initial_snapshot W rel st))
        as [t0 o0] eqn:E0.
      cbn [result snd] in Hloop. subst o0.
      destruct (scanEntries_skipped W (scanDirectory W fuel) s
                  (normalizeDirPath rel) (absolute_of W rel) file _ Hc
                  (fun d => scanEntry_video_failed W _ s _ _ file d e
                              Hvid Hen Hnv Hc Hm Hrej)
                  pre post _ _ _ E0) as (t' & Heq & Hin).
      rewrite (scanDirectory_listing W fuel rel s st _ Hst Hn Hrd), Heq.
      cbn [trace result fst snd map_outcome].
      eexists. split; [reflexivity|].
      right. right. apply Hin. right. right. left. reflexivity.
    + intros files Hrd Hvid Hisv.
      destruct (scanEntries_videos W (scanDirectory W fuel) s
                  (normalizeDirPath rel) (absolute_of W rel) files []
                  Hen Hnv Hc Hm Hvid (initial_snapshot W rel st))
        as (t & Heq & Hwarn).
      rewrite app_nil_r in Heq. cbn [scanEntries] in Heq.
      unfold ret, trace, result in Heq. cbn [fst snd] in Heq.
      rewrite (scanDirectory_listing W fuel rel s st _ Hst Hn Hrd), Heq.
      cbn [trace result fst snd map_outcome].
      eexists _, _. split; [reflexivity|].
      cbn [set_counts media mediaCount videoCount].
      rewrite media_fold_push. cbn [initial_snapshot media app].
      repeat split.
      * f_equal. apply forallb_filter_id.
        apply forallb_forall. exact Hisv.
      * intros f e Hin Hrej.
        right. right. apply in_or_app. left. eapply Hwarn; eassumption.
  - intros Hnp pre photo post e Hrd Hphoto Hrej.
    assert (nothing_to_scan s = false) as Hn
      by (unfold nothing_to_scan; rewrite Hnp; reflexivity).
    assert (forall n,
              (forall d1,
                 result (scanEntries W (scanDirectory W n) s
                           (normalizeDirPath rel) (absolute_of W rel)
                           (pre ++ photo :: post) (initial_snapshot W rel st))
                 <> Returned d1)
              /\ (forall d1,
                    result (scanEntries W (scanDirectory W n) s
                              (normalizeDirPath rel) (absolute_of W rel) pre
                              (initial_snapshot W rel st))
                    = Returned d1 ->
                    result (scanEntries W (scanDirectory W n) s
                              (normalizeDirPath rel) (absolute_of W rel)
                              (pre ++ photo :: post)
                              (initial_snapshot W rel st))
                    = Thrown e)) as Hloop.
    { intros n.
      apply (scanEntries_thrown W (scanDirectory W n) s (normalizeDirPath rel)
               (absolute_of W rel) photo _ e Hc
               (fun d => scanEntry_photo_failed W _ s _ _ photo d e
                           Hphoto Hnp Hm Hrej)). }
    assert (forall n t d, scanDirectory W n rel s <> (t, Returned d)) as Hnever.
    { intros n t d H. destruct n as [|n]; [discriminate|].
      rewrite (scanDirectory_listing W n rel s st _ Hst Hn Hrd) in H.
      destruct (Hloop n) as [Hno _].
      destruct (result (scanEntries W (scanDirectory W n) s
                          (normalizeDirPath rel) (absolute_of W rel)
                          (pre ++ photo :: post) (initial_snapshot W rel st)))
        as [d2| |] eqn:E; cbn [map_outcome] in H; try discriminate.
      exact (Hno d2 eq_refl). }
    split; [exact Hnever|]. split.
    + pose proof (scanDirectory_total W fuel rel s) as Htot.
      destruct (scanDirectory W (S (S fuel)) rel s) as [t [d|e'|]] eqn:E;
        cbn [result snd] in *.
      * exfalso. exact (Hnever _ _ _ E).
      * exists e'. reflexivity.
      * contradiction.
    + intros d1 Hpre.
      rewrite (scanDirectory_listing W fuel rel s st _ Hst Hn Hrd).
      cbn [result snd]. destruct (Hloop fuel) as [_ Hthrow].
      rewrite (Hthrow d1 Hpre). reflexivity.
Qed.

(** C7 (amended). [excludeDir] always returns, and it returns [true] exactly
    when a name rule matches or a marker file is found. A rule that begins
    with a separator matches the directory whose absolute name equals the
    rule exactly; a rule with a separator inside matches the directory whose
    name relative to the library root equals the rule after
    [path.normalize] (so a rule such as [./rel/sub] or [rel//sub] excludes
    [rel/sub] too); a bare rule matches every directory whose leaf name
    equals it. With the rules [/abs/secret], [rel/sub] and [bare] (and no
    markers) a directory is excluded exactly when its absolute name is
    [/abs/secret], its relative name is [rel/sub] or its leaf name is
    [bare]. *)
Theorem excludeDir_name_rules (name relDir absDir : string) :
  (exists t b,
     excludeDir W name relDir absDir = (t, Returned b)
     /\ (b = true
         <-> (exists rule,
                In rule (excludeFolderList W)
                /\ rule_matches name (Path.normalize (Path.join [relDir; name]))
                     (Path.normalize (Path.join [absDir; name])) rule)
             \/ (exists marker,
                   In marker (excludeFileList W)
                   /\ marker_found W (Path.normalize (Path.join [absDir; name]))
                        marker)))
  /\ (excludeFolderList W = ["/abs/secret"; "rel/sub"; "bare"] ->
      excludeFileList W = [] ->
      (excludeDir W name relDir absDir = ([], Returned true)
       <-> Path.normalize (Path.join [absDir; name]) = "/abs/secret"
           \/ Path.normalize (Path.join [relDir; name]) = "rel/sub"
           \/ name = "bare")
      /\ (excludeDir W name relDir absDir = ([], Returned true)
          \/ excludeDir W name relDir absDir = ([], Returned false))).
Proof.
  assert (exists t b,
     excludeDir W name relDir absDir = (t, Returned b)
     /\ (b = true
         <-> (exists rule,
                In rule (excludeFolderList W)
                /\ rule_matches name (Path.normalize (Path.join [relDir; name]))
                     (Path.normalize (Path.join [absDir; name])) rule)
             \/ (exists marker,
                   In marker (excludeFileList W)
                   /\ marker_found W (Path.normalize (Path.join [absDir; name]))
                        marker))) as Hgen.
  { unfold excludeDir.
    destruct (excludeFolderList W) as [|r rules] eqn:Er.
    - destruct (excludeFileList W) as [|m markers] eqn:Em.
      + exists [], false. split; [reflexivity|].
        split; [discriminate|]. intros [(x & [] & _)|(x & [] & _)].
      + cbn [List.length Nat.eqb andb excludeFolder_loop].
        destruct (excludeFile_loop_spec W
                    (Path.normalize (Path.join [absDir; name])) (m :: markers))
          as (t & b & Heq & Hb).
        exists t, b. split; [exact Heq|]. rewrite Hb.
        split; [auto|]. intros [(x & [] & _)|H]; exact H.
    - cbn [List.length Nat.eqb andb].
      destruct (excludeFolder_loop _ _ _ (r :: rules)) eqn:El.
      + exists [], true. split; [reflexivity|]. split; [|reflexivity].
        intros _. left. apply excludeFolder_loop_spec. exact El.
      + destruct (excludeFile_loop_spec W
                    (Path.normalize (Path.join [absDir; name]))
                    (excludeFileList W)) as (t & b & Heq & Hb).
        exists t, b. split; [exact Heq|]. rewrite Hb.
        split; [auto|]. intros [H|H]; [|exact H].
        apply excludeFolder_loop_spec in H. congruence. }
  split; [exact Hgen|].
  intros Hrules Hmarkers.
  unfold excludeDir. rewrite Hrules, Hmarkers.
  cbn [List.length Nat.eqb andb excludeFolder_loop startsWith includes
       String.prefix String.index excludeFile_loop].
  change (Path.normalize "rel/sub") with "rel/sub".
  destruct (String.eqb_spec "/abs/secret"
              (Path.normalize (Path.join [absDir; name]))) as [Ha|Ha].
  { split; [|left; reflexivity]. split; auto. }
  destruct (String.eqb_spec "rel/sub"
              (Path.normalize (Path.join [relDir; name]))) as [Hr|Hr].
  { split; [|left; reflexivity]. split; auto. }
  destruct (String.eqb_spec "bare" name) as [Hb|Hb].
  { split; [|left; reflexivity]. split; auto. }
  split; [|right; reflexivity].
  split; [discriminate|].
  intros [H|[H|H]]; congruence.
Qed.

End Claims.

(** ** The claims at concrete inputs *)

Lemma scanDirectory_nothing_to_scan_witness :
  (noPhoto Fixture.nothing_settings = Some true
   /\ noMetaFile Fixture.nothing_settings = Some true
   /\ noVideo Fixture.nothing_settings = Some true
   /\ fsp_stat (Fixture.world Fixture.mixed_table [] [] [])
        (absolute_of (Fixture.world Fixture.mixed_table [] [] []) "")
      = Resolved (mkStats true 30 25))
  /\ trace (scanDirectory (Fixture.world Fixture.mixed_table [] [] []) 1 ""
              Fixture.nothing_settings)
     = [EvStat (absolute_of (Fixture.world Fixture.mixed_table [] [] []) "")]
  /\ exists d,
       result (scanDirectory (Fixture.world Fixture.mixed_table [] [] []) 1 ""
                 Fixture.nothing_settings)
       = Returned d
       /\ media d = [] /\ metaFile d = [] /\ directories d = []
       /\ mediaCount d = 0 /\ videoCount d = 0 /\ directoryCount d = 0
       /\ cover d = None /\ isPartial d = false.
Proof.
  assert (fsp_stat (Fixture.world Fixture.mixed_table [] [] [])
            (absolute_of (Fixture.world Fixture.mixed_table [] [] []) "")
          = Resolved (mkStats true 30 25)) as Hst by (vm_compute; reflexivity).
  split; [repeat split; reflexivity || exact Hst|].
  destruct (scanDirectory_nothing_to_scan
              (Fixture.world Fixture.mixed_table [] [] []) 0 ""
              Fixture.nothing_settings eq_refl eq_refl eq_refl)
    as (Htrace & _ & Hret).
  split; [exact Htrace|exact (Hret _ Hst)].
Defined.

Lemma scanDirectory_children_partial_witness :
  scanDirectory (Fixture.world Fixture.shallow_table [] [] []) 2 "" emptySettings
  = (trace Fixture.shallow_scan, Returned Fixture.shallow_snapshot)
  /\ List.length (directories Fixture.shallow_snapshot) = 1
  /\ Forall (fun c => isPartial c = true /\ lastScanned c = 0%Z)
       (directories Fixture.shallow_snapshot).
Proof.
  assert (scanDirectory (Fixture.world Fixture.shallow_table [] [] []) 2 ""
            emptySettings
          = (trace Fixture.shallow_scan, Returned Fixture.shallow_snapshot)) as H
    by (vm_compute; reflexivity).
  split; [exact H|]. split; [reflexivity|].
  exact (proj2 (scanDirectory_children_partial
                  (Fixture.world Fixture.shallow_table [] [] []) 0 ""
                  emptySettings)
           2 (trace Fixture.shallow_scan) Fixture.shallow_snapshot H).
Defined.

Lemma scanDirectoryNoMetadata_mutates_settings_witness :
  let W := Fixture.world Fixture.shallow_table [] [] [] in
  let heap : gmap loc DirectoryScanSettings := {[ 1%positive := emptySettings ]} in
  heap !! 1%positive = Some emptySettings
  /\ noMetadata <$> (fst (scanDirectoryNoMetadata W 2 heap "" (Some 1%positive))
                     !! 1%positive)
     = Some (Some true).
Proof.
  cbv zeta.
  assert ((({[ 1%positive := emptySettings ]} : gmap loc DirectoryScanSettings)
           !! 1%positive) = Some emptySettings) as Hl
    by (vm_compute; reflexivity).
  split; [exact Hl|].
  destruct (scanDirectoryNoMetadata_mutates_settings
              (Fixture.world Fixture.shallow_table [] [] []) 2
              {[ 1%positive := emptySettings ]} "" 1%positive emptySettings
              Hl) as [H _].
  cbv zeta in H. rewrite H. reflexivity.
Defined.

(** C1 as stated fails: in the library [/lib/a/b/p.jpg], where the only
    photo lies two levels below the scan root, the root gets no cover, and
    neither does the snapshot of [a], which has no children. *)
Lemma cover_not_propagated :
  scanDirectory (Fixture.world Fixture.deep_table [] [] []) 3 "" emptySettings
  = (trace Fixture.deep_scan, Returned Fixture.deep_snapshot)
  /\ Fixture.resolve Fixture.deep_table "/lib/a/b/p.jpg" = Some Fixture.FileNode
  /\ Fixture.has_extension Fixture.photo_exts "/lib/a/b/p.jpg" = true
  /\ cover Fixture.deep_snapshot = None
  /\ map name (directories Fixture.deep_snapshot) = ["a"]
  /\ map cover (directories Fixture.deep_snapshot) = [None]
  /\ map directories (directories Fixture.deep_snapshot) = [[]].
Proof. vm_compute. repeat split; reflexivity. Qed.

Lemma scanDirectory_cover_probe_one_level_witness :
  let W := Fixture.world Fixture.shallow_table [] [] [] in
  let d := Fixture.shallow_snapshot in
  (fsp_readdir W (absolute_of W "") = Resolved ["a"]
   /\ (forall file, In file ["a"] ->
                    directory_entry W (absolute_of W "") file)
   /\ scanDirectory W 2 "" emptySettings
      = (trace Fixture.shallow_scan, Returned d))
  /\ map (fun c => option_map m_name (cover c)) (directories d)
     = [Some "p.jpg"]
  /\ cover d = None
  /\ media d = []
  /\ Forall (fun c => isPartial c = true /\ lastScanned c = 0%Z
                      /\ directories c = [] /\ own_cover c
                      /\ exists file,
                           In file ["a"]
                           /\ photo_cover W
                                (absolute_of W
                                   (Path.join [normalizeDirPath ""; file]))
                                c)
       (directories d).
Proof.
  cbv zeta.
  assert (fsp_readdir (Fixture.world Fixture.shallow_table [] [] [])
            (absolute_of (Fixture.world Fixture.shallow_table [] [] []) "")
          = Resolved ["a"]) as Hrd by (vm_compute; reflexivity).
  assert (forall file, In file ["a"] ->
            directory_entry (Fixture.world Fixture.shallow_table [] [] [])
              (absolute_of (Fixture.world Fixture.shallow_table [] [] []) "")
              file)
    as Hdirs.
  { intros file [<-|[]]. exists (mkStats true 30 25).
    split; vm_compute; reflexivity. }
  assert (scanDirectory (Fixture.world Fixture.shallow_table [] [] []) 2 ""
            emptySettings
          = (trace Fixture.shallow_scan, Returned Fixture.shallow_snapshot))
    as Hscan by (vm_compute; reflexivity).
  split; [split; [exact Hrd|split; [exact Hdirs|exact Hscan]]|].
  split; [reflexivity|].
  exact (proj2 (scanDirectory_cover_probe_one_level
                  (Fixture.world Fixture.shallow_table [] [] []) 0 ""
                  emptySettings ["a"] Hrd Hdirs)
           2 (trace Fixture.shallow_scan) Fixture.shallow_snapshot Hscan).
Defined.

(** C2 as stated fails: the metadata-free scan of the library [/lib/a/p.jpg]
    returns a child snapshot for [a] whose media entry and cover carry the
    loaded metadata. *)
Lemma child_media_keep_metadata :
  snd (scanDirectoryNoMetadata (Fixture.world Fixture.shallow_table [] [] []) 2
         {[ 1%positive := emptySettings ]} "" (Some 1%positive))
  = (trace Fixture.shallow_bare_scan, Returned Fixture.shallow_bare_snapshot)
  /\ map (fun c => map m_metadata (media c))
       (directories Fixture.shallow_bare_snapshot)
     = [[Some "/lib/a/p.jpg"]]
  /\ map (fun c => option_map m_metadata (cover c))
       (directories Fixture.shallow_bare_snapshot)
     = [Some (Some "/lib/a/p.jpg")].
Proof. vm_compute. repeat split; reflexivity. Qed.

Lemma scanDirectoryNoMetadata_metadata_witness :
  snd (scanDirectoryNoMetadata (Fixture.world Fixture.shallow_table [] [] []) 2
         {[ 1%positive := emptySettings ]} "" (Some 1%positive))
  = (trace Fixture.shallow_bare_scan, Returned Fixture.shallow_bare_snapshot)
  /\ Forall (fun m => m_metadata m = None) (media Fixture.shallow_bare_snapshot)
  /\ (forall c, cover Fixture.shallow_bare_snapshot = Some c ->
                m_metadata c = None)
  /\ Forall (fun child =>
               Forall (fun m => m_metadata m <> None) (media child)
               /\ forall c, cover child = Some c -> m_metadata c <> None)
       (directories Fixture.shallow_bare_snapshot).
Proof.
  assert (snd (scanDirectoryNoMetadata
                 (Fixture.world Fixture.shallow_table [] [] []) 2
                 {[ 1%positive := emptySettings ]} "" (Some 1%positive))
          = (trace Fixture.shallow_bare_scan,
             Returned Fixture.shallow_bare_snapshot)) as H
    by (vm_compute; reflexivity).
  split; [exact H|].
  exact (proj2 (scanDirectoryNoMetadata_metadata
                  (Fixture.world Fixture.shallow_table [] [] []) 0
                  {[ 1%positive := emptySettings ]} "" (Some 1%positive))
           2 (trace Fixture.shallow_bare_scan) Fixture.shallow_bare_snapshot H).
Defined.



(** C3 as stated fails: under the rule [bare], the scan of a directory whose
    only subdirectory is [bare] does not visit it and counts none of its
    media, yet returns [directoryCount = 1]. *)
Lemma excluded_directory_is_counted :
  result (excludeDir (Fixture.world Fixture.excluded_table ["bare"] [] [])
            "bare" "./" "/lib/")
  = Returned true
  /\ scanDirectory (Fixture.world Fixture.excluded_table ["bare"] [] []) 2 ""
       emptySettings
     = (trace Fixture.excluded_scan, Returned Fixture.excluded_snapshot)
  /\ directories Fixture.excluded_snapshot = []
  /\ mediaCount Fixture.excluded_snapshot = 1
  /\ directoryCount Fixture.excluded_snapshot = 1.
Proof. vm_compute. repeat split; reflexivity. Qed.

Lemma excluded_directory_contribution_witness :
  let W := Fixture.world Fixture.excluded_table ["bare"] [] [] in
  (fsp_stat W (full_path "/lib/" "bare") = Resolved (mkStats true 30 25)
   /\ is_strictly_true (noDirectory emptySettings) = false
   /\ is_strictly_true (coverOnly emptySettings) = false
   /\ excludeDir W "bare" "./" "/lib/" = ([], Returned true))
  /\ scanEntry W (scanDirectory W 1) emptySettings "./" "/lib/" "bare"
       Fixture.no_snapshot
     = ([EvStat (full_path "/lib/" "bare")],
        Returned (Continue, incr_directoryCount Fixture.no_snapshot)).
Proof.
  cbv zeta.
  assert (fsp_stat (Fixture.world Fixture.excluded_table ["bare"] [] [])
            (full_path "/lib/" "bare") = Resolved (mkStats true 30 25)) as Hst
    by (vm_compute; reflexivity).
  assert (excludeDir (Fixture.world Fixture.excluded_table ["bare"] [] [])
            "bare" "./" "/lib/" = ([], Returned true)) as Hex
    by (vm_compute; reflexivity).
  split; [repeat split; assumption|].
  exact (proj1 (excluded_directory_contribution
                  (Fixture.world Fixture.excluded_table ["bare"] [] [])
                  (scanDirectory
                     (Fixture.world Fixture.excluded_table ["bare"] [] []) 1)
                  emptySettings "./" "/lib/" "bare" (mkStats true 30 25) []
                  Hst eq_refl eq_refl eq_refl Hex)
           Fixture.no_snapshot).
Defined.

Lemma video_failure_skipped_photo_failure_thrown_witness :
  (fsp_stat (Fixture.world Fixture.videos_table [] [] ["/lib/bad.mp4"]) "/lib/"
   = Resolved (mkStats true 30 25)
   /\ fsp_readdir (Fixture.world Fixture.videos_table [] [] ["/lib/bad.mp4"])
        "/lib/"
      = Resolved ["a.mp4"; "bad.mp4"; "b.mp4"; "c.mp4"]
   /\ Forall (video_file
                (Fixture.world Fixture.videos_table [] [] ["/lib/bad.mp4"])
                "/lib/")
        ["a.mp4"; "bad.mp4"; "b.mp4"; "c.mp4"])
  /\ (exists t d,
        scanDirectory (Fixture.world Fixture.videos_table [] [] ["/lib/bad.mp4"])
          2 "" emptySettings
        = (t, Returned d)
        /\ map m_name (media d) = ["a.mp4"; "b.mp4"; "c.mp4"]
        /\ videoCount d = 3
        /\ In (skip_warning "bad.mp4"
                 (JsError "Error: cannot read metadata of /lib/bad.mp4")) t)
  /\ (fsp_readdir (Fixture.world Fixture.album_table [] [] ["/lib/v.mp4"])
        "/lib/"
      = Resolved (["sub"; "p.jpg"] ++ "v.mp4" :: ["track.gpx"; "notes.txt"])
      /\ exists t d,
           scanDirectory (Fixture.world Fixture.album_table [] [] ["/lib/v.mp4"])
             2 "" emptySettings
           = (t, Returned d)
           /\ map m_name (media d) = ["p.jpg"]
           /\ map f_name (metaFile d) = ["track.gpx"]
           /\ map name (directories d) = ["sub"]
           /\ In (skip_warning "v.mp4"
                    (JsError "Error: cannot read metadata of /lib/v.mp4")) t)
  /\ (fsp_readdir
        (Fixture.world Fixture.second_photo_table [] [] ["/lib/bad.jpg"])
        "/lib/"
      = Resolved (["p.jpg"] ++ "bad.jpg" :: [])
      /\ option_map m_name (cover FixtureLoops.first_photo_scanned) = Some "p.jpg"
      /\ result (scanDirectory
                   (Fixture.world Fixture.second_photo_table [] []
                      ["/lib/bad.jpg"])
                   2 "" emptySettings)
         = Thrown (JsError "Error: cannot read metadata of /lib/bad.jpg")).
Proof.
  pose (W := Fixture.world Fixture.videos_table [] [] ["/lib/bad.mp4"]).
  pose (files := ["a.mp4"; "bad.mp4"; "b.mp4"; "c.mp4"]).
  assert (absolute_of W "" = "/lib/") as Habs by (vm_compute; reflexivity).
  assert (fsp_stat W "/lib/" = Resolved (mkStats true 30 25)) as Hst
    by (vm_compute; reflexivity).
  assert (fsp_readdir W "/lib/" = Resolved files) as Hrd
    by (vm_compute; reflexivity).
  assert (forall f, existsb (String.eqb f) files = true ->
                    video_file W "/lib/" f) as Hvideo.
  { intros f Hf. unfold files in Hf. cbn [existsb] in Hf.
    repeat (apply orb_prop in Hf as [Hf|Hf];
            [apply String.eqb_eq in Hf; subst f;
             (split; [exists (mkStats false 10 20); split;
                        [vm_compute; reflexivity|reflexivity]
                     |split; vm_compute; reflexivity])|]).
    discriminate. }
  assert (Forall (video_file W "/lib/") files) as Hvid.
  { repeat constructor; apply Hvideo; reflexivity. }
  assert (loaded_videos W "/lib/" files
          = [mkMedia "a.mp4" None (Some "/lib/a.mp4");
             mkMedia "b.mp4" None (Some "/lib/b.mp4");
             mkMedia "c.mp4" None (Some "/lib/c.mp4")]) as Hloaded
    by (vm_compute; reflexivity).
  assert (forall m, In m (loaded_videos W "/lib/" files) ->
                    MediaDTOUtils_isVideo W m = true) as Hisv.
  { rewrite Hloaded. intros m [<-|[<-|[<-|[]]]]; vm_compute; reflexivity. }
  assert (loadVideoMetadata W (full_path "/lib/" "bad.mp4")
          = Rejected (JsError "Error: cannot read metadata of /lib/bad.mp4"))
    as Hbad by (vm_compute; reflexivity).
  split; [repeat split; assumption|].
  split; [|split].
  - pose proof (video_failure_skipped_photo_failure_thrown W 1 ""
                  emptySettings (mkStats true 30 25)) as Hthm.
    rewrite Habs in Hthm.
    destruct (proj2 (proj1 (Hthm Hst eq_refl eq_refl) eq_refl eq_refl)
                files Hrd (proj1 (List.Forall_forall _ _) Hvid) Hisv)
      as (t & d & Hscan & Hmedia & _ & Hvc & Hwarn).
    exists t, d. split; [exact Hscan|]. split; [|split].
    + rewrite Hmedia, Hloaded. reflexivity.
    + rewrite Hvc, Hloaded. reflexivity.
    + apply (Hwarn "bad.mp4"); [right; left; reflexivity|exact Hbad].
  - pose (Wa := Fixture.world Fixture.album_table [] [] ["/lib/v.mp4"]).
    assert (absolute_of Wa "" = "/lib/") as Habsa by (vm_compute; reflexivity).
    assert (fsp_stat Wa "/lib/" = Resolved (mkStats true 30 25)) as Hsta
      by (vm_compute; reflexivity).
    assert (fsp_readdir Wa "/lib/"
            = Resolved (["sub"; "p.jpg"] ++ "v.mp4" :: ["track.gpx"; "notes.txt"]))
      as Hrda by (vm_compute; reflexivity).
    assert (video_file Wa "/lib/" "v.mp4") as Hv.
    { split; [exists (mkStats false 10 20); split;
                [vm_compute; reflexivity|reflexivity]
             |split; vm_compute; reflexivity]. }
    assert (loadVideoMetadata Wa (full_path "/lib/" "v.mp4")
            = Rejected (JsError "Error: cannot read metadata of /lib/v.mp4"))
      as Hbada by (vm_compute; reflexivity).
    assert (result (scanEntries Wa (scanDirectory Wa 1) emptySettings
                      (normalizeDirPath "") "/lib/"
                      (["sub"; "p.jpg"] ++ ["track.gpx"; "notes.txt"])
                      (initial_snapshot Wa "" (mkStats true 30 25)))
            = Returned FixtureLoops.album_without_video) as Hloop
      by (vm_compute; reflexivity).
    split; [exact Hrda|].
    pose proof (video_failure_skipped_photo_failure_thrown Wa 1 ""
                  emptySettings (mkStats true 30 25)) as Hthm.
    rewrite Habsa in Hthm.
    destruct (proj1 (proj1 (Hthm Hsta eq_refl eq_refl) eq_refl eq_refl)
                ["sub"; "p.jpg"] "v.mp4" ["track.gpx"; "notes.txt"] _ _
                Hrda Hv Hbada Hloop)
      as (t & Hscan & Hwarn).
    exists t, (set_counts Wa FixtureLoops.album_without_video).
    split; [exact Hscan|]. repeat split; try reflexivity. exact Hwarn.
  - pose (Wp := Fixture.world Fixture.second_photo_table [] []
                  ["/lib/bad.jpg"]).
    assert (absolute_of Wp "" = "/lib/") as Habsp by (vm_compute; reflexivity).
    assert (fsp_stat Wp "/lib/" = Resolved (mkStats true 30 25)) as Hstp
      by (vm_compute; reflexivity).
    assert (fsp_readdir Wp "/lib/" = Resolved (["p.jpg"] ++ "bad.jpg" :: []))
      as Hrdp by (vm_compute; reflexivity).
    assert (photo_file Wp "/lib/" "bad.jpg") as Hph.
    { split; [exists (mkStats false 10 20); split;
                [vm_compute; reflexivity|reflexivity]
             |vm_compute; reflexivity]. }
    assert (loadPhotoMetadata Wp (full_path "/lib/" "bad.jpg")
            = Rejected (JsError "Error: cannot read metadata of /lib/bad.jpg"))
      as Hbadp by (vm_compute; reflexivity).
    assert (result (scanEntries Wp (scanDirectory Wp 1) emptySettings
                      (normalizeDirPath "") "/lib/" ["p.jpg"]
                      (initial_snapshot Wp "" (mkStats true 30 25)))
            = Returned FixtureLoops.first_photo_scanned) as Hpre
      by (vm_compute; reflexivity).
    split; [exact Hrdp|]. split; [reflexivity|].
    pose proof (video_failure_skipped_photo_failure_thrown Wp 1 ""
                  emptySettings (mkStats true 30 25)) as Hthm.
    rewrite Habsp in Hthm.
    exact (proj2 (proj2 (proj2 (Hthm Hstp eq_refl eq_refl) eq_refl
                           ["p.jpg"] "bad.jpg" [] _ Hrdp Hph Hbadp))
             _ Hpre).
Defined.

(** A photo whose metadata cannot be read, between two videos: the scan
    throws the loader's exception. *)
Example photo_failure_aborts_scan :
  result (scanDirectory
            (Fixture.world Fixture.broken_photo_table [] [] ["/lib/bad.jpg"])
            2 "" emptySettings)
  = Thrown (JsError "Error: cannot read metadata of /lib/bad.jpg").
Proof. vm_compute. reflexivity. Qed.

(** C7 as stated fails for rules with a separator inside: the rule
    [./rel/sub] excludes the directory [sub] of [rel], whose name relative
    to the library root is [rel/sub] and not the rule. *)
Lemma normalized_rule_excludes :
  startsWith "./rel/sub" "/" = false
  /\ includes "./rel/sub" "/" = true
  /\ excludeDir (Fixture.world Fixture.shallow_table ["./rel/sub"] [] [])
       "sub" "rel" "/lib/rel"
     = ([], Returned true)
  /\ Path.normalize (Path.join ["rel"; "sub"]) = "rel/sub"
  /\ "rel/sub" <> "./rel/sub".
Proof. vm_compute. repeat split; try reflexivity. discriminate. Qed.

Lemma excludeDir_name_rules_witness :
  let W := Fixture.world Fixture.shallow_table
             ["/abs/secret"; "rel/sub"; "bare"] [] [] in
  (excludeFolderList W = ["/abs/secret"; "rel/sub"; "bare"]
   /\ excludeFileList W = [])
  /\ excludeDir W "bare" "x/y" "/lib/x/y" = ([], Returned true)
  /\ excludeDir W "sub" "rel" "/lib/rel" = ([], Returned true)
  /\ excludeDir W "sub" "other/rel" "/lib/other/rel" = ([], Returned false)
  /\ excludeDir W "secret" "abs" "/abs" = ([], Returned true)
  /\ excludeDir W "secret" "x/abs" "/lib/x/abs" = ([], Returned false).
Proof.
  cbv zeta.
  set (W := Fixture.world Fixture.shallow_table
              ["/abs/secret"; "rel/sub"; "bare"] [] []).
  split; [split; reflexivity|].
  assert (forall name relDir absDir,
            (excludeDir W name relDir absDir = ([], Returned true)
             <-> Path.normalize (Path.join [absDir; name]) = "/abs/secret"
                 \/ Path.normalize (Path.join [relDir; name]) = "rel/sub"
                 \/ name = "bare")
            /\ (excludeDir W name relDir absDir = ([], Returned true)
                \/ excludeDir W name relDir absDir = ([], Returned false)))
    as Hrule
    by (intros name relDir absDir;
        exact (proj2 (excludeDir_name_rules W name relDir absDir)
                 eq_refl eq_refl)).
  assert (Path.normalize (Path.join ["rel"; "sub"]) = "rel/sub") as Hrel
    by (vm_compute; reflexivity).
  assert (Path.normalize (Path.join ["/abs"; "secret"]) = "/abs/secret") as Habs
    by (vm_compute; reflexivity).
  assert (~ (Path.normalize (Path.join ["/lib/other/rel"; "sub"]) = "/abs/secret"
             \/ Path.normalize (Path.join ["other/rel"; "sub"]) = "rel/sub"
             \/ "sub" = "bare")) as Hno1
    by (vm_compute; intros [H|[H|H]]; discriminate).
  assert (~ (Path.normalize (Path.join ["/lib/x/abs"; "secret"]) = "/abs/secret"
             \/ Path.normalize (Path.join ["x/abs"; "secret"]) = "rel/sub"
             \/ "secret" = "bare")) as Hno2
    by (vm_compute; intros [H|[H|H]]; discriminate).
  split; [|split; [|split; [|split]]].
  - destruct (Hrule "bare" "x/y" "/lib/x/y") as [Hiff _].
    exact (proj2 Hiff (or_intror (or_intror eq_refl))).
  - destruct (Hrule "sub" "rel" "/lib/rel") as [Hiff _].
    exact (proj2 Hiff (or_intror (or_introl Hrel))).
  - destruct (Hrule "sub" "other/rel" "/lib/other/rel") as [Hiff [H|H]];
      [|exact H].
    exfalso. exact (Hno1 (proj1 Hiff H)).
  - destruct (Hrule "secret" "abs" "/abs") as [Hiff _].
    exact (proj2 Hiff (or_introl Habs)).
  - destruct (Hrule "secret" "x/abs" "/lib/x/abs") as [Hiff [H|H]];
      [|exact H].
    exfalso. exact (Hno2 (proj1 Hiff H)).
Defined.

(** * Further facts about the scanner *)

Section Coverage.

Context {Metadata : Type} (W : World Metadata).

Implicit Types (self : string -> DirectoryScanSettings -> M (DirectoryDTO Metadata)).
Implicit Types (d : DirectoryDTO Metadata) (s : DirectoryScanSettings).

(** A loop that returns went through its first iteration. *)
Lemma scanEntries_cons_returned self s (rel abs file : string)
    (rest : list string) d (t : list event) d' :
  scanEntries W self s rel abs (file :: rest) d = (t, Returned d') ->
  exists t1 e d1,
    scanEntry W self s rel abs file d = (t1, Returned (e, d1))
    /\ ((e = Break /\ d' = d1 /\ t = t1)
        \/ (e = Continue
            /\ exists t2, scanEntries W self s rel abs rest d1 = (t2, Returned d')
                          /\ t = t1 ++ t2)).
Proof.
  cbn [scanEntries]. unfold bind, ret. intros H.
  destruct (scanEntry W self s rel abs file d) as [t1 [[e d1]| |]] eqn:E;
    try discriminate.
  exists t1, e, d1. split; [reflexivity|].
  destruct e.
  - right. split; [reflexivity|].
    destruct (scanEntries W self s rel abs rest d1) as [t2 r] eqn:E2.
    inversion H; subst. exists t2. split; reflexivity.
  - left. inversion H; subst. rewrite app_nil_r. repeat split.
Qed.

Lemma entry_effect_header self s (rel abs file : string) d e d' :
  entry_effect W self s rel abs file d e d' -> same_header d d'.
Proof.
  intros H. destruct H; unfold same_header, with_cover;
    try destruct (cover d); repeat split.
Qed.

(** X1. The header of a returned snapshot: a scan that returns has read the
    [stat] of its directory, and the snapshot is a full one
    ([isPartial = false]) scanned at the current time, last modified at the
    later of the directory's two time stamps, named after the normalized
    path, with [id] and [parent] left [null]. *)
Theorem scanDirectory_header (fuel : nat) (rel : string)
    (s : DirectoryScanSettings) (t : list event) (d : DirectoryDTO Metadata) :
  scanDirectory W fuel rel s = (t, Returned d) ->
  exists st,
    fsp_stat W (absolute_of W rel) = Resolved st
    /\ isPartial d = false
    /\ lastScanned d = Date_now W
    /\ lastModified d = Z.max (ctime st) (mtime st)
    /\ (ctime st <= lastModified d)%Z /\ (mtime st <= lastModified d)%Z
    /\ name d = dirName (normalizeDirPath rel)
    /\ path d = pathFromRelativeDirName (normalizeDirPath rel)
    /\ id d = None /\ parent d = None.
Proof.
  intros H. destruct fuel as [|fuel]; [discriminate|].
  apply scanDirectory_returned in H
    as (st & Hst & [(_ & -> & _)|(_ & files & t' & d' & _ & Hloop & -> & _)]).
  - exists st. cbn [initial_snapshot isPartial lastScanned lastModified name
                    path id parent]. unfold calcLastModified.
    repeat split; try reflexivity; try assumption; lia.
  - exists st. split; [exact Hst|].
    assert (same_header (initial_snapshot W rel st) d') as Hh.
    { refine (scanEntries_invariant W
                (fun x => same_header (initial_snapshot W rel st) x)
                _ _ _ _ _ _ _ _ _ _ Hloop); [|repeat split].
      intros file d0 t0 e d1 _ Hd0 Hstep.
      apply scanEntry_effect, entry_effect_header in Hstep.
      unfold same_header in *.
      destruct Hd0 as (? & ? & ? & ? & ? & ? & ? & ?).
      destruct Hstep as (? & ? & ? & ? & ? & ? & ? & ?).
      repeat split; congruence. }
    destruct Hh as (Hid & Hpa & Hn & Hp & Hlm & Hls & Hip & _).
    cbn [set_counts isPartial lastScanned lastModified name path id parent].
    rewrite Hid, Hpa, Hn, Hp, Hlm, Hls, Hip.
    cbn [initial_snapshot isPartial lastScanned lastModified name path id
         parent]. unfold calcLastModified.
    repeat split; try reflexivity; lia.
Qed.

Lemma scanDirectory_counts_agree (fuel : nat) (rel : string) s
    (t : list event) d :
  scanDirectory W fuel rel s = (t, Returned d) -> counts_agree W d.
Proof.
  intros H. destruct fuel as [|fuel]; [discriminate|].
  apply scanDirectory_returned in H
    as (st & _ & [(_ & -> & _)|(_ & files & t' & d' & _ & _ & -> & _)]).
  - repeat split. cbn. lia.
  - unfold counts_agree. cbn [set_counts mediaCount videoCount media].
    repeat split. apply filter_length_le.
Qed.

(** X2. The counts agree with the media list, in the snapshot that a scan
    returns and in each of its children: [mediaCount] is the length of the
    media list, [videoCount] is the number of its entries that
    [MediaDTOUtils.isVideo] accepts, and [videoCount <= mediaCount]. *)
Theorem scanDirectory_counts (fuel : nat) (rel : string)
    (s : DirectoryScanSettings) (t : list event) (d : DirectoryDTO Metadata) :
  scanDirectory W fuel rel s = (t, Returned d) ->
  counts_agree W d /\ Forall (counts_agree W) (directories d).
Proof.
  intros H. split; [eapply scanDirectory_counts_agree; eassumption|].
  destruct fuel as [|fuel]; [discriminate|].
  apply scanDirectory_returned in H
    as (st & _ & [(_ & -> & _)|(_ & files & t' & d' & _ & Hloop & -> & _)]).
  - constructor.
  - cbn [set_counts directories].
    refine (scanEntries_invariant W
              (fun x => Forall (counts_agree W) (directories x))
              _ _ _ _ _ _ _ _ _ _ Hloop); [|constructor].
    intros file d0 t0 e d1 _ Hd0 Hstep.
    apply scanEntry_effect in Hstep.
    destruct Hstep; cbn [directories push_directory incr_directoryCount
                         push_media push_metaFile]; try assumption.
    + apply Forall_app. split; [assumption|].
      constructor; [|constructor].
      match goal with
      | Hp : scanDirectory W _ _ _ = _ |- _ =>
          apply scanDirectory_counts_agree in Hp
      end.
      assumption.
    + unfold with_cover. destruct (cover d0); assumption.
Qed.

(** Case analysis along the control flow of a computation in a hypothesis;
    the cover of the snapshot is left alone. *)
Ltac run_cases H :=
  repeat (cbv beta iota zeta in H; cbn [orb andb negb app] in H;
          match type of H with
          | context [match ?x with _ => _ end] =>
              lazymatch x with
              | cover _ => fail
              | context [match _ with _ => _ end] => fail
              | _ => destruct x eqn:?
              end
          end);
  cbv beta iota zeta in H; cbn [orb andb negb app] in H;
  repeat match goal with
         | E : _ || _ = false |- _ => apply orb_false_elim in E as [? ?]
         end.

Ltac unfold_io H :=
  unfold metadata_of, await, try_catch, tell, throw, bind, ret in H.

(** Case analysis of an iteration that ended normally. *)
Ltac step_cases H :=
  unfold scanEntry in H;
  match type of H with
  | context [Path.normalize (Path.join [?abs; ?file])] =>
      fold (full_path abs file) in H
  end;
  unfold_io H; run_cases H; try discriminate; inversion H; subst; clear H.

Ltac rewrite_facts :=
  repeat match goal with
         | E : ?x = _ |- context [?x] => rewrite E
         end.

Lemma scanEntry_directory_counts self s (rel abs file : string) d
    (t : list event) e d1 :
  scanEntry W self s rel abs file d = (t, Returned (e, d1)) ->
  directoryCount d1
  = directoryCount d + (if is_directory_entry W abs file then 1 else 0)
  /\ List.length (directories d1)
     = List.length (directories d)
       + (if is_directory_entry W abs file
             && negb (is_strictly_true (noDirectory s))
             && negb (is_strictly_true (coverOnly s))
             && negb (is_excluded W rel abs file)
          then 1 else 0).
Proof.
  intros H. unfold is_directory_entry, is_excluded, result.
  step_cases H;
    repeat match goal with
           | E : _ || _ = true |- _ => apply orb_prop in E as [E|E]
           end;
    rewrite_facts;
    cbn [directoryCount directories incr_directoryCount push_directory
         push_media push_metaFile andb negb snd];
    rewrite ?andb_false_r; cbn [andb];
    rewrite ?length_app; cbn [List.length];
    try (unfold with_cover; destruct (cover d));
    cbn [directoryCount directories set_cover]; split; lia.
Qed.

Lemma scanEntries_directory_counts self s (rel abs : string)
    (files : list string) :
  is_strictly_true (coverOnly s) = false ->
  forall d (t : list event) d',
    scanEntries W self s rel abs files d = (t, Returned d') ->
    directoryCount d'
    = directoryCount d
      + List.length (List.filter (is_directory_entry W abs) files)
    /\ List.length (directories d')
       = List.length (directories d)
         + List.length
             (List.filter
                (fun f => is_directory_entry W abs f
                          && negb (is_strictly_true (noDirectory s))
                          && negb (is_excluded W rel abs f)) files).
Proof.
  intros Hc. induction files as [|file rest IH]; intros d t d' H.
  - inversion H; subst. cbn. split; lia.
  - apply scanEntries_cons_returned in H
      as (t1 & e & d1 & Hstep & [(He & _)|(_ & t2 & Hrest & _)]).
    + rewrite (scanEntry_continue W _ _ _ _ _ _ _ _ _ Hc Hstep) in He.
      discriminate.
    + apply scanEntry_directory_counts in Hstep as [H1 H2].
      apply IH in Hrest as [H3 H4].
      rewrite Hc in H2. cbn [negb] in H2. rewrite andb_true_r in H2.
      cbn [List.filter].
      destruct (is_directory_entry W abs file); cbn [andb] in *.
      * destruct (negb (is_strictly_true (noDirectory s))); cbn [andb] in *.
        -- destruct (negb (is_excluded W rel abs file)); cbn [List.length];
             split; lia.
        -- cbn [List.length]. split; lia.
      * split; lia.
Qed.

(** X3. Without [coverOnly], [directoryCount] is the number of entries of
    the listing that are directories, skipped and excluded ones included,
    and the children list holds one snapshot for each of them that the
    exclusion filter lets through (none under [noDirectory]); so there are
    never more children than [directoryCount]. *)
Theorem scanDirectory_directory_counts (fuel : nat) (rel : string)
    (s : DirectoryScanSettings) (files : list string) (t : list event)
    (d : DirectoryDTO Metadata) :
  is_strictly_true (coverOnly s) = false ->
  nothing_to_scan s = false ->
  fsp_readdir W (absolute_of W rel) = Resolved files ->
  scanDirectory W fuel rel s = (t, Returned d) ->
  directoryCount d
  = List.length (List.filter (is_directory_entry W (absolute_of W rel)) files)
  /\ List.length (directories d)
     = List.length
         (List.filter
            (fun f => is_directory_entry W (absolute_of W rel) f
                      && negb (is_strictly_true (noDirectory s))
                      && negb (is_excluded W (normalizeDirPath rel)
                                 (absolute_of W rel) f)) files)
  /\ List.length (directories d) <= directoryCount d.
Proof.
  intros Hc Hn Hrd H. destruct fuel as [|fuel]; [discriminate|].
  apply scanDirectory_returned in H
    as (st & _ & [(Hn' & _)|(_ & files' & t' & d' & Hrd' & Hloop & -> & _)]).
  - congruence.
  - rewrite Hrd in Hrd'. inversion Hrd'; subst files'.
    apply (scanEntries_directory_counts _ _ _ _ _ Hc) in Hloop as [H1 H2].
    cbn [set_counts directoryCount directories initial_snapshot List.length
         Nat.add] in *.
    rewrite H1, H2. repeat split.
    clear. induction files as [|f files IH]; [reflexivity|].
    cbn [List.filter].
    destruct (is_directory_entry W (absolute_of W rel) f); cbn [andb];
      [|exact IH].
    destruct (negb (is_strictly_true (noDirectory s)) && _);
      cbn [List.length]; lia.
Qed.

Ltac close_leaf :=
  try congruence;
  cbn [directories media metaFile cover incr_directoryCount push_directory
       push_media push_metaFile];
  try (unfold with_cover;
       match goal with |- context [cover ?d] => destruct (cover d) eqn:? end);
  cbn [directories media metaFile cover set_cover];
  try congruence; try assumption.

Lemma scan_noDirectory (fuel : nat) (rel : string) s (t : list event) d :
  is_strictly_true (noDirectory s) = true ->
  scanDirectory W fuel rel s = (t, Returned d) -> directories d = [].
Proof.
  intros Hsw H. destruct fuel as [|fuel]; [discriminate|].
  apply scanDirectory_returned in H
    as (st & _ & [(_ & -> & _)|(_ & files & t' & d' & _ & Hloop & -> & _)]);
    [reflexivity|].
  cbn [set_counts directories].
  refine (scanEntries_invariant W (fun x => directories x = [])
            _ _ _ _ _ _ _ _ _ _ Hloop); [|reflexivity].
  intros file d0 t0 e d1 _ Hd0 Hstep. step_cases Hstep; close_leaf.
Qed.

Lemma scan_noMetaFile (fuel : nat) (rel : string) s (t : list event) d :
  is_strictly_true (noMetaFile s) = true ->
  scanDirectory W fuel rel s = (t, Returned d) -> metaFile d = [].
Proof.
  intros Hsw H. destruct fuel as [|fuel]; [discriminate|].
  apply scanDirectory_returned in H
    as (st & _ & [(_ & -> & _)|(_ & files & t' & d' & _ & Hloop & -> & _)]);
    [reflexivity|].
  cbn [set_counts metaFile].
  refine (scanEntries_invariant W (fun x => metaFile x = [])
            _ _ _ _ _ _ _ _ _ _ Hloop); [|reflexivity].
  intros file d0 t0 e d1 _ Hd0 Hstep. step_cases Hstep; close_leaf.
Qed.

Lemma scan_noPhoto (fuel : nat) (rel : string) s (t : list event) d :
  is_strictly_true (noPhoto s) = true ->
  scanDirectory W fuel rel s = (t, Returned d) ->
  cover d = None
  /\ Forall (fun m => is_photo_entry W (absolute_of W rel) m = false) (media d).
Proof.
  intros Hsw H. destruct fuel as [|fuel]; [discriminate|].
  apply scanDirectory_returned in H
    as (st & _ & [(_ & -> & _)|(_ & files & t' & d' & _ & Hloop & -> & _)]);
    [split; [reflexivity|constructor]|].
  cbn [set_counts cover media].
  refine (scanEntries_invariant W
            (fun x => cover x = None
                      /\ Forall (fun m => is_photo_entry W (absolute_of W rel) m
                                          = false) (media x))
            _ _ _ _ _ _ _ _ _ _ Hloop); [|split; [reflexivity|constructor]].
  intros file d0 t0 e d1 _ [Hc Hm] Hstep.
  step_cases Hstep; try congruence;
    cbn [cover media incr_directoryCount push_directory push_media
         push_metaFile];
    (split; [assumption|]); try assumption;
    apply Forall_app; (split; [assumption|]);
    (constructor; [|constructor]);
    unfold is_photo_entry; cbn [m_name]; assumption.
Qed.

Lemma scan_noVideo (fuel : nat) (rel : string) s (t : list event) d :
  negb (Video_enabled W) || is_strictly_true (noVideo s) = true ->
  scanDirectory W fuel rel s = (t, Returned d) ->
  Forall (fun m => is_photo_entry W (absolute_of W rel) m = true) (media d).
Proof.
  intros Hsw H. destruct fuel as [|fuel]; [discriminate|].
  apply scanDirectory_returned in H
    as (st & _ & [(_ & -> & _)|(_ & files & t' & d' & _ & Hloop & -> & _)]);
    [constructor|].
  cbn [set_counts media].
  refine (scanEntries_invariant W
            (fun x => Forall (fun m => is_photo_entry W (absolute_of W rel) m
                                       = true) (media x))
            _ _ _ _ _ _ _ _ _ _ Hloop); [|constructor].
  intros file d0 t0 e d1 _ Hm Hstep.
  step_cases Hstep;
    try (exfalso; revert Hsw; rewrite_facts; discriminate);
    cbn [media incr_directoryCount push_directory push_media push_metaFile];
    try assumption;
    unfold with_cover;
    match goal with |- context [cover ?x] => destruct (cover x) end;
    cbn [media set_cover];
    apply Forall_app; (split; [assumption|]);
    (constructor; [|constructor]);
    unfold is_photo_entry; cbn [m_name]; assumption.
Qed.

(** X4. What the switches of the settings switch off, in every snapshot
    that a scan returns: under [noDirectory] there are no children; under
    [noMetaFile] there are no sidecars; under [noPhoto] there is no cover
    and no entry of the media list is a photo; under [noVideo], or with
    videos disabled in the configuration, every entry of the media list is
    a photo. *)
Theorem scanDirectory_switches (fuel : nat) (rel : string)
    (s : DirectoryScanSettings) (t : list event) (d : DirectoryDTO Metadata) :
  scanDirectory W fuel rel s = (t, Returned d) ->
  (noDirectory s = Some true -> directories d = [])
  /\ (noMetaFile s = Some true -> metaFile d = [])
  /\ (noPhoto s = Some true ->
      cover d = None
      /\ Forall (fun m => is_photo_entry W (absolute_of W rel) m = false)
           (media d))
  /\ (noVideo s = Some true \/ Video_enabled W = false ->
      Forall (fun m => is_photo_entry W (absolute_of W rel) m = true)
        (media d)).
Proof.
  intros H. repeat split.
  - intros Hsw. eapply scan_noDirectory; [|eassumption]. rewrite Hsw. reflexivity.
  - intros Hsw. eapply scan_noMetaFile; [|eassumption]. rewrite Hsw. reflexivity.
  - eapply scan_noPhoto; [|eassumption].
    match goal with Hsw : noPhoto s = _ |- _ => rewrite Hsw end. reflexivity.
  - eapply scan_noPhoto; [|eassumption].
    match goal with Hsw : noPhoto s = _ |- _ => rewrite Hsw end. reflexivity.
  - intros Hsw. eapply scan_noVideo; [|eassumption].
    destruct Hsw as [-> | ->]; [apply orb_true_r|reflexivity].
Qed.

(** What one iteration appends to the media and sidecar lists. *)
Lemma scanEntry_appends self s (rel abs file : string) d (t : list event)
    e d1 :
  scanEntry W self s rel abs file d = (t, Returned (e, d1)) ->
  exists lm lf,
    media d1 = media d ++ lm
    /\ metaFile d1 = metaFile d ++ lf
    /\ sublist (map m_name lm) [file]
    /\ sublist (map f_name lf) [file]
    /\ Forall (fun m => m_directory m = None
                        /\ (is_photo_entry W abs m || is_video_entry W abs m
                            = true)) lm
    /\ Forall (fun f => f_directory f = None
                        /\ is_enabled_sidecar W abs f = true) lf.
Proof.
  intros H.
  step_cases H;
    cbn [media metaFile incr_directoryCount push_directory push_media
         push_metaFile];
    try (unfold with_cover;
         match goal with |- context [cover ?x] => destruct (cover x) end;
         cbn [media metaFile set_cover]).
  all: first
    [ exists [], []; rewrite !app_nil_r;
      repeat split; solve [reflexivity | constructor | apply sublist_nil_l]
    | eexists [_], []; rewrite !app_nil_r;
      split; [reflexivity|]; split; [reflexivity|];
      split; [reflexivity|]; split; [apply sublist_nil_l|];
      split; [|constructor];
      constructor; [|constructor]; split; [reflexivity|];
      unfold is_photo_entry, is_video_entry; cbn [m_name];
      rewrite_facts; reflexivity
    | eexists [], [_]; rewrite !app_nil_r;
      split; [reflexivity|]; split; [reflexivity|];
      split; [apply sublist_nil_l|]; split; [reflexivity|];
      split; [constructor|];
      constructor; [|constructor]; split; [reflexivity|];
      unfold is_enabled_sidecar; cbn [f_name];
      repeat match goal with
             | E : negb _ = false |- _ => apply negb_false_iff in E
             end;
      rewrite_facts; reflexivity ].
Qed.

Lemma scanEntries_appends self s (rel abs : string) (files : list string) :
  forall d (t : list event) d',
    scanEntries W self s rel abs files d = (t, Returned d') ->
    exists lm lf,
      media d' = media d ++ lm
      /\ metaFile d' = metaFile d ++ lf
      /\ sublist (map m_name lm) files
      /\ sublist (map f_name lf) files
      /\ Forall (fun m => m_directory m = None
                          /\ (is_photo_entry W abs m || is_video_entry W abs m
                              = true)) lm
      /\ Forall (fun f => f_directory f = None
                          /\ is_enabled_sidecar W abs f = true) lf.
Proof.
  induction files as [|file rest IH]; intros d t d' H.
  - inversion H; subst. exists [], []. rewrite !app_nil_r.
    repeat split; constructor.
  - apply scanEntries_cons_returned in H
      as (t1 & e & d1 & Hstep & Hrest).
    apply scanEntry_appends in Hstep
      as (lm1 & lf1 & Hm1 & Hf1 & Hsm1 & Hsf1 & Hkm1 & Hkf1).
    destruct Hrest as [(_ & -> & _)|(_ & t2 & Hrest & _)].
    + exists lm1, lf1. repeat split; try assumption.
      * pose proof (sublist_app _ _ [] rest Hsm1 (sublist_nil_l rest)) as Hs.
        rewrite app_nil_r in Hs. exact Hs.
      * pose proof (sublist_app _ _ [] rest Hsf1 (sublist_nil_l rest)) as Hs.
        rewrite app_nil_r in Hs. exact Hs.
    + apply IH in Hrest as (lm2 & lf2 & Hm2 & Hf2 & Hsm2 & Hsf2 & Hkm2 & Hkf2).
      exists (lm1 ++ lm2), (lf1 ++ lf2).
      rewrite Hm2, Hf2, Hm1, Hf1, <- !app_assoc, !map_app.
      repeat split.
      * apply (sublist_app _ [file] _ rest); assumption.
      * apply (sublist_app _ [file] _ rest); assumption.
      * apply Forall_app. split; assumption.
      * apply Forall_app. split; assumption.
Qed.

Lemma isEnabledMetaFile_disabled (fullPath : string) :
  MetaFile_gpx W = false -> MetaFile_markdown W = false ->
  MetaFile_pg2conf W = false -> isEnabledMetaFile W fullPath = false.
Proof.
  intros Hg Hm Hp. unfold isEnabledMetaFile. rewrite Hg, Hm, Hp.
  repeat match goal with |- context [if ?b then _ else _] => destruct b end;
    reflexivity.
Qed.

(** X5. The media list of a returned snapshot follows the listing: the
    names of its entries are a sublist of the listing (in listing order,
    each entry at most once), every entry is a file that the format
    registry takes for a photo or, failing that, for a video, and no entry
    carries a [directory] back-reference (only the cover's clone does). *)
Theorem scanDirectory_media_from_listing (fuel : nat) (rel : string)
    (s : DirectoryScanSettings) (files : list string) (t : list event)
    (d : DirectoryDTO Metadata) :
  fsp_readdir W (absolute_of W rel) = Resolved files ->
  scanDirectory W fuel rel s = (t, Returned d) ->
  sublist (map m_name (media d)) files
  /\ Forall (fun m => m_directory m = None
                      /\ (is_photo_entry W (absolute_of W rel) m
                          || is_video_entry W (absolute_of W rel) m = true))
       (media d).
Proof.
  intros Hrd H. destruct fuel as [|fuel]; [discriminate|].
  apply scanDirectory_returned in H
    as (st & _ & [(_ & -> & _)|(_ & files' & t' & d' & Hrd' & Hloop & -> & _)]).
  - split; [apply sublist_nil_l|constructor].
  - rewrite Hrd in Hrd'. inversion Hrd'; subst files'.
    apply scanEntries_appends in Hloop as (lm & lf & Hm & _ & Hsm & _ & Hkm & _).
    cbn [set_counts media initial_snapshot app] in *. subst lm.
    split; assumption.
Qed.

(** X6. The sidecar list of a returned snapshot follows the listing and the
    configuration: the names of its entries are a sublist of the listing,
    every entry is a file that is neither photo nor video, that
    [GPXProcessing.isMetaFile] accepts and whose type [isEnabledMetaFile]
    finds enabled; with the three sidecar types disabled in the
    configuration the list is empty. *)
Theorem scanDirectory_sidecars_from_listing (fuel : nat) (rel : string)
    (s : DirectoryScanSettings) (files : list string) (t : list event)
    (d : DirectoryDTO Metadata) :
  fsp_readdir W (absolute_of W rel) = Resolved files ->
  scanDirectory W fuel rel s = (t, Returned d) ->
  sublist (map f_name (metaFile d)) files
  /\ Forall (fun f => f_directory f = None
                      /\ is_enabled_sidecar W (absolute_of W rel) f = true)
       (metaFile d)
  /\ (MetaFile_gpx W = false -> MetaFile_markdown W = false ->
      MetaFile_pg2conf W = false -> metaFile d = []).
Proof.
  intros Hrd H.
  assert (sublist (map f_name (metaFile d)) files
          /\ Forall (fun f => f_directory f = None
                              /\ is_enabled_sidecar W (absolute_of W rel) f = true)
               (metaFile d)) as [Hs Hk].
  { destruct fuel as [|fuel]; [discriminate|].
    apply scanDirectory_returned in H
      as (st & _ & [(_ & -> & _)|(_ & files' & t' & d' & Hrd' & Hloop & -> & _)]).
    - split; [apply sublist_nil_l|constructor].
    - rewrite Hrd in Hrd'. inversion Hrd'; subst files'.
      apply scanEntries_appends in Hloop
        as (lm & lf & _ & Hf & _ & Hsf & _ & Hkf).
      cbn [set_counts metaFile initial_snapshot app] in *. subst lf.
      split; assumption. }
  split; [exact Hs|]. split; [exact Hk|].
  intros Hg Hm Hp. destruct (metaFile d) as [|f l]; [reflexivity|].
  inversion Hk as [|? ? [_ Hf] _]; subst.
  unfold is_enabled_sidecar in Hf.
  rewrite (isEnabledMetaFile_disabled _ Hg Hm Hp), andb_false_r in Hf.
  discriminate.
Qed.

(** An iteration of a cover probe: it goes on with the media as they were,
    or it leaves the loop with one more photo. *)
Lemma scanEntry_probe self s (rel abs file : string) d (t : list event)
    e d1 :
  is_strictly_true (coverOnly s) = true ->
  scanEntry W self s rel abs file d = (t, Returned (e, d1)) ->
  metaFile d1 = metaFile d
  /\ ((e = Continue /\ media d1 = media d /\ cover d1 = cover d)
      \/ (e = Break
          /\ exists md,
               PhotoProcessing_isPhoto W (full_path abs file) = true
               /\ media d1 = media d ++ [mkMedia file None md]
               /\ cover d1 = cover (with_cover d (mkMedia file None md)))).
Proof.
  intros Hc H. apply scanEntry_effect in H.
  destruct H; try congruence;
    cbn [metaFile media cover incr_directoryCount push_media];
    (split; [try reflexivity|]); try (left; repeat split; reflexivity).
  - unfold with_cover. destruct (cover d); reflexivity.
  - right. rewrite Hc. split; [reflexivity|]. exists md.
    split; [assumption|]. split; [|reflexivity].
    unfold with_cover. destruct (cover d); reflexivity.
Qed.

Lemma scanEntries_probe self s (rel abs : string) (files : list string) :
  is_strictly_true (coverOnly s) = true ->
  forall d (t : list event) d',
    media d = [] -> cover d = None ->
    scanEntries W self s rel abs files d = (t, Returned d') ->
    metaFile d' = metaFile d
    /\ ((media d' = [] /\ cover d' = None)
        \/ (exists m, media d' = [m]
                      /\ is_photo_entry W abs m = true
                      /\ cover d' <> None)).
Proof.
  intros Hc. induction files as [|file rest IH]; intros d t d' Hm Hcov H.
  - inversion H; subst. split; [reflexivity|]. left. split; assumption.
  - apply scanEntries_cons_returned in H as (t1 & e & d1 & Hstep & Hrest).
    apply (scanEntry_probe _ _ _ _ _ _ _ _ _ Hc) in Hstep
      as [Hmf [(He & Hm1 & Hc1)|(He & md & Hp & Hm1 & Hc1)]]; subst e.
    + destruct Hrest as [(He & _)|(_ & t2 & Hrest & _)]; [discriminate|].
      apply IH in Hrest as [Hmf' Hshape]; [|congruence..].
      split; [congruence|exact Hshape].
    + destruct Hrest as [(_ & -> & _)|(He & _)]; [|discriminate].
      split; [exact Hmf|]. right. exists (mkMedia file None md).
      rewrite Hm1, Hm. split; [reflexivity|]. split; [exact Hp|].
      rewrite Hc1. unfold with_cover. rewrite Hcov. discriminate.
Qed.

(** X7. The snapshot of a cover probe ([coverOnly] set): it holds at most
    one media entry, which is a photo, it has a cover exactly when it holds
    that entry, and it lists no sidecars. *)
Theorem scanDirectory_probe_shape (fuel : nat) (rel : string)
    (s : DirectoryScanSettings) (t : list event) (d : DirectoryDTO Metadata) :
  coverOnly s = Some true ->
  scanDirectory W fuel rel s = (t, Returned d) ->
  List.length (media d) <= 1
  /\ mediaCount d <= 1
  /\ Forall (fun m => is_photo_entry W (absolute_of W rel) m = true) (media d)
  /\ (cover d = None <-> media d = [])
  /\ metaFile d = [].
Proof.
  intros Hc H.
  assert (is_strictly_true (coverOnly s) = true) as Hc'
    by (rewrite Hc; reflexivity).
  destruct fuel as [|fuel]; [discriminate|].
  apply scanDirectory_returned in H
    as (st & _ & [(_ & -> & _)|(_ & files & t' & d' & _ & Hloop & -> & _)]).
  - cbn. split; [lia|]. split; [lia|]. split; [constructor|].
    split; [tauto|reflexivity].
  - apply (scanEntries_probe _ _ _ _ _ Hc') in Hloop
      as [Hmf [[Hm Hcov]|(m & Hm & Hp & Hcov)]]; try reflexivity;
      cbn [set_counts media mediaCount cover metaFile]; rewrite Hm.
    + cbn [List.length]. split; [lia|]. split; [lia|].
      split; [constructor|]. split; [tauto|]. exact Hmf.
    + cbn [List.length]. split; [lia|]. split; [lia|].
      split; [constructor; [assumption|constructor]|].
      split; [split; [contradiction|discriminate]|]. exact Hmf.
Qed.

(** An iteration that returns met no failure. *)
Lemma scanEntry_no_failure fuel s (rel abs file : string) d
    (t : list event) e d' :
  is_strictly_true (coverOnly s) = false ->
  scanEntry W (scanDirectory W (S fuel)) s rel abs file d
  = (t, Returned (e, d')) ->
  ~ entry_fails W s rel abs file.
Proof.
  intros Hc H Hfail.
  unfold scanEntry in H. fold (full_path abs file) in H.
  unfold entry_fails, is_directory_entry, is_excluded in Hfail.
  unfold_io H.
  destruct (fsp_stat W (full_path abs file)) as [st|] eqn:Est;
    [|discriminate].
  cbv beta iota zeta in H.
  destruct Hfail as [[e0 He0]|[(Hd & Hp & Hnp & Hnm & e0 & He0)
                              |(Hd & Hnd & Hx & t0 & e0 & He0)]].
  - discriminate.
  - rewrite Hd, Hp, Hnp, Hnm, He0 in H. discriminate.
  - rewrite Hd, Hnd, Hc in H. cbn [orb] in H.
    destruct (excludeDir W file rel abs) as [tx [b| |]] eqn:Ex;
      try discriminate.
    cbn [result snd] in Hx. subst b.
    rewrite scanDirectory_coverOnly_fuel in H by reflexivity.
    rewrite He0 in H. discriminate.
Qed.

Lemma scanEntries_no_failure fuel s (rel abs : string) (files : list string) :
  is_strictly_true (coverOnly s) = false ->
  forall d (t : list event) d',
    scanEntries W (scanDirectory W (S fuel)) s rel abs files d
    = (t, Returned d') ->
    Forall (fun file => ~ entry_fails W s rel abs file) files.
Proof.
  intros Hc. induction files as [|file rest IH]; intros d t d' H;
    [constructor|].
  apply scanEntries_cons_returned in H as (t1 & e & d1 & Hstep & Hrest).
  pose proof (scanEntry_continue W _ _ _ _ _ _ _ _ _ Hc Hstep) as ->.
  destruct Hrest as [(He & _)|(_ & t2 & Hrest & _)]; [discriminate|].
  constructor.
  - eapply scanEntry_no_failure; eassumption.
  - eapply IH; eassumption.
Qed.

(** X8. No failure is isolated but that of a video: when one entry of the
    listing fails (its [stat] is rejected, its photo metadata cannot be
    loaded, or the cover probe of the subdirectory throws), a scan that is
    not itself a cover probe throws, whatever the other entries are. *)
Theorem scanDirectory_entry_failure (fuel : nat) (rel : string)
    (s : DirectoryScanSettings) (files : list string) (file : string) :
  is_strictly_true (coverOnly s) = false ->
  nothing_to_scan s = false ->
  fsp_readdir W (absolute_of W rel) = Resolved files ->
  In file files ->
  entry_fails W s (normalizeDirPath rel) (absolute_of W rel) file ->
  exists e, result (scanDirectory W (S (S fuel)) rel s) = Thrown e.
Proof.
  intros Hc Hn Hrd Hin Hfail.
  pose proof (scanDirectory_total W fuel rel s) as Htot.
  destruct (scanDirectory W (S (S fuel)) rel s) as [t [d|e|]] eqn:H;
    cbn [result snd] in *.
  - exfalso.
    apply scanDirectory_returned in H
      as (st & _ & [(Hn' & _)|(_ & files' & t' & d' & Hrd' & Hloop & _)]);
      [congruence|].
    rewrite Hrd in Hrd'. inversion Hrd'; subst files'.
    apply scanEntries_no_failure in Hloop; [|assumption].
    rewrite List.Forall_forall in Hloop. exact (Hloop file Hin Hfail).
  - exists e. reflexivity.
  - contradiction.
Qed.

(** X9. A directory that cannot be read: when the [stat] of the directory is
    rejected the scan throws that error after this one call, and when its
    listing is rejected the scan throws that error after these two calls. *)
Theorem scanDirectory_unreadable (fuel : nat) (rel : string)
    (s : DirectoryScanSettings) (e : exn) :
  (fsp_stat W (absolute_of W rel) = Rejected e ->
   scanDirectory W (S fuel) rel s
   = ([EvStat (absolute_of W rel)], Thrown e))
  /\ (forall st,
        fsp_stat W (absolute_of W rel) = Resolved st ->
        nothing_to_scan s = false ->
        fsp_readdir W (absolute_of W rel) = Rejected e ->
        scanDirectory W (S fuel) rel s
        = ([EvStat (absolute_of W rel); EvReaddir (absolute_of W rel)],
           Thrown e)).
Proof.
  split.
  - intros Hst. rewrite scanDirectory_unfold. unfold bind, await.
    rewrite Hst. reflexivity.
  - intros st Hst Hn Hrd. rewrite scanDirectory_unfold. unfold bind, await.
    rewrite Hst, Hn, Hrd. reflexivity.
Qed.

(** The events of a computation, through the operations of the monad. *)
Lemma trace_ret (P : event -> Prop) {A} (a : A) : Forall P (trace (ret a)).
Proof. constructor. Qed.

Lemma trace_await (P : event -> Prop) {A} (ev : event) (p : settled A) :
  P ev -> Forall P (trace (await ev p)).
Proof. intros H. destruct p; repeat constructor; exact H. Qed.

Lemma trace_tell (P : event -> Prop) (t : list event) :
  Forall P t -> Forall P (trace (tell t)).
Proof. intros H. exact H. Qed.

Lemma trace_bind (P : event -> Prop) {A B} (m : M A) (k : A -> M B) :
  Forall P (trace m) -> (forall a, Forall P (trace (k a))) ->
  Forall P (trace (bind m k)).
Proof.
  intros Hm Hk. destruct m as [t [a|e|]]; cbn [bind trace fst] in *;
    try assumption.
  specialize (Hk a). destruct (k a) as [t' r]. cbn [trace fst] in *.
  apply Forall_app. split; assumption.
Qed.

Lemma trace_try_catch (P : event -> Prop) {A} (m : M A) (h : exn -> M A) :
  Forall P (trace m) -> (forall e, Forall P (trace (h e))) ->
  Forall P (trace (try_catch m h)).
Proof.
  intros Hm Hh. destruct m as [t [a|e|]]; cbn [try_catch trace fst] in *;
    try assumption.
  specialize (Hh e). destruct (h e) as [t' r]. cbn [trace fst] in *.
  apply Forall_app. split; assumption.
Qed.

Lemma bind_ret_l {A B} (a : A) (k : A -> M B) : bind (ret a) k = k a.
Proof. unfold bind, ret. destruct (k a). reflexivity. Qed.

Lemma try_catch_ret {A} (a : A) (h : exn -> M A) : try_catch (ret a) h = ret a.
Proof. reflexivity. Qed.

Ltac run_rets :=
  repeat (progress (rewrite ?bind_ret_l, ?try_catch_ret; cbv beta)).

Lemma trace_scanEntries (P : event -> Prop) self s (rel abs : string)
    (files : list string) :
  (forall file d, Forall P (trace (scanEntry W self s rel abs file d))) ->
  forall d, Forall P (trace (scanEntries W self s rel abs files d)).
Proof.
  intros Hstep. induction files as [|file rest IH]; intros d;
    [apply trace_ret|].
  cbn [scanEntries]. apply trace_bind; [apply Hstep|].
  intros [[|] d1]; [apply IH|apply trace_ret].
Qed.

Lemma trace_scanDirectory (P : event -> Prop) (fuel : nat) (rel : string) s :
  (forall p, P (EvStat p)) -> (forall p, P (EvReaddir p)) ->
  (forall file d,
     Forall P (trace (scanEntry W (scanDirectory W fuel) s
                        (normalizeDirPath rel) (absolute_of W rel) file d))) ->
  Forall P (trace (scanDirectory W (S fuel) rel s)).
Proof.
  intros Hst Hrd Hstep. rewrite scanDirectory_unfold.
  apply trace_bind; [apply trace_await, Hst|]. intros st.
  destruct (nothing_to_scan s); [apply trace_ret|].
  apply trace_bind; [apply trace_await, Hrd|]. intros files.
  apply trace_bind; [apply trace_scanEntries, Hstep|].
  intros d. apply trace_ret.
Qed.

(** The events of one iteration, by cases on the tests the body makes. *)
Ltac trace_cases :=
  repeat first
    [ match goal with
      | |- Forall _ (trace (ret _)) => apply trace_ret
      | |- Forall _ (trace (await _ _)) => apply trace_await
      | |- Forall _ (trace (tell _)) => apply trace_tell
      | |- Forall _ (trace (bind _ _)) => apply trace_bind; [|intros ?]
      | |- Forall _ (trace (try_catch _ _)) =>
          apply trace_try_catch; [|intros ?]
      | |- Forall _ (trace (metadata_of _ _ _)) => unfold metadata_of
      | |- Forall _ (trace (if ?b then _ else _)) => destruct b eqn:?
      | |- Forall _ (_ :: _) => constructor
      | |- Forall _ [] => constructor
      end
    | progress cbv zeta ].

Ltac split_tests :=
  repeat match goal with
         | H : (_ || _)%bool = false |- _ =>
             apply orb_false_elim in H as [? ?]
         | H : negb _ = false |- _ => apply negb_false_iff in H
         end.

Lemma trace_excludeDir (P : event -> Prop) (name rel abs : string) :
  (forall p, P (EvAccess p)) ->
  Forall P (trace (excludeDir W name rel abs)).
Proof.
  intros HP. eapply Forall_impl; [apply excludeDir_trace|].
  intros ev (marker & _ & ->). apply HP.
Qed.

Lemma probe_trace (fuel : nat) (rel : string) s :
  is_strictly_true (coverOnly s) = true ->
  Forall (fun ev => is_probe_event ev = true)
    (trace (scanDirectory W fuel rel s)).
Proof.
  intros Hc. destruct fuel as [|fuel]; [constructor|].
  apply trace_scanDirectory; try reflexivity.
  intros file d. unfold scanEntry. rewrite Hc, !orb_true_r.
  trace_cases; reflexivity.
Qed.

Lemma probe_events (P : event -> Prop) (fuel : nat) (rel : string) :
  (forall ev, is_probe_event ev = true -> P ev) ->
  Forall P (trace (scanDirectory W fuel rel coverOnlySettings)).
Proof.
  intros HP. eapply Forall_impl; [apply probe_trace; reflexivity|exact HP].
Qed.

Lemma excludeDir_no_markers (name rel abs : string) :
  excludeFileList W = [] -> trace (excludeDir W name rel abs) = [].
Proof.
  intros H. pose proof (excludeDir_trace W name rel abs) as Ht.
  rewrite H in Ht.
  destruct (trace (excludeDir W name rel abs)); [reflexivity|].
  inversion Ht as [|? ? (marker & [] & _)].
Qed.

Ltac close_trace :=
  first
    [ reflexivity
    | apply trace_excludeDir; reflexivity
    | rewrite excludeDir_no_markers by assumption; constructor
    | apply probe_events;
      let ev := fresh in
      intros ev ?; destruct ev; first [reflexivity | discriminate]
    | exfalso; split_tests; congruence ].

Lemma trace_bind_returned (P : event -> Prop) {A B} (m : M A)
    (k : A -> M B) :
  Forall P (trace m) ->
  (forall a, result m = Returned a -> Forall P (trace (k a))) ->
  Forall P (trace (bind m k)).
Proof.
  intros Hm Hk. destruct m as [t [a|e|]]; cbn [bind trace fst] in *;
    try assumption.
  specialize (Hk a eq_refl). destruct (k a) as [t' r]. cbn [trace fst] in *.
  apply Forall_app. split; assumption.
Qed.

Lemma trace_scanEntries_listed (P : event -> Prop) self s (rel abs : string)
    (files : list string) :
  (forall file d,
     In file files -> Forall P (trace (scanEntry W self s rel abs file d))) ->
  forall d, Forall P (trace (scanEntries W self s rel abs files d)).
Proof.
  induction files as [|file rest IH]; intros Hstep d; [apply trace_ret|].
  cbn [scanEntries].
  apply trace_bind; [apply Hstep; left; reflexivity|].
  intros [[|] d1]; [|apply trace_ret].
  apply IH. intros f d0 Hin. apply Hstep. right. exact Hin.
Qed.

(** The calls of a cover probe stay in its directory. *)
Lemma probe_own_calls (fuel : nat) (rel : string) s :
  is_strictly_true (coverOnly s) = true ->
  Forall (own_call W rel) (trace (scanDirectory W fuel rel s)).
Proof.
  intros Hc. destruct fuel as [|fuel]; [constructor|].
  rewrite scanDirectory_unfold.
  apply trace_bind; [apply trace_await; left; reflexivity|]. intros st.
  destruct (nothing_to_scan s); [apply trace_ret|].
  apply trace_bind_returned; [apply trace_await; reflexivity|].
  intros files Hrd.
  assert (fsp_readdir W (absolute_of W rel) = Resolved files) as Hfiles.
  { unfold await in Hrd.
    destruct (fsp_readdir W (absolute_of W rel)); inversion Hrd; reflexivity. }
  apply trace_bind; [|intros d; apply trace_ret].
  apply trace_scanEntries_listed. intros file d Hin.
  assert (listed W (absolute_of W rel) file) as Hl
    by (exists files; split; assumption).
  unfold scanEntry. fold (full_path (absolute_of W rel) file).
  rewrite Hc, !orb_true_r.
  trace_cases.
  - right. exists file. split; [exact Hl|reflexivity].
  - exists file. split; [exact Hl|]. split; [reflexivity|assumption].
Qed.

(** X10. What a cover probe asks of its collaborators, whether it returns
    or throws: every call of a scan with [coverOnly] set is a [stat], a
    listing or the load of a photo's metadata, and it stays in the
    directory of the probe: the only [stat]s are that of the directory and
    those of the entries of its listing, the only listing is that of the
    directory itself, and metadata is loaded only for photos among its
    entries. The probe descends into no subdirectory: it lists none, and
    the snapshot it returns has no children. It asks for no marker file,
    loads no video and warns of nothing. *)
Theorem scanDirectory_probe_events (fuel : nat) (rel : string)
    (s : DirectoryScanSettings) :
  coverOnly s = Some true ->
  Forall (fun ev => is_probe_event ev = true)
    (trace (scanDirectory W fuel rel s))
  /\ Forall (own_call W rel) (trace (scanDirectory W fuel rel s))
  /\ forall (t : list event) (d : DirectoryDTO Metadata),
       scanDirectory W fuel rel s = (t, Returned d) -> directories d = [].
Proof.
  intros Hc.
  assert (is_strictly_true (coverOnly s) = true) as Hc'
    by (rewrite Hc; reflexivity).
  split; [apply probe_trace; exact Hc'|].
  split; [apply probe_own_calls; exact Hc'|].
  intros t d H. exact (proj1 (probe_snapshot W fuel rel s t d Hc' H)).
Qed.

(** X11. The calls that the switches silence, in a scan that returns or
    throws, the cover probes of the subdirectories included: with
    [noMetadata] and either [noDirectory] or [coverOnly] no metadata loader
    is called; with [noVideo], with videos disabled in the configuration,
    with [noMetadata] or with [coverOnly] no video is loaded and no warning
    is written; with [noDirectory], with [coverOnly] or with an empty
    [excludeFileList] no marker file is asked for. *)
Theorem scanDirectory_silenced_events (fuel : nat) (rel : string)
    (s : DirectoryScanSettings) :
  (noMetadata s = Some true ->
   noDirectory s = Some true \/ coverOnly s = Some true ->
   Forall (fun ev => is_load_event ev = false)
     (trace (scanDirectory W fuel rel s)))
  /\ (noVideo s = Some true \/ Video_enabled W = false
      \/ noMetadata s = Some true \/ coverOnly s = Some true ->
      Forall (fun ev => is_video_event ev = false)
        (trace (scanDirectory W fuel rel s)))
  /\ (noDirectory s = Some true \/ coverOnly s = Some true
      \/ excludeFileList W = [] ->
      Forall (fun ev => is_access_event ev = false)
        (trace (scanDirectory W fuel rel s))).
Proof.
  split; [|split].
  - intros Hm Hd.
    assert (is_strictly_true (noMetadata s) = true) as Hm'
      by (rewrite Hm; reflexivity).
    assert (is_strictly_true (noDirectory s)
            || is_strictly_true (coverOnly s) = true) as Hd'
      by (destruct Hd as [-> | ->]; cbn [is_strictly_true];
          rewrite ?orb_true_r; reflexivity).
    destruct fuel as [|fuel]; [constructor|].
    apply trace_scanDirectory; try reflexivity.
    intros file d. unfold scanEntry, metadata_of. rewrite Hm', Hd'.
    run_rets.
    trace_cases; close_trace.
  - intros Hv.
    destruct fuel as [|fuel]; [constructor|].
    apply trace_scanDirectory; try reflexivity.
    intros file d. unfold scanEntry, metadata_of.
    destruct Hv as [Hv|[Hv|[Hv|Hv]]].
    + assert (is_strictly_true (noVideo s) = true) as Hv'
        by (rewrite Hv; reflexivity).
      trace_cases; close_trace.
    + trace_cases; close_trace.
    + rewrite Hv. cbn [is_strictly_true]. run_rets.
      trace_cases; close_trace.
    + assert (is_strictly_true (coverOnly s) = true) as Hv'
        by (rewrite Hv; reflexivity).
      trace_cases; close_trace.
  - intros Hd.
    destruct fuel as [|fuel]; [constructor|].
    apply trace_scanDirectory; try reflexivity.
    intros file d. unfold scanEntry, metadata_of.
    destruct Hd as [Hd|[Hd|Hd]].
    + assert (is_strictly_true (noDirectory s) = true) as Hd'
        by (rewrite Hd; reflexivity).
      trace_cases; close_trace.
    + assert (is_strictly_true (coverOnly s) = true) as Hd'
        by (rewrite Hd; reflexivity).
      trace_cases; close_trace.
    + trace_cases; close_trace.
Qed.

(** X12. [scanDirectoryNoMetadata] called without a settings object. The
    default [{}] it allocates is a new object: every settings object of the
    caller is left as it was, and the store grows by one object, in which
    [noMetadata] is [true] and every other switch is undefined. The scan
    runs with that object: it loads no video metadata and writes no
    warning, and in the snapshot it returns every media entry and the
    cover have [metadata = null]. *)
Theorem scanDirectoryNoMetadata_default_settings (fuel : nat)
    (heap : gmap loc DirectoryScanSettings) (rel : string) :
  let heap' := fst (scanDirectoryNoMetadata W fuel heap rel None) in
  let run := snd (scanDirectoryNoMetadata W fuel heap rel None) in
  (forall l s0, heap !! l = Some s0 -> heap' !! l = Some s0)
  /\ (exists l s',
        heap !! l = None
        /\ heap' = <[l := s']> heap
        /\ noMetadata s' = Some true
        /\ coverOnly s' = None /\ noMetaFile s' = None /\ noVideo s' = None
        /\ noPhoto s' = None /\ noDirectory s' = None
        /\ noChildDirPhotos s' = None
        /\ run = scanDirectory W fuel rel s')
  /\ Forall (fun ev => is_video_event ev = false) (trace run)
  /\ forall (t : list event) (d : DirectoryDTO Metadata),
       run = (t, Returned d) ->
       Forall (fun m => m_metadata m = None) (media d)
       /\ forall c, cover d = Some c -> m_metadata c = None.
Proof.
  unfold scanDirectoryNoMetadata. rewrite lookup_insert_eq. cbn [fst snd].
  pose proof (is_fresh (dom heap)) as Hfresh.
  set (l := fresh (dom heap)) in *.
  assert (heap !! l = None) as Hl by (apply not_elem_of_dom; exact Hfresh).
  assert (scanDirectory_ref W fuel
            (alter (set_noMetadata (Some true)) l (<[l:=emptySettings]> heap))
            rel l
          = scanDirectory W fuel rel (set_noMetadata (Some true) emptySettings))
    as Hrun.
  { unfold scanDirectory_ref.
    rewrite lookup_alter_eq, lookup_insert_eq. reflexivity. }
  rewrite Hrun.
  split; [|split; [|split]].
  - intros l0 s0 H0.
    assert (l0 <> l) as Hne by congruence.
    rewrite lookup_alter_ne by congruence.
    rewrite lookup_insert_ne by congruence. exact H0.
  - exists l, (set_noMetadata (Some true) emptySettings).
    split; [exact Hl|]. split; [|repeat split].
    apply map_eq. intros i. destruct (decide (i = l)) as [->|Hne].
    + rewrite lookup_alter_eq, !lookup_insert_eq. reflexivity.
    + rewrite lookup_alter_ne by congruence.
      rewrite !lookup_insert_ne by congruence. reflexivity.
  - destruct fuel as [|fuel]; [constructor|].
    apply trace_scanDirectory; try reflexivity.
    intros file d. unfold scanEntry, metadata_of.
    cbn [set_noMetadata emptySettings noMetadata is_strictly_true].
    run_rets.
    trace_cases; close_trace.
  - intros t d H.
    refine (scan_metadata W (fun md => md = None) _ _ _ _ _ _ H).
    intros load md Hmd. exact Hmd.
Qed.

(** The probes of the marker loop: it asks for the markers in the order of
    the list and stops at the first one it finds. *)
Lemma excludeFile_loop_probes (absoluteName : string) (markers : list string)
    (t : list event) (b : bool) :
  excludeFile_loop W absoluteName markers = (t, Returned b) ->
  if b then
    exists pre marker post u,
      markers = pre ++ marker :: post
      /\ t = map (fun m => EvAccess (Path.join [absoluteName; m]))
               (pre ++ [marker])
      /\ fsp_access W (Path.join [absoluteName; marker]) = Resolved u
      /\ Forall (fun m => exists e,
                   fsp_access W (Path.join [absoluteName; m]) = Rejected e) pre
  else
    t = map (fun m => EvAccess (Path.join [absoluteName; m])) markers
    /\ Forall (fun m => exists e,
                 fsp_access W (Path.join [absoluteName; m]) = Rejected e)
         markers.
Proof.
  revert t b. induction markers as [|m markers IH]; intros t b H.
  - inversion H; subst. split; constructor.
  - cbn [excludeFile_loop] in H. unfold bind, try_catch, await, ret in H.
    destruct (fsp_access W (Path.join [absoluteName; m])) as [u|e] eqn:Ha.
    + inversion H; subst. exists [], m, markers, u.
      repeat split; try assumption. constructor.
    + cbn [app] in H.
      destruct (excludeFile_loop W absoluteName markers) as [t' r] eqn:E.
      inversion H; subst. specialize (IH _ _ eq_refl).
      destruct b.
      * destruct IH as (pre & marker & post & u & -> & -> & Hu & Hpre).
        exists (m :: pre), marker, post, u.
        repeat split; try assumption.
        constructor; [exists e; exact Ha|exact Hpre].
      * destruct IH as [-> Hall]. split; [reflexivity|].
        constructor; [exists e; exact Ha|exact Hall].
Qed.

(** X13. What [excludeDir] asks of the file system. It never throws. When a
    name rule matches, it asks for nothing; when it says that the directory
    is not excluded, it has asked for every marker of [excludeFileList], in
    the order of the list, and each was refused; when it excludes the
    directory and no name rule matches, it has asked for the markers in
    order up to the first one it was granted, and for none behind it. *)
Theorem excludeDir_probes (name rel abs : string) :
  exists t b,
    excludeDir W name rel abs = (t, Returned b)
    /\ ((exists rule,
           In rule (excludeFolderList W)
           /\ rule_matches name (Path.normalize (Path.join [rel; name]))
                (full_path abs name) rule) ->
        t = [] /\ b = true)
    /\ (b = false ->
        t = map (fun m => EvAccess (Path.join [full_path abs name; m]))
              (excludeFileList W)
        /\ Forall (fun m => ~ marker_found W (full_path abs name) m)
             (excludeFileList W))
    /\ (b = true ->
        (forall rule,
           In rule (excludeFolderList W) ->
           ~ rule_matches name (Path.normalize (Path.join [rel; name]))
               (full_path abs name) rule) ->
        exists pre marker post,
          excludeFileList W = pre ++ marker :: post
          /\ t = map (fun m => EvAccess (Path.join [full_path abs name; m]))
                   (pre ++ [marker])
          /\ marker_found W (full_path abs name) marker
          /\ Forall (fun m => ~ marker_found W (full_path abs name) m) pre).
Proof.
  assert (forall l,
            Forall (fun m => exists e,
                      fsp_access W (Path.join [full_path abs name; m])
                      = Rejected e) l ->
            Forall (fun m => ~ marker_found W (full_path abs name) m) l)
    as Hrej.
  { intros l Hl. eapply Forall_impl; [exact Hl|].
    intros m (e & He) (u & Hu). congruence. }
  unfold excludeDir. fold (full_path abs name).
  destruct (excludeFolder_loop name _ _ (excludeFolderList W)) eqn:Hrules.
  - assert ((if (List.length (excludeFolderList W) =? 0)
                && (List.length (excludeFileList W) =? 0)
             then ret false else ret true)
            = (ret true : M bool)) as ->.
    { destruct (excludeFolderList W); [discriminate|reflexivity]. }
    exists [], true. split; [reflexivity|].
    split; [intros _; split; reflexivity|].
    split; [discriminate|].
    intros _ Hno. exfalso.
    apply excludeFolder_loop_spec in Hrules as (rule & Hin & Hm).
    exact (Hno rule Hin Hm).
  - assert (forall rule,
              In rule (excludeFolderList W) ->
              ~ rule_matches name (Path.normalize (Path.join [rel; name]))
                  (full_path abs name) rule) as Hno.
    { intros rule Hin Hm.
      assert (excludeFolder_loop name (Path.normalize (Path.join [rel; name]))
                (full_path abs name) (excludeFolderList W) = true) as Hyes
        by (apply excludeFolder_loop_spec; exists rule; split; assumption).
      congruence. }
    destruct ((List.length (excludeFolderList W) =? 0)
              && (List.length (excludeFileList W) =? 0)) eqn:Hfast.
    + apply andb_prop in Hfast as [_ Hfiles].
      destruct (excludeFileList W) as [|m ms] eqn:Efl; [|discriminate].
      exists [], false. split; [reflexivity|].
      split; [intros (rule & Hin & Hm); exfalso; exact (Hno rule Hin Hm)|].
      split; [intros _; split; constructor|discriminate].
    + destruct (excludeFile_loop_returns W (full_path abs name)
                  (excludeFileList W)) as (t & b & Hloop).
      exists t, b. split; [exact Hloop|].
      split; [intros (rule & Hin & Hm); exfalso; exact (Hno rule Hin Hm)|].
      apply excludeFile_loop_probes in Hloop.
      split.
      * intros ->. destruct Hloop as [-> Hall].
        split; [reflexivity|apply Hrej, Hall].
      * intros -> _.
        destruct Hloop as (pre & marker & post & u & Hsplit & -> & Hu & Hpre).
        exists pre, marker, post.
        split; [exact Hsplit|]. split; [reflexivity|].
        split; [exists u; exact Hu|apply Hrej, Hpre].
Qed.

End Coverage.

(** * Further facts about the path routines *)

Section PathCoverage.

Import Path Segments PathFacts.

Lemma ends_with_slash_cons (c : ascii) (l : chars) :
  l <> [] -> ends_with_slash (c :: l) = ends_with_slash l.
Proof.
  intros Hne. unfold ends_with_slash. cbn [rev].
  destruct (rev l) as [|x r] eqn:E; [|reflexivity].
  apply (f_equal (@rev ascii)) in E. rewrite rev_involutive in E.
  contradiction.
Qed.

(** The stack and the flags of the argument of [normalizeDirPath]: the
    leading [./] and a leading separator of the argument leave no trace. *)
Lemma normalizeDirPath_render (cp : chars) :
  normalize_chars (behind_dot cp)
  = render false (match cp with [] => true | _ :: _ => ends_with_slash cp end)
      (norm_stack true cp).
Proof.
  destruct cp as [|c cp]; [reflexivity|].
  unfold behind_dot.
  rewrite normalize_chars_spec by discriminate.
  cbn [starts_with_slash negb].
  change (isPathSeparator dot) with false. cbv iota.
  rewrite !ends_with_slash_cons by discriminate.
  reflexivity.
Qed.

Lemma render_relative (trail : bool) (stk : list chars) :
  normal true stk ->
  exists c rest, render false trail stk = c :: rest
                 /\ isPathSeparator c = false.
Proof.
  intros Hn. destruct stk as [|t below] eqn:E.
  - destruct trail; eexists _, _; split; reflexivity.
  - rewrite <- E in *. assert (stk <> []) as Hne by (rewrite E; discriminate).
    destruct (intercalate_head (rev stk)) as (c & rest & Hi & Hc).
    + intros H. apply (f_equal (@rev chars)) in H.
      rewrite rev_involutive in H. contradiction.
    + apply Forall_rev, (normal_good true). assumption.
    + unfold render. rewrite E, <- E, Hi. cbn [app].
      eexists _, _. split; [reflexivity|exact Hc].
Qed.

Lemma norm_stack_leading_slash (allow : bool) (cp : chars) :
  norm_stack allow (slash :: cp) = norm_stack allow cp.
Proof. reflexivity. Qed.

Lemma norm_stack_leading_dot (allow : bool) (cp : chars) :
  norm_stack allow (dot :: slash :: cp) = norm_stack allow cp.
Proof.
  unfold norm_stack.
  change (split (dot :: slash :: cp)) with ([dot] :: split cp).
  reflexivity.
Qed.

Lemma ends_with_slash_normalize (p : chars) :
  ends_with_slash p = true -> ends_with_slash (normalize_chars p) = true.
Proof.
  intros H. destruct p as [|c p]; [discriminate|].
  unfold normalize_chars. cbv zeta. rewrite H.
  destruct (normalizeString (c :: p) _) as [|a r].
  - destruct (starts_with_slash (c :: p)); reflexivity.
  - destruct (starts_with_slash (c :: p));
      rewrite ?ends_with_slash_cons by (destruct r; discriminate);
      change (a :: r ++ [slash]) with ((a :: r) ++ [slash]);
      apply ends_with_slash_snoc.
Qed.

Lemma join_sep_trailing (a : chars) :
  ends_with_slash (join_chars [a; [slash]]) = true.
Proof.
  unfold join_chars.
  destruct a as [|c a]; [reflexivity|].
  cbn [join_args]. 
  apply ends_with_slash_normalize.
  change ((c :: a) ++ slash :: [slash]) with ((c :: a) ++ [slash] ++ [slash]).
  rewrite app_assoc. apply ends_with_slash_snoc.
Qed.

(** X14. The result of [normalizeDirPath] is a relative path in canonical
    form: it is not empty, it does not begin with a separator, and
    [path.normalize] leaves it as it is. An argument that begins with a
    separator or with [./] gives the result of the argument without
    them: an absolute name is read from the library root. *)
Theorem normalizeDirPath_relative (p : string) :
  normalizeDirPath p <> EmptyString
  /\ startsWith (normalizeDirPath p) "/" = false
  /\ Path.normalize (normalizeDirPath p) = normalizeDirPath p
  /\ normalizeDirPath ("/" ++ p) = normalizeDirPath p
  /\ normalizeDirPath ("./" ++ p) = normalizeDirPath p.
Proof.
  assert (forall q, normalizeDirPath q
                    = string_of_list_ascii
                        (normalize_chars (behind_dot (list_ascii_of_string q))))
    as Hshape by (intros q; apply normalizeDirPath_chars).
  destruct (render_relative
              (match list_ascii_of_string p with
               | [] => true
               | _ :: _ => ends_with_slash (list_ascii_of_string p)
               end)
              (norm_stack true (list_ascii_of_string p))
              (norm_stack_normal true _)) as (c & rest & Hr & Hc).
  split; [|split; [|split; [|split]]].
  - rewrite Hshape, normalizeDirPath_render, Hr. discriminate.
  - rewrite Hshape, normalizeDirPath_render, Hr.
    unfold startsWith. cbn [string_of_list_ascii String.prefix].
    destruct (ascii_dec "/" c) as [<-|]; [discriminate|reflexivity].
  - unfold normalizeDirPath. apply normalize_idempotent.
  - rewrite !Hshape, !normalizeDirPath_render.
    change (list_ascii_of_string ("/" ++ p))
      with (slash :: list_ascii_of_string p).
    rewrite norm_stack_leading_slash.
    destruct (list_ascii_of_string p) as [|a l]; [reflexivity|].
    rewrite ends_with_slash_cons by discriminate. reflexivity.
  - rewrite !Hshape, !normalizeDirPath_render.
    change (list_ascii_of_string ("./" ++ p))
      with (dot :: slash :: list_ascii_of_string p).
    rewrite norm_stack_leading_dot.
    destruct (list_ascii_of_string p) as [|a l]; [reflexivity|].
    rewrite !ends_with_slash_cons by discriminate. reflexivity.
Qed.

(** X15. The parent path that a snapshot carries, computed from a relative
    name by [pathFromRelativeDirName] or from a parent by [pathFromParent],
    always ends with a separator. *)
Theorem parent_path_trailing_separator (rel : string)
    (parent : DirectoryPathDTO) :
  ends_with_slash (list_ascii_of_string (pathFromRelativeDirName rel)) = true
  /\ ends_with_slash (list_ascii_of_string (pathFromParent parent)) = true.
Proof.
  unfold pathFromRelativeDirName, pathFromParent, Path.join.
  rewrite !list_ascii_of_string_of_list_ascii.
  split; apply join_sep_trailing.
Qed.

End PathCoverage.


(** * Names and parent paths *)

Section NamesAndPaths.

Import Path Segments PathFacts.

Lemma render_cons (trail : bool) (t : chars) (below : list chars) :
  render false trail (t :: below) = seg_prefix below ++ t ++ trailing trail.
Proof.
  unfold render, seg_prefix, trailing. cbn [app].
  rewrite intercalate_rev_cons.
  destruct below as [|u below]; [reflexivity|].
  rewrite <- !app_assoc. reflexivity.
Qed.

Lemma seg_prefix_cases (below : list chars) :
  seg_prefix below = []
  \/ exists pre0, seg_prefix below = pre0 ++ [slash].
Proof.
  destruct below; [left; reflexivity|right]. eexists. reflexivity.
Qed.

(** ** [path.basename] *)

Lemma basename_scan_segment (t' rest : chars) (i e : nat) :
  noslash t' ->
  basename_scan (t' ++ slash :: rest) i false (Some e)
  = (S (i - List.length t'), Some e).
Proof.
  revert i. induction t' as [|c t' IH]; intros i Hn.
  - cbn. rewrite Nat.sub_0_r. reflexivity.
  - apply noslash_cons in Hn as [Hc Hn].
    cbn [app basename_scan]. rewrite Hc, (IH (pred i) Hn).
    cbn [List.length]. f_equal. lia.
Qed.

Lemma basename_scan_whole (t' : chars) (i e : nat) :
  noslash t' -> basename_scan t' i false (Some e) = (0, Some e).
Proof.
  revert i. induction t' as [|c t' IH]; intros i Hn; [reflexivity|].
  apply noslash_cons in Hn as [Hc Hn].
  cbn [basename_scan]. rewrite Hc. apply IH, Hn.
Qed.

Lemma noslash_rev (t : chars) : noslash t -> noslash (rev t).
Proof.
  unfold noslash. rewrite !forallb_forall. intros H x Hx.
  apply H. apply in_rev. exact Hx.
Qed.

Lemma basename_scan_last (pre t : chars) :
  t <> [] -> noslash t ->
  (pre = [] \/ exists pre0, pre = pre0 ++ [slash]) ->
  basename_scan (rev (pre ++ t)) (List.length (pre ++ t) - 1) true None
  = (List.length pre, Some (List.length (pre ++ t))).
Proof.
  intros Hne Hn Hpre.
  destruct (exists_last Hne) as (t0 & cl & ->).
  apply noslash_app in Hn as [Hn0 Hcl].
  apply noslash_cons in Hcl as [Hcl _].
  rewrite rev_app_distr, (rev_app_distr t0 [cl]).
  cbn [rev app basename_scan]. rewrite Hcl.
  assert (S (List.length (pre ++ t0 ++ [cl]) - 1)
          = List.length (pre ++ t0 ++ [cl])) as ->
    by (rewrite !length_app; cbn [List.length]; lia).
  destruct Hpre as [->|(pre0 & ->)].
  - rewrite app_nil_r. cbn [rev app List.length].
    apply basename_scan_whole, noslash_rev, Hn0.
  - rewrite rev_app_distr. cbn [rev app].
    rewrite basename_scan_segment by (apply noslash_rev, Hn0).
    rewrite length_rev, !length_app. cbn [List.length].
    f_equal. lia.
Qed.

Lemma slice_middle (pre t post : chars) :
  slice (pre ++ t ++ post) (List.length pre) (List.length (pre ++ t)) = t.
Proof.
  unfold slice. rewrite drop_app_length, length_app.
  replace (List.length pre + List.length t - List.length pre)
    with (List.length t) by lia.
  apply take_app_length.
Qed.

(** The base name of a path that ends with the segment [t], with or
    without a separator behind it. *)
Lemma basename_chars_last (pre t : chars) (trail : bool) :
  t <> [] -> noslash t ->
  (pre = [] \/ exists pre0, pre = pre0 ++ [slash]) ->
  basename_chars (pre ++ t ++ trailing trail) = t.
Proof.
  intros Hne Hn Hpre. unfold basename_chars.
  pose proof (basename_scan_last pre t Hne Hn Hpre) as Hscan.
  destruct trail; unfold trailing.
  - rewrite app_assoc, rev_app_distr. cbn [rev app basename_scan].
    change (isPathSeparator slash) with true. cbn [negb].
    replace (pred (List.length ((pre ++ t) ++ [slash]) - 1))
      with (List.length (pre ++ t) - 1)
      by (rewrite (length_app (pre ++ t)); cbn [List.length]; lia).
    rewrite Hscan. rewrite <- app_assoc. apply slice_middle.
  - rewrite app_nil_r, Hscan.
    pose proof (slice_middle pre t []) as Hs. rewrite app_nil_r in Hs.
    exact Hs.
Qed.

(** ** [path.dirname] *)

Lemma dirname_scan_segment (t' rest : chars) (i : nat) (m : bool) :
  noslash t' -> m = false \/ t' <> [] ->
  dirname_scan (t' ++ slash :: rest) i m = Some (i - List.length t').
Proof.
  revert i m. induction t' as [|c t' IH]; intros i m Hn Hm.
  - destruct Hm as [->|Hne]; [|congruence].
    cbn. rewrite Nat.sub_0_r. reflexivity.
  - apply noslash_cons in Hn as [Hc Hn].
    cbn [app dirname_scan]. rewrite Hc.
    rewrite (IH (pred i) false Hn (or_introl eq_refl)).
    cbn [List.length]. f_equal. lia.
Qed.

Lemma dirname_scan_none (t' : chars) (i : nat) (m : bool) :
  noslash t' -> dirname_scan t' i m = None.
Proof.
  revert i m. induction t' as [|c t' IH]; intros i m Hn; [reflexivity|].
  apply noslash_cons in Hn as [Hc Hn].
  cbn [dirname_scan]. rewrite Hc. apply IH, Hn.
Qed.

Lemma dirname_chars_single (t : chars) (trail : bool) :
  t <> [] -> noslash t -> dirname_chars (t ++ trailing trail) = [dot].
Proof.
  intros Hne Hn. destruct t as [|c0 t1]; [congruence|].
  apply noslash_cons in Hn as [Hc Hn].
  unfold dirname_chars. cbn [app]. rewrite Hc.
  destruct trail; unfold trailing.
  - rewrite rev_app_distr. cbn [rev app dirname_scan].
    change (isPathSeparator slash) with true. cbn [negb].
    rewrite dirname_scan_none by (apply noslash_rev, Hn). reflexivity.
  - rewrite app_nil_r.
    rewrite dirname_scan_none by (apply noslash_rev, Hn). reflexivity.
Qed.

Lemma dirname_chars_nested (pre0 t : chars) (trail : bool) :
  pre0 <> [] -> starts_with_slash pre0 = false -> t <> [] -> noslash t ->
  dirname_chars (pre0 ++ slash :: t ++ trailing trail) = pre0.
Proof.
  intros Hpre Hstart Hne Hn. destruct pre0 as [|c0 pre1]; [congruence|].
  cbn [starts_with_slash] in Hstart.
  unfold dirname_chars. cbn [app]. rewrite Hstart. cbn [andb].
  assert (rev (pre1 ++ slash :: t ++ trailing trail)
          = rev (trailing trail) ++ rev t ++ slash :: rev pre1) as ->.
  { rewrite rev_app_distr. cbn [rev]. rewrite rev_app_distr.
    rewrite <- !app_assoc. reflexivity. }
  assert (rev t <> []) as Hrev.
  { intros H. apply Hne. rewrite <- (rev_involutive t), H. reflexivity. }
  assert (exists e,
            dirname_scan (rev (trailing trail) ++ rev t ++ slash :: rev pre1)
              (List.length (c0 :: pre1 ++ slash :: t ++ trailing trail) - 1)
              true = Some e
            /\ e = List.length (c0 :: pre1)) as (e & -> & ->).
  { destruct trail; unfold trailing; cbn [rev app dirname_scan].
    - change (isPathSeparator slash) with true. cbn [negb].
      rewrite dirname_scan_segment
        by (try (apply noslash_rev, Hn); right; exact Hrev).
      eexists. split; [reflexivity|].
      rewrite length_rev. cbn [List.length]. rewrite !length_app.
      cbn [List.length]. rewrite length_app. cbn [List.length]. lia.
    - rewrite dirname_scan_segment
        by (try (apply noslash_rev, Hn); right; exact Hrev).
      eexists. split; [reflexivity|].
      rewrite length_rev. cbn [List.length]. rewrite !length_app.
      cbn [List.length]. rewrite length_app. cbn [List.length]. lia. }
  change (c0 :: pre1 ++ slash :: t ++ trailing trail)
    with ((c0 :: pre1) ++ slash :: t ++ trailing trail).
  apply take_app_length.
Qed.

(** ** The routines on a rendered stack *)

Lemma good_segment (t : chars) (below : list chars) :
  normal true (t :: below) -> t <> [] /\ noslash t.
Proof.
  intros Hn. apply normal_good in Hn. inversion Hn; subst. assumption.
Qed.

Lemma basename_render (trail : bool) (stk : list chars) :
  normal true stk ->
  basename_chars (render false trail stk) = hd [dot] stk.
Proof.
  intros Hn. destruct stk as [|t below]; [destruct trail; reflexivity|].
  destruct (good_segment _ _ Hn) as [Hne Hns].
  rewrite render_cons. cbn [hd].
  apply basename_chars_last; [assumption..|apply seg_prefix_cases].
Qed.

Lemma dirname_render (trail : bool) (stk : list chars) :
  normal true stk ->
  dirname_chars (render false trail stk) = render false false (tl stk).
Proof.
  intros Hn. destruct stk as [|t below]; [destruct trail; reflexivity|].
  destruct (good_segment _ _ Hn) as [Hne Hns].
  rewrite render_cons. cbn [tl].
  destruct below as [|u below].
  - cbn [seg_prefix app render]. apply dirname_chars_single; assumption.
  - apply normal_tail in Hn.
    destruct (render_relative false (u :: below) Hn) as (c & rest & Hr & Hc).
    assert (render false false (u :: below) = intercalate (rev (u :: below)))
      as Hi by (unfold render; cbn [app]; apply app_nil_r).
    unfold seg_prefix. rewrite <- Hi, <- app_assoc. cbn [app].
    apply dirname_chars_nested; try assumption.
    + rewrite Hr. discriminate.
    + rewrite Hr. exact Hc.
Qed.

Lemma ends_with_slash_segment (a t : chars) :
  t <> [] -> noslash t -> ends_with_slash (a ++ t) = false.
Proof.
  intros Hne Hn. destruct (exists_last Hne) as (t0 & cl & ->).
  apply noslash_app in Hn as [_ Hcl].
  apply noslash_cons in Hcl as [Hcl _].
  rewrite app_assoc, ends_with_slash_snoc. exact Hcl.
Qed.

Lemma ends_render (trail : bool) (stk : list chars) :
  normal true stk -> ends_with_slash (render false trail stk) = trail.
Proof.
  intros Hn. destruct stk as [|t below]; [destruct trail; reflexivity|].
  destruct (good_segment _ _ Hn) as [Hne Hns].
  rewrite render_cons. destruct trail; unfold trailing.
  - rewrite !app_assoc. apply ends_with_slash_snoc.
  - rewrite app_nil_r. apply ends_with_slash_segment; assumption.
Qed.

Lemma starts_render (trail : bool) (stk : list chars) :
  normal true stk ->
  render false trail stk <> []
  /\ starts_with_slash (render false trail stk) = false.
Proof.
  intros Hn.
  destruct (render_relative trail stk Hn) as (c & rest & -> & Hc).
  split; [discriminate|exact Hc].
Qed.

Lemma norm_stack_app_slash (allow : bool) (a b : chars) :
  norm_stack allow (a ++ slash :: b)
  = fold_left (push allow) (split b) (norm_stack allow a).
Proof.
  unfold norm_stack. rewrite split_app_slash, fold_left_app. reflexivity.
Qed.

Lemma norm_stack_snoc_slash (allow : bool) (a : chars) :
  norm_stack allow (a ++ [slash]) = norm_stack allow a.
Proof. apply norm_stack_app_slash. Qed.

Lemma norm_stack_render (trail : bool) (stk : list chars) :
  normal true stk -> norm_stack true (render false trail stk) = stk.
Proof.
  intros Hn. destruct stk as [|t below] eqn:E; [destruct trail; reflexivity|].
  rewrite <- E in *.
  assert (stk <> []) as Hne by (rewrite E; discriminate).
  assert (render false trail stk = intercalate (rev stk) ++ trailing trail)
    as -> by (rewrite E; reflexivity).
  assert (norm_stack true (intercalate (rev stk)) = stk) as Hs.
  { unfold norm_stack. rewrite split_intercalate.
    - apply refold_normal, Hn.
    - intros H. apply Hne. rewrite <- (rev_involutive stk), H. reflexivity.
    - apply good_rev, (normal_good true), Hn. }
  destruct trail; unfold trailing.
  - rewrite norm_stack_snoc_slash. exact Hs.
  - rewrite app_nil_r. exact Hs.
Qed.

(** [path.normalize] on a relative path, by its segments. *)
Lemma normalize_relative (q : chars) :
  q <> [] -> starts_with_slash q = false ->
  normalize_chars q = render false (ends_with_slash q) (norm_stack true q).
Proof.
  intros Hne Hs. rewrite (normalize_chars_spec q Hne), Hs. reflexivity.
Qed.

Lemma starts_with_slash_app (a b : chars) :
  a <> [] -> starts_with_slash (a ++ b) = starts_with_slash a.
Proof. destruct a; [congruence|reflexivity]. Qed.

(** [path.join(p, path.sep)] on a rendered stack. *)
Lemma join_sep_render (trail : bool) (stk : list chars) :
  normal true stk ->
  join_chars [render false trail stk; [slash]] = render false true stk.
Proof.
  intros Hn. destruct (starts_render trail stk Hn) as [Hne Hs].
  unfold join_chars.
  destruct (render false trail stk) as [|c r] eqn:E; [congruence|].
  cbn [join_args]. rewrite <- E.
  rewrite normalize_relative.
  - change (render false trail stk ++ slash :: [slash])
      with (render false trail stk ++ [slash] ++ [slash]).
    rewrite app_assoc, ends_with_slash_snoc, !norm_stack_snoc_slash.
    change (isPathSeparator slash) with true.
    rewrite norm_stack_render by assumption. reflexivity.
  - rewrite E. discriminate.
  - rewrite starts_with_slash_app by (rewrite E; discriminate).
    rewrite E. exact Hs.
Qed.

Lemma push_top (t : chars) (below : list chars) :
  normal true (t :: below) -> push true below t = t :: below.
Proof.
  intros Hn.
  inversion Hn as [|? ? (Hne & Hns & Hd1 & Hd2) _|? _ HF]; subst.
  - unfold push. destruct t; [congruence|]. rewrite Hd1, Hd2. reflexivity.
  - unfold push. cbn.
    destruct HF as [|x r <- _]; reflexivity.
Qed.

(** [path.join(p, name)] on a rendered stack and one more segment. *)
Lemma join_segment_render (trail : bool) (stk : list chars) (t : chars) :
  normal true stk -> t <> [] -> noslash t ->
  join_chars [render false trail stk; t]
  = render false false (push true stk t).
Proof.
  intros Hn Hne Hns. destruct (starts_render trail stk Hn) as [Hr Hs].
  unfold join_chars.
  destruct (render false trail stk) as [|c r] eqn:E; [congruence|].
  destruct t as [|c1 t1] eqn:Et; [congruence|].
  cbn [join_args]. rewrite <- E, <- Et in *.
  rewrite normalize_relative.
  - change (render false trail stk ++ slash :: t)
      with (render false trail stk ++ [slash] ++ t).
    rewrite app_assoc, ends_with_slash_segment by assumption.
    rewrite <- app_assoc. cbn [app].
    rewrite norm_stack_app_slash, (split_noslash t Hns).
    rewrite norm_stack_render by assumption. reflexivity.
  - rewrite E. discriminate.
  - rewrite starts_with_slash_app by (rewrite E; discriminate). exact Hs.
Qed.

(** ** The routines of the scanner on strings *)

Lemma normalizeDirPath_shape (p : string) :
  exists trail,
    list_ascii_of_string (normalizeDirPath p)
    = render false trail (norm_stack true (list_ascii_of_string p)).
Proof.
  rewrite normalizeDirPath_chars, list_ascii_of_string_of_list_ascii.
  eexists. apply normalizeDirPath_render.
Qed.

Lemma normalizeDirPath_fixed (q : string) (trail : bool) (stk : list chars) :
  list_ascii_of_string q = render false trail stk -> normal true stk ->
  normalizeDirPath q = q.
Proof.
  intros Hq Hn. destruct (starts_render trail stk Hn) as [Hne _].
  rewrite normalizeDirPath_chars.
  change (match list_ascii_of_string q with
          | [] => [dot; slash]
          | _ :: _ => dot :: slash :: slash :: list_ascii_of_string q
          end) with (behind_dot (list_ascii_of_string q)).
  rewrite normalizeDirPath_render.
  rewrite <- Hq in Hne.
  destruct (list_ascii_of_string q) as [|c r] eqn:E; [congruence|].
  rewrite Hq, ends_render, norm_stack_render by assumption.
  rewrite <- Hq, <- E. apply string_of_list_ascii_of_string.
Qed.

Lemma pathFromRelativeDirName_render (q : string) (trail : bool)
    (stk : list chars) :
  list_ascii_of_string q = render false trail stk -> normal true stk ->
  pathFromRelativeDirName q
  = string_of_list_ascii (render false true (tl stk)).
Proof.
  intros Hq Hn. unfold pathFromRelativeDirName.
  rewrite (normalizeDirPath_fixed q trail stk Hq Hn).
  unfold Path.join, Path.dirname. cbn [map].
  rewrite list_ascii_of_string_of_list_ascii, Hq, dirname_render by assumption.
  change (list_ascii_of_string Path.sep) with [slash].
  rewrite join_sep_render; [reflexivity|].
  destruct stk; [constructor|]. eapply normal_tail; eassumption.
Qed.

Lemma dirName_render (q : string) (trail : bool) (stk : list chars) :
  list_ascii_of_string q = render false trail stk -> normal true stk ->
  trim_is_empty q = false ->
  dirName q = string_of_list_ascii (hd [dot] stk).
Proof.
  intros Hq Hn Hb. unfold dirName. rewrite Hb.
  unfold Path.basename. rewrite Hq, basename_render by assumption.
  reflexivity.
Qed.

Lemma join_sep_string (q : string) (trail : bool) (stk : list chars) :
  list_ascii_of_string q = render false trail stk -> normal true stk ->
  Path.join [q; Path.sep] = string_of_list_ascii (render false true stk).
Proof.
  intros Hq Hn. unfold Path.join. cbn [map]. rewrite Hq.
  change (list_ascii_of_string Path.sep) with [slash].
  rewrite join_sep_render by assumption. reflexivity.
Qed.

Lemma hd_segment (stk : list chars) :
  normal true stk ->
  hd [dot] stk <> [] /\ noslash (hd [dot] stk)
  /\ push true (tl stk) (hd [dot] stk) = stk.
Proof.
  intros Hn. destruct stk as [|t below].
  - split; [discriminate|]. split; reflexivity.
  - destruct (good_segment _ _ Hn) as [Hne Hns].
    split; [exact Hne|]. split; [exact Hns|]. apply push_top, Hn.
Qed.

(** [pathFromParent] on the path and the name of a rendered stack. *)
Lemma pathFromParent_render (stk : list chars) :
  normal true stk ->
  pathFromParent
    (mkDirectoryPath (string_of_list_ascii (render false true (tl stk)))
                     (string_of_list_ascii (hd [dot] stk)))
  = string_of_list_ascii (render false true stk).
Proof.
  intros Hn. destruct (hd_segment stk Hn) as (Hne & Hns & Hpush).
  assert (normal true (tl stk)) as Hn'.
  { destruct stk; [constructor|]. eapply normal_tail; eassumption. }
  unfold pathFromParent. cbn [dp_path dp_name].
  assert (Path.join [string_of_list_ascii (render false true (tl stk));
                     string_of_list_ascii (hd [dot] stk)]
          = string_of_list_ascii (render false false stk)) as ->.
  { unfold Path.join. cbn [map].
    rewrite !list_ascii_of_string_of_list_ascii.
    rewrite join_segment_render, Hpush by assumption. reflexivity. }
  rewrite (normalizeDirPath_fixed _ false stk)
    by (try apply list_ascii_of_string_of_list_ascii; assumption).
  apply (join_sep_string _ false); [|assumption].
  apply list_ascii_of_string_of_list_ascii.
Qed.

Lemma entry_name_ordinary (file : string) :
  is_entry_name file = true ->
  ordinary (list_ascii_of_string file)
  /\ forallb is_js_space (list_ascii_of_string file) = false.
Proof.
  unfold is_entry_name. cbv zeta. rewrite !andb_true_iff, !negb_true_iff.
  intros [[[Hb Hs] Hd1] Hd2]. unfold trim_is_empty in Hb.
  split; [|exact Hb].
  split; [|split; [exact Hs|split; assumption]].
  intros H. rewrite H in Hb. discriminate.
Qed.

(** The relative name that [scanDirectory] gives to the probe of an
    entry. *)
Lemma child_name_render (q file : string) (trail : bool) (stk : list chars) :
  list_ascii_of_string q = render false trail stk -> normal true stk ->
  is_entry_name file = true ->
  list_ascii_of_string (Path.join [q; file])
  = render false false (list_ascii_of_string file :: stk)
  /\ normal true (list_ascii_of_string file :: stk)
  /\ trim_is_empty (Path.join [q; file]) = false.
Proof.
  intros Hq Hn Hf.
  destruct (entry_name_ordinary file Hf) as [Hord Hb].
  pose proof Hord as (Hne & Hns & Hd1 & Hd2).
  assert (list_ascii_of_string (Path.join [q; file])
          = render false false (list_ascii_of_string file :: stk)) as Hj.
  { unfold Path.join. cbn [map].
    rewrite list_ascii_of_string_of_list_ascii, Hq.
    rewrite join_segment_render by assumption.
    unfold push. destruct (list_ascii_of_string file); [congruence|].
    rewrite Hd1, Hd2. reflexivity. }
  split; [exact Hj|]. split; [apply normal_ord; assumption|].
  unfold trim_is_empty. rewrite Hj, render_cons.
  unfold trailing. rewrite app_nil_r, forallb_app, Hb.
  apply andb_false_r.
Qed.

(** X16. The parent path of a snapshot's children is the snapshot's own
    relative name with a separator behind it, whichever way it is computed:
    by [pathFromParent] from the path and the name that [scanDirectory]
    gives to the snapshot of [rel] (when that name is not a blank one,
    which [dirName] replaces by [.]), or by [pathFromRelativeDirName] from
    the relative name of a child, whose own name is the entry name. *)
Theorem parent_path_round_trip (rel file : string) :
  (trim_is_empty (normalizeDirPath rel) = false ->
   pathFromParent
     (mkDirectoryPath (pathFromRelativeDirName (normalizeDirPath rel))
                      (dirName (normalizeDirPath rel)))
   = Path.join [normalizeDirPath rel; Path.sep])
  /\ (is_entry_name file = true ->
      dirName (normalizeDirPath (Path.join [normalizeDirPath rel; file]))
      = file
      /\ pathFromRelativeDirName
           (normalizeDirPath (Path.join [normalizeDirPath rel; file]))
         = Path.join [normalizeDirPath rel; Path.sep]).
Proof.
  destruct (normalizeDirPath_shape rel) as (trail & Hq).
  pose proof (norm_stack_normal true (list_ascii_of_string rel)) as Hn.
  set (stk := norm_stack true (list_ascii_of_string rel)) in *.
  split.
  - intros Hb.
    rewrite (pathFromRelativeDirName_render _ trail stk Hq Hn).
    rewrite (dirName_render _ trail stk Hq Hn Hb).
    rewrite (join_sep_string _ trail stk Hq Hn).
    apply pathFromParent_render, Hn.
  - intros Hf.
    destruct (child_name_render _ file trail stk Hq Hn Hf)
      as (Hj & Hn' & Hb').
    rewrite (normalizeDirPath_fixed _ false _ Hj Hn').
    rewrite (dirName_render _ false _ Hj Hn' Hb').
    rewrite (pathFromRelativeDirName_render _ false _ Hj Hn').
    rewrite (join_sep_string _ trail stk Hq Hn).
    cbn [hd tl]. split; [apply string_of_list_ascii_of_string|reflexivity].
Qed.

End NamesAndPaths.

Section ChildPaths.

Context {Metadata : Type} (W : World Metadata).

Implicit Types (d : DirectoryDTO Metadata) (s : DirectoryScanSettings).

Lemma scan_name_path (fuel : nat) (rel : string) s (t : list event) d :
  scanDirectory W fuel rel s = (t, Returned d) ->
  name d = dirName (normalizeDirPath rel)
  /\ path d = pathFromRelativeDirName (normalizeDirPath rel).
Proof.
  intros H. destruct fuel as [|fuel]; [discriminate|].
  apply scanDirectory_returned in H
    as (st & _ & [(_ & -> & _)|(_ & files & t' & d' & _ & Hloop & -> & _)]).
  - split; reflexivity.
  - assert (same_header (initial_snapshot W rel st) d') as Hh.
    { refine (scanEntries_invariant W
                (fun x => same_header (initial_snapshot W rel st) x)
                _ _ _ _ _ _ _ _ _ _ Hloop); [|repeat split].
      intros file d0 t0 e d1 _ Hd0 Hstep.
      apply scanEntry_effect, entry_effect_header in Hstep.
      unfold same_header in *.
      destruct Hd0 as (? & ? & ? & ? & ? & ? & ? & ?).
      destruct Hstep as (? & ? & ? & ? & ? & ? & ? & ?).
      repeat split; congruence. }
    destruct Hh as (_ & _ & Hname & Hpath & _).
    cbn [set_counts name path]. rewrite Hname, Hpath. split; reflexivity.
Qed.

(** The child snapshots of a scan are the marked probes of entries of the
    listing. *)
Lemma scan_children (P : DirectoryDTO Metadata -> Prop) (fuel : nat)
    (rel : string) s (files : list string) (t : list event) d :
  (forall file t' c,
     In file files ->
     scanDirectory W fuel (Path.join [normalizeDirPath rel; file])
       coverOnlySettings = (t', Returned c) ->
     P (mark_partial c)) ->
  fsp_readdir W (absolute_of W rel) = Resolved files ->
  scanDirectory W (S fuel) rel s = (t, Returned d) ->
  Forall P (directories d).
Proof.
  intros HP Hrd H.
  apply scanDirectory_returned in H
    as (st & _ & [(_ & -> & _)|(_ & files' & t' & d' & Hrd' & Hloop & -> & _)]).
  - constructor.
  - rewrite Hrd in Hrd'. inversion Hrd'; subst files'.
    cbn [set_counts directories].
    refine (scanEntries_invariant W (fun x => Forall P (directories x))
              _ _ _ _ _ _ _ _ _ _ Hloop); [|constructor].
    intros file d0 t0 e d1 Hin Hd0 Hstep.
    apply scanEntry_effect in Hstep.
    destruct Hstep; cbn [directories incr_directoryCount push_directory
                         push_media push_metaFile]; try assumption.
    + apply Forall_app. split; [assumption|].
      constructor; [|constructor]. eapply HP; eassumption.
    + unfold with_cover. destruct (cover d0); assumption.
Qed.

(** X17. The children of a snapshot lie under it: in a scan that returns,
    of a directory whose name is not blank and whose listing holds entry
    names (one segment each, neither [.] nor [..], not blank), every child
    snapshot carries as its path the parent path that [pathFromParent]
    computes from the path and the name of the snapshot, and as its name
    an entry of the listing. *)
Theorem scanDirectory_children_paths (fuel : nat) (rel : string)
    (s : DirectoryScanSettings) (files : list string) (t : list event)
    (d : DirectoryDTO Metadata) :
  trim_is_empty (normalizeDirPath rel) = false ->
  fsp_readdir W (absolute_of W rel) = Resolved files ->
  Forall (fun file => is_entry_name file = true) files ->
  scanDirectory W fuel rel s = (t, Returned d) ->
  Forall (fun c => path c = pathFromParent (mkDirectoryPath (path d) (name d))
                   /\ In (name c) files)
    (directories d).
Proof.
  intros Hb Hrd Hfiles H.
  destruct (scan_name_path _ _ _ _ _ H) as [Hname Hpath].
  destruct fuel as [|fuel]; [discriminate|].
  refine (scan_children _ fuel rel s files t d _ Hrd H).
  intros file t' c Hin Hc.
  destruct (scan_name_path _ _ _ _ _ Hc) as [Hcn Hcp].
  rewrite List.Forall_forall in Hfiles.
  destruct (normalizeDirPath_shape rel) as (trail & Hq).
  pose proof (PathFacts.norm_stack_normal true (list_ascii_of_string rel))
    as Hn.
  destruct (child_name_render _ file trail _ Hq Hn (Hfiles file Hin))
    as (Hj & Hn' & Hb').
  cbn [mark_partial name path].
  rewrite Hcn, Hcp, Hname, Hpath.
  rewrite (normalizeDirPath_fixed _ false _ Hj Hn').
  rewrite (dirName_render _ false _ Hj Hn' Hb').
  rewrite (pathFromRelativeDirName_render _ false _ Hj Hn').
  rewrite (pathFromRelativeDirName_render _ trail _ Hq Hn).
  rewrite (dirName_render _ trail _ Hq Hn Hb).
  rewrite pathFromParent_render by exact Hn.
  cbn [hd tl]. rewrite string_of_list_ascii_of_string.
  split; [reflexivity|exact Hin].
Qed.

End ChildPaths.
(** * The further facts at work on the test doubles *)

Lemma scanDirectory_header_witness :
  let W := Fixture.world Fixture.album_table [] [] [] in
  let d := Fixture.album_snapshot in
  scanDirectory W 2 "" emptySettings = (trace Fixture.album_scan, Returned d)
  /\ exists st,
       fsp_stat W (absolute_of W "") = Resolved st
       /\ isPartial d = false
       /\ lastScanned d = Date_now W
       /\ lastModified d = Z.max (ctime st) (mtime st)
       /\ (ctime st <= lastModified d)%Z /\ (mtime st <= lastModified d)%Z
       /\ name d = dirName (normalizeDirPath "")
       /\ path d = pathFromRelativeDirName (normalizeDirPath "")
       /\ id d = None /\ parent d = None.
Proof.
  cbv zeta.
  assert (scanDirectory (Fixture.world Fixture.album_table [] [] []) 2 ""
            emptySettings
          = (trace Fixture.album_scan, Returned Fixture.album_snapshot)) as H
    by (vm_compute; reflexivity).
  split; [exact H|].
  exact (scanDirectory_header (Fixture.world Fixture.album_table [] [] [])
           2 "" emptySettings (trace Fixture.album_scan)
           Fixture.album_snapshot H).
Defined.

Lemma scanDirectory_counts_witness :
  let W := Fixture.world Fixture.album_table [] [] [] in
  let d := Fixture.album_snapshot in
  scanDirectory W 2 "" emptySettings = (trace Fixture.album_scan, Returned d)
  /\ counts_agree W d /\ Forall (counts_agree W) (directories d).
Proof.
  cbv zeta.
  assert (scanDirectory (Fixture.world Fixture.album_table [] [] []) 2 ""
            emptySettings
          = (trace Fixture.album_scan, Returned Fixture.album_snapshot)) as H
    by (vm_compute; reflexivity).
  split; [exact H|].
  exact (scanDirectory_counts (Fixture.world Fixture.album_table [] [] [])
           2 "" emptySettings (trace Fixture.album_scan)
           Fixture.album_snapshot H).
Defined.

Lemma scanDirectory_directory_counts_witness :
  let W := Fixture.world Fixture.album_table [] [] [] in
  let d := Fixture.album_snapshot in
  let files := ["sub"; "p.jpg"; "v.mp4"; "track.gpx"; "notes.txt"] in
  (is_strictly_true (coverOnly emptySettings) = false
   /\ nothing_to_scan emptySettings = false
   /\ fsp_readdir W (absolute_of W "") = Resolved files
   /\ scanDirectory W 2 "" emptySettings
      = (trace Fixture.album_scan, Returned d))
  /\ directoryCount d
     = List.length (List.filter (is_directory_entry W (absolute_of W "")) files)
  /\ List.length (directories d)
     = List.length
         (List.filter
            (fun f => is_directory_entry W (absolute_of W "") f
                      && negb (is_strictly_true (noDirectory emptySettings))
                      && negb (is_excluded W (normalizeDirPath "")
                                 (absolute_of W "") f)) files)
  /\ List.length (directories d) <= directoryCount d.
Proof.
  cbv zeta.
  assert (scanDirectory (Fixture.world Fixture.album_table [] [] []) 2 ""
            emptySettings
          = (trace Fixture.album_scan, Returned Fixture.album_snapshot)) as H
    by (vm_compute; reflexivity).
  assert (fsp_readdir (Fixture.world Fixture.album_table [] [] [])
            (absolute_of (Fixture.world Fixture.album_table [] [] []) "")
          = Resolved ["sub"; "p.jpg"; "v.mp4"; "track.gpx"; "notes.txt"])
    as Hrd by (vm_compute; reflexivity).
  split; [repeat split; assumption|].
  exact (scanDirectory_directory_counts
           (Fixture.world Fixture.album_table [] [] []) 2 ""
           emptySettings _ (trace Fixture.album_scan)
           Fixture.album_snapshot eq_refl eq_refl Hrd H).
Defined.

Lemma scanDirectory_switches_witness :
  let W := Fixture.world Fixture.album_table [] [] [] in
  let s := Fixture.noVideo_settings in
  let t := trace (scanDirectory W 2 "" s) in
  let d := Fixture.returned Fixture.no_snapshot (scanDirectory W 2 "" s) in
  (scanDirectory W 2 "" s = (t, Returned d) /\ noVideo s = Some true)
  /\ Forall (fun m => is_photo_entry W (absolute_of W "") m = true) (media d).
Proof.
  cbv zeta.
  assert (scanDirectory (Fixture.world Fixture.album_table [] [] []) 2 ""
            Fixture.noVideo_settings
          = (trace (scanDirectory (Fixture.world Fixture.album_table [] [] [])
                      2 "" Fixture.noVideo_settings),
             Returned (Fixture.returned Fixture.no_snapshot
                         (scanDirectory
                            (Fixture.world Fixture.album_table [] [] [])
                            2 "" Fixture.noVideo_settings)))) as H
    by (vm_compute; reflexivity).
  split; [split; [exact H|reflexivity]|].
  exact (proj2 (proj2 (proj2
           (scanDirectory_switches
              (Fixture.world Fixture.album_table [] [] []) 2 ""
              Fixture.noVideo_settings _ _ H)))
           (or_introl eq_refl)).
Defined.

Lemma scanDirectory_media_from_listing_witness :
  let W := Fixture.world Fixture.album_table [] [] [] in
  let d := Fixture.album_snapshot in
  let files := ["sub"; "p.jpg"; "v.mp4"; "track.gpx"; "notes.txt"] in
  (fsp_readdir W (absolute_of W "") = Resolved files
   /\ scanDirectory W 2 "" emptySettings
      = (trace Fixture.album_scan, Returned d))
  /\ map m_name (media d) = ["p.jpg"; "v.mp4"]
  /\ sublist (map m_name (media d)) files
  /\ Forall (fun m => m_directory m = None
                      /\ (is_photo_entry W (absolute_of W "") m
                          || is_video_entry W (absolute_of W "") m = true))
       (media d).
Proof.
  cbv zeta.
  assert (scanDirectory (Fixture.world Fixture.album_table [] [] []) 2 ""
            emptySettings
          = (trace Fixture.album_scan, Returned Fixture.album_snapshot)) as H
    by (vm_compute; reflexivity).
  assert (fsp_readdir (Fixture.world Fixture.album_table [] [] [])
            (absolute_of (Fixture.world Fixture.album_table [] [] []) "")
          = Resolved ["sub"; "p.jpg"; "v.mp4"; "track.gpx"; "notes.txt"])
    as Hrd by (vm_compute; reflexivity).
  split; [split; assumption|]. split; [reflexivity|].
  exact (scanDirectory_media_from_listing
           (Fixture.world Fixture.album_table [] [] []) 2 "" emptySettings
           _ (trace Fixture.album_scan) Fixture.album_snapshot Hrd H).
Defined.

Lemma scanDirectory_sidecars_from_listing_witness :
  let W := Fixture.world Fixture.album_table [] [] [] in
  let d := Fixture.album_snapshot in
  let files := ["sub"; "p.jpg"; "v.mp4"; "track.gpx"; "notes.txt"] in
  (fsp_readdir W (absolute_of W "") = Resolved files
   /\ scanDirectory W 2 "" emptySettings
      = (trace Fixture.album_scan, Returned d))
  /\ map f_name (metaFile d) = ["track.gpx"]
  /\ sublist (map f_name (metaFile d)) files
  /\ Forall (fun f => f_directory f = None
                      /\ is_enabled_sidecar W (absolute_of W "") f = true)
       (metaFile d).
Proof.
  cbv zeta.
  assert (scanDirectory (Fixture.world Fixture.album_table [] [] []) 2 ""
            emptySettings
          = (trace Fixture.album_scan, Returned Fixture.album_snapshot)) as H
    by (vm_compute; reflexivity).
  assert (fsp_readdir (Fixture.world Fixture.album_table [] [] [])
            (absolute_of (Fixture.world Fixture.album_table [] [] []) "")
          = Resolved ["sub"; "p.jpg"; "v.mp4"; "track.gpx"; "notes.txt"])
    as Hrd by (vm_compute; reflexivity).
  split; [split; assumption|]. split; [reflexivity|].
  pose proof (scanDirectory_sidecars_from_listing
                (Fixture.world Fixture.album_table [] [] []) 2 ""
                emptySettings _ (trace Fixture.album_scan)
                Fixture.album_snapshot Hrd H) as (Hsub & Hall & _).
  split; assumption.
Defined.

Lemma scanDirectory_probe_shape_witness :
  let W := Fixture.world Fixture.album_table [] [] [] in
  let d := Fixture.probe_snapshot in
  (coverOnly coverOnlySettings = Some true
   /\ scanDirectory W 1 "sub" coverOnlySettings
      = (trace Fixture.probe_scan, Returned d))
  /\ map m_name (media d) = ["q.jpg"]
  /\ List.length (media d) <= 1
  /\ mediaCount d <= 1
  /\ Forall (fun m => is_photo_entry W (absolute_of W "sub") m = true) (media d)
  /\ (cover d = None <-> media d = [])
  /\ metaFile d = [].
Proof.
  cbv zeta.
  assert (scanDirectory (Fixture.world Fixture.album_table [] [] []) 1 "sub"
            coverOnlySettings
          = (trace Fixture.probe_scan, Returned Fixture.probe_snapshot)) as H
    by (vm_compute; reflexivity).
  split; [split; [reflexivity|exact H]|]. split; [reflexivity|].
  exact (scanDirectory_probe_shape
           (Fixture.world Fixture.album_table [] [] []) 1 "sub"
           coverOnlySettings (trace Fixture.probe_scan)
           Fixture.probe_snapshot eq_refl H).
Defined.

Lemma scanDirectory_entry_failure_witness :
  let W := Fixture.world Fixture.broken_photo_table [] [] ["/lib/bad.jpg"] in
  let files := ["a.mp4"; "bad.jpg"; "b.mp4"] in
  (is_strictly_true (coverOnly emptySettings) = false
   /\ nothing_to_scan emptySettings = false
   /\ fsp_readdir W (absolute_of W "") = Resolved files
   /\ In "bad.jpg" files
   /\ entry_fails W emptySettings (normalizeDirPath "") (absolute_of W "")
        "bad.jpg")
  /\ exists e, result (scanDirectory W 2 "" emptySettings) = Thrown e.
Proof.
  cbv zeta.
  assert (fsp_readdir
            (Fixture.world Fixture.broken_photo_table [] [] ["/lib/bad.jpg"])
            (absolute_of
               (Fixture.world Fixture.broken_photo_table [] [] ["/lib/bad.jpg"])
               "")
          = Resolved ["a.mp4"; "bad.jpg"; "b.mp4"])
    as Hrd by (vm_compute; reflexivity).
  assert (In "bad.jpg" ["a.mp4"; "bad.jpg"; "b.mp4"]) as Hin
    by (right; left; reflexivity).
  assert (entry_fails
            (Fixture.world Fixture.broken_photo_table [] [] ["/lib/bad.jpg"])
            emptySettings (normalizeDirPath "")
            (absolute_of
               (Fixture.world Fixture.broken_photo_table [] [] ["/lib/bad.jpg"])
               "")
            "bad.jpg") as Hfail.
  { right. left.
    split; [vm_compute; reflexivity|]. split; [vm_compute; reflexivity|].
    split; [reflexivity|]. split; [reflexivity|].
    exists (JsError "Error: cannot read metadata of /lib/bad.jpg").
    vm_compute. reflexivity. }
  split; [repeat split; assumption|].
  exact (scanDirectory_entry_failure
           (Fixture.world Fixture.broken_photo_table [] [] ["/lib/bad.jpg"])
           0 "" emptySettings _ "bad.jpg" eq_refl eq_refl Hrd Hin Hfail).
Defined.

Lemma scanDirectory_unreadable_witness :
  let W := Fixture.world Fixture.album_table [] [] [] in
  let p := absolute_of W "missing" in
  fsp_stat W p = Rejected (Fixture.ENOENT p)
  /\ scanDirectory W 2 "missing" emptySettings
     = ([EvStat p], Thrown (Fixture.ENOENT p)).
Proof.
  cbv zeta.
  assert (fsp_stat (Fixture.world Fixture.album_table [] [] [])
            (absolute_of (Fixture.world Fixture.album_table [] [] []) "missing")
          = Rejected
              (Fixture.ENOENT
                 (absolute_of (Fixture.world Fixture.album_table [] [] [])
                    "missing"))) as H
    by (vm_compute; reflexivity).
  split; [exact H|].
  exact (proj1 (scanDirectory_unreadable
                  (Fixture.world Fixture.album_table [] [] []) 1 "missing"
                  emptySettings _) H).
Defined.

Lemma scanDirectory_probe_events_witness :
  let W := Fixture.world Fixture.album_table [] [] [] in
  (coverOnly coverOnlySettings = Some true
   /\ scanDirectory W 1 "sub" coverOnlySettings
      = (trace Fixture.probe_scan, Returned Fixture.probe_snapshot))
  /\ trace Fixture.probe_scan
     = [EvStat "/lib/sub"; EvReaddir "/lib/sub"; EvStat "/lib/sub/q.jpg";
        EvLoadPhotoMetadata "/lib/sub/q.jpg"]
  /\ Forall (fun ev => is_probe_event ev = true) (trace Fixture.probe_scan)
  /\ Forall (own_call W "sub") (trace Fixture.probe_scan)
  /\ directories Fixture.probe_snapshot = [].
Proof.
  cbv zeta.
  assert (scanDirectory (Fixture.world Fixture.album_table [] [] []) 1 "sub"
            coverOnlySettings
          = (trace Fixture.probe_scan, Returned Fixture.probe_snapshot)) as H
    by (vm_compute; reflexivity).
  split; [split; [reflexivity|exact H]|]. split; [reflexivity|].
  destruct (scanDirectory_probe_events
              (Fixture.world Fixture.album_table [] [] []) 1 "sub"
              coverOnlySettings eq_refl) as (Hev & Hown & Hdirs).
  rewrite H in Hev, Hown. cbn [trace fst] in Hev, Hown.
  split; [exact Hev|]. split; [exact Hown|].
  exact (Hdirs _ _ H).
Defined.

Lemma scanDirectory_silenced_events_witness :
  let W := Fixture.world Fixture.album_table [] [] [] in
  let s := Fixture.noVideo_settings in
  noVideo s = Some true
  /\ Forall (fun ev => is_video_event ev = false)
       (trace (scanDirectory W 2 "" s)).
Proof.
  cbv zeta. split; [reflexivity|].
  exact (proj1 (proj2 (scanDirectory_silenced_events
                         (Fixture.world Fixture.album_table [] [] []) 2 ""
                         Fixture.noVideo_settings))
           (or_introl eq_refl)).
Defined.

Lemma scanDirectoryNoMetadata_default_settings_witness :
  let W := Fixture.world Fixture.album_table [] [] [] in
  let heap : gmap loc DirectoryScanSettings :=
    {[ 1%positive := coverOnlySettings ]} in
  let heap' := fst (scanDirectoryNoMetadata W 2 heap "" None) in
  let run := snd (scanDirectoryNoMetadata W 2 heap "" None) in
  let d := Fixture.returned Fixture.no_snapshot run in
  (heap !! 1%positive = Some coverOnlySettings
   /\ run = (trace run, Returned d))
  /\ heap' !! 1%positive = Some coverOnlySettings
  /\ (exists l, l <> 1%positive
                /\ noMetadata <$> heap' !! l = Some (Some true)
                /\ coverOnly <$> heap' !! l = Some None)
  /\ map m_name (media d) = ["p.jpg"; "v.mp4"]
  /\ Forall (fun m => m_metadata m = None) (media d)
  /\ Forall (fun ev => is_video_event ev = false) (trace run).
Proof.
  cbv zeta.
  assert ((({[ 1%positive := coverOnlySettings ]}
            : gmap loc DirectoryScanSettings) !! 1%positive)
          = Some coverOnlySettings) as Hl
    by (vm_compute; reflexivity).
  assert (snd (scanDirectoryNoMetadata
                 (Fixture.world Fixture.album_table [] [] []) 2
                 {[ 1%positive := coverOnlySettings ]} "" None)
          = (trace (snd (scanDirectoryNoMetadata
                           (Fixture.world Fixture.album_table [] [] []) 2
                           {[ 1%positive := coverOnlySettings ]} "" None)),
             Returned
               (Fixture.returned Fixture.no_snapshot
                  (snd (scanDirectoryNoMetadata
                          (Fixture.world Fixture.album_table [] [] []) 2
                          {[ 1%positive := coverOnlySettings ]} "" None)))))
    as Hrun by (vm_compute; reflexivity).
  assert (map m_name
            (media
               (Fixture.returned Fixture.no_snapshot
                  (snd (scanDirectoryNoMetadata
                          (Fixture.world Fixture.album_table [] [] []) 2
                          {[ 1%positive := coverOnlySettings ]} "" None))))
          = ["p.jpg"; "v.mp4"]) as Hnames by (vm_compute; reflexivity).
  destruct (scanDirectoryNoMetadata_default_settings
              (Fixture.world Fixture.album_table [] [] []) 2
              {[ 1%positive := coverOnlySettings ]} "")
    as (Hframe & (l & s' & Hfresh & Hheap & Hnm & Hco & _) & Hquiet & Hmeta).
  cbv zeta in Hframe, Hheap, Hquiet, Hmeta.
  split; [split; [exact Hl|exact Hrun]|].
  split; [exact (Hframe 1%positive coverOnlySettings Hl)|].
  split.
  { exists l. split; [intros ->; rewrite Hl in Hfresh; discriminate|].
    rewrite Hheap, lookup_insert_eq. cbn [fmap option_fmap option_map].
    rewrite Hnm, Hco. split; reflexivity. }
  split; [exact Hnames|].
  split; [exact (proj1 (Hmeta _ _ Hrun))|exact Hquiet].
Defined.

Lemma excludeDir_probes_witness :
  let W := Fixture.world Fixture.excluded_table ["bare"] [".ignore"] [] in
  (exists rule,
     In rule (excludeFolderList W)
     /\ rule_matches "bare" (Path.normalize (Path.join ["./"; "bare"]))
          (full_path "/lib/" "bare") rule)
  /\ excludeDir W "bare" "./" "/lib/" = ([], Returned true).
Proof.
  cbv zeta.
  assert (exists rule,
            In rule (excludeFolderList
                       (Fixture.world Fixture.excluded_table ["bare"]
                          [".ignore"] []))
            /\ rule_matches "bare" (Path.normalize (Path.join ["./"; "bare"]))
                 (full_path "/lib/" "bare") rule) as Hrule
    by (exists "bare"; split; [left; reflexivity|vm_compute; reflexivity]).
  split; [exact Hrule|].
  destruct (excludeDir_probes
              (Fixture.world Fixture.excluded_table ["bare"] [".ignore"] [])
              "bare" "./" "/lib/") as (t & b & Heq & Hmatch & _).
  destruct (Hmatch Hrule) as [Ht Hb].
  rewrite Heq, Ht, Hb. reflexivity.
Defined.

Lemma parent_path_round_trip_witness :
  let rel := "a/./b/" in
  (trim_is_empty (normalizeDirPath rel) = false
   /\ is_entry_name "c" = true)
  /\ pathFromParent
       (mkDirectoryPath (pathFromRelativeDirName (normalizeDirPath rel))
                        (dirName (normalizeDirPath rel)))
     = Path.join [normalizeDirPath rel; Path.sep]
  /\ dirName (normalizeDirPath (Path.join [normalizeDirPath rel; "c"])) = "c"
  /\ pathFromRelativeDirName
       (normalizeDirPath (Path.join [normalizeDirPath rel; "c"]))
     = Path.join [normalizeDirPath rel; Path.sep].
Proof.
  cbv zeta.
  assert (trim_is_empty (normalizeDirPath "a/./b/") = false) as Hb
    by (vm_compute; reflexivity).
  assert (is_entry_name "c" = true) as Hf by (vm_compute; reflexivity).
  split; [split; assumption|].
  destruct (parent_path_round_trip "a/./b/" "c") as [Hparent Hchild].
  split; [exact (Hparent Hb)|exact (Hchild Hf)].
Defined.

(** The name of a directory that is blank is replaced by [.], and then the
    parent path computed from the snapshot is that of the root and not the
    one its children carry. *)
Example blank_name_parent_path :
  trim_is_empty (normalizeDirPath " ") = true
  /\ pathFromParent
       (mkDirectoryPath (pathFromRelativeDirName (normalizeDirPath " "))
                        (dirName (normalizeDirPath " ")))
     = "./"
  /\ pathFromRelativeDirName
       (normalizeDirPath (Path.join [normalizeDirPath " "; "c"]))
     = " /".
Proof. vm_compute. repeat split; reflexivity. Qed.

Lemma scanDirectory_children_paths_witness :
  let W := Fixture.world Fixture.album_table [] [] [] in
  let d := Fixture.album_snapshot in
  let files := ["sub"; "p.jpg"; "v.mp4"; "track.gpx"; "notes.txt"] in
  (trim_is_empty (normalizeDirPath "") = false
   /\ fsp_readdir W (absolute_of W "") = Resolved files
   /\ Forall (fun file => is_entry_name file = true) files
   /\ scanDirectory W 2 "" emptySettings
      = (trace Fixture.album_scan, Returned d))
  /\ map name (directories d) = ["sub"]
  /\ Forall (fun c => path c = pathFromParent (mkDirectoryPath (path d) (name d))
                      /\ In (name c) files)
       (directories d).
Proof.
  cbv zeta.
  assert (trim_is_empty (normalizeDirPath "") = false) as Hb
    by (vm_compute; reflexivity).
  assert (scanDirectory (Fixture.world Fixture.album_table [] [] []) 2 ""
            emptySettings
          = (trace Fixture.album_scan, Returned Fixture.album_snapshot)) as H
    by (vm_compute; reflexivity).
  assert (fsp_readdir (Fixture.world Fixture.album_table [] [] [])
            (absolute_of (Fixture.world Fixture.album_table [] [] []) "")
          = Resolved ["sub"; "p.jpg"; "v.mp4"; "track.gpx"; "notes.txt"])
    as Hrd by (vm_compute; reflexivity).
  assert (Forall (fun file => is_entry_name file = true)
            ["sub"; "p.jpg"; "v.mp4"; "track.gpx"; "notes.txt"]) as Hfiles
    by (repeat constructor; vm_compute; reflexivity).
  split; [repeat split; assumption|]. split; [reflexivity|].
  exact (scanDirectory_children_paths
           (Fixture.world Fixture.album_table [] [] []) 2 "" emptySettings
           _ (trace Fixture.album_scan) Fixture.album_snapshot Hb Hrd Hfiles H).
Defined.
